(** * Schema guard and sync orchestrator of the ServicesAttributes scripts

    A shallow embedding of [compare_data.py] (field normaliser, field
    catalogue, field matcher, schema guard) and of [syncdata.py] with
    the helpers of [copy_data.py] it drives (schema-only extraction,
    create / skip / truncate-and-append, scratch cleanup).

    Conventions of the embedding:
    - a Python [str] is a [string] whose characters are the code points
      below 256; [str.isspace] and [str.lower] are written out for that
      range;
    - a Python [dict] is an association list in insertion order
      (assigning to a present key replaces its value in place);
    - a Python [set] of strings is a duplicate-free list; Python leaves
      the iteration order of a set open, the model iterates in
      insertion order and the theorems only speak of membership;
    - the geoprocessing engine ([arcpy]) is a store of catalogue objects
      together with a fault schedule that says which calls raise;
      effectful code lives in a state-and-exception monad over it. *)

From stdpp Require Import gmap strings list fin_maps.
From Stdlib Require Import ZArith Ascii String List Bool Lia.
Import ListNotations.

Local Open Scope string_scope.
Local Open Scope list_scope.

(* ===================================================================== *)
(** * Python strings *)
(* ===================================================================== *)

Module PyStr.

(** [str.isspace] on one character, code points below 256:
    U+0009..U+000D, U+001C..U+001F, U+0020, U+0085, U+00A0. *)
Definition isspace (c : ascii) : bool :=
  let n := N_of_ascii c in
  ((9 <=? n) && (n <=? 13) || (28 <=? n) && (n <=? 32)
   || (n =? 133) || (n =? 160))%N.

(** [str.lower] on one character, code points below 256: A..Z and
    U+00C0..U+00DE without U+00D7 move up by 32. *)
Definition lower_char (c : ascii) : ascii :=
  let n := N_of_ascii c in
  if ((65 <=? n) && (n <=? 90)
      || (192 <=? n) && (n <=? 222) && negb (n =? 215))%N
  then ascii_of_N (n + 32) else c.

Fixpoint lower (s : string) : string :=
  match s with
  | EmptyString => EmptyString
  | String c r => String (lower_char c) (lower r)
  end.

Fixpoint lstrip (s : string) : string :=
  match s with
  | EmptyString => EmptyString
  | String c r => if isspace c then lstrip r else s
  end.

Fixpoint rstrip (s : string) : string :=
  match s with
  | EmptyString => EmptyString
  | String c r =>
      match rstrip r with
      | EmptyString => if isspace c then EmptyString else String c EmptyString
      | r' => String c r'
      end
  end.

(** [s.strip()] *)
Definition strip (s : string) : string := rstrip (lstrip s).

(** The last character of [s], if any. *)
Fixpoint last_char (s : string) : option ascii :=
  match s with
  | EmptyString => None
  | String c EmptyString => Some c
  | String _ r => last_char r
  end.

(** [s.endswith("_")] *)
Definition endswith_underscore (s : string) : bool :=
  match last_char s with
  | Some c => Ascii.eqb c "_"
  | None => false
  end.

(** [s[:-1]] *)
Fixpoint drop_last (s : string) : string :=
  match s with
  | EmptyString => EmptyString
  | String _ EmptyString => EmptyString
  | String c r => String c (drop_last r)
  end.

(** Truthiness of a string: [not s] is [true] exactly on the empty one. *)
Definition truthy (s : string) : bool :=
  match s with EmptyString => false | _ => true end.

(** [x in xs] for a collection of strings. *)
Definition mem (x : string) (xs : list string) : bool :=
  existsb (String.eqb x) xs.

(** [sorted(xs)]: ascending by code points (a stable insertion sort). *)
Fixpoint insert_sorted (x : string) (xs : list string) : list string :=
  match xs with
  | [] => [x]
  | y :: r => if String.leb x y then x :: xs else y :: insert_sorted x r
  end.

Definition sorted (xs : list string) : list string :=
  fold_right insert_sorted [] xs.

(** [s.split(".", 1)] when ["." in s]: the text before the first dot
    and the text after it. *)
Fixpoint split_dot (s : string) : option (string * string) :=
  match s with
  | EmptyString => None
  | String c r =>
      if Ascii.eqb c "."
      then Some (EmptyString, r)
      else match split_dot r with
           | Some (a, b) => Some (String c a, b)
           | None => None
           end
  end.

End PyStr.

(* ===================================================================== *)
(** * Python dicts and sets of strings *)
(* ===================================================================== *)

Module PyDict.

Definition dict (V : Type) : Type := list (string * V).

(** [k in d] / [d.get(k)] *)
Fixpoint get {V} (k : string) (d : dict V) : option V :=
  match d with
  | [] => None
  | (k', v) :: r => if String.eqb k' k then Some v else get k r
  end.

Definition contains {V} (k : string) (d : dict V) : bool :=
  match get k d with Some _ => true | None => false end.

(** [d[k] = v]: a present key keeps its place, a new key goes last. *)
Fixpoint set {V} (k : string) (v : V) (d : dict V) : dict V :=
  match d with
  | [] => [(k, v)]
  | (k', v') :: r =>
      if String.eqb k' k then (k, v) :: r else (k', v') :: set k v r
  end.

(** [d.keys()] *)
Definition keys {V} (d : dict V) : list string := map fst d.

End PyDict.

Module PySet.

(** [s.add(x)] *)
Definition add (x : string) (s : list string) : list string :=
  if PyStr.mem x s then s else s ++ [x].

(** [set(xs)] *)
Definition of_list (xs : list string) : list string :=
  fold_left (fun acc x => add x acc) xs [].

(** [a - b] *)
Definition diff (a b : list string) : list string :=
  filter (fun x => negb (PyStr.mem x b)) a.

End PySet.

(* ===================================================================== *)
(** * compare_data.py: field utilities *)
(* ===================================================================== *)

(** Treated as system fields and ignored in comparisons. *)
Definition SYSTEM_FIELD_NAMES : list string :=
  ["objectid"; "shape"; "globalid"; "shape_area"; "shape_length"].

(** A field of a describe object, with the attributes the scripts read.
    [None] stands for an attribute that is absent or [None]. *)
Record Field := mkField {
  fld_name : option string;
  fld_aliasName : option string;
  fld_type : string;
  fld_length : option Z;
  fld_editable : option bool
}.

(** [_norm_name]: lowercase, trim spaces, trim a single trailing
    underscore. *)
Definition _norm_name (s : option string) : string :=
  match s with
  | None => ""
  | Some s =>
      if negb (PyStr.truthy s) then ""
      else
        let s := PyStr.lower (PyStr.strip s) in
        if PyStr.endswith_underscore s then PyStr.drop_last s else s
  end.

(** [x or ""] *)
Definition or_empty (x : option string) : string :=
  match x with
  | Some s => s
  | None => ""
  end.

(** [x or 0] *)
Definition or_zero (x : option Z) : Z :=
  match x with
  | Some n => n
  | None => 0%Z
  end.

(** One entry of [dump_fields]. *)
Record FieldDump := mkFieldDump {
  fd_name : option string;
  fd_alias : option string;
  fd_type : string;
  fd_length : option Z;
  fd_editable : option bool
}.

Definition dump_field (f : Field) : FieldDump :=
  {| fd_name := fld_name f;
     fd_alias := fld_aliasName f;
     fd_type := fld_type f;
     fd_length := if String.eqb (fld_type f) "String" then fld_length f else None;
     fd_editable := fld_editable f |}.

(** The rich info stored per normalised name. *)
Record FieldInfo := mkFieldInfo {
  fi_name : string;
  fi_alias : string;
  fi_type : string;
  fi_length : option Z;
  fi_norm : string;
  fi_alias_norm : string
}.

Definition EXCLUDED_TYPES : list string :=
  ["OID"; "Geometry"; "GlobalID"; "Blob"; "Raster"; "XML"].

(** One turn of the loop of [_list_user_fields_rich]. *)
Definition user_field_step (out : PyDict.dict FieldInfo) (fld : Field)
  : PyDict.dict FieldInfo :=
  let name := PyStr.strip (or_empty (fld_name fld)) in
  let lname := PyStr.lower name in
  if PyStr.mem lname SYSTEM_FIELD_NAMES then out
  else
    let ftype := fld_type fld in
    if PyStr.mem ftype EXCLUDED_TYPES then out
    else
      let alias := or_empty (fld_aliasName fld) in
      let key := _norm_name (Some name) in
      PyDict.set key
        {| fi_name := name;
           fi_alias := alias;
           fi_type := ftype;
           fi_length := if String.eqb ftype "String" then fld_length fld else None;
           fi_norm := key;
           fi_alias_norm := _norm_name (Some alias) |}
        out.

(** [_list_user_fields_rich], on the field list of a describe object. *)
Definition _list_user_fields_rich (fields : list Field) : PyDict.dict FieldInfo :=
  fold_left user_field_step fields [].

(* ===================================================================== *)
(** * compare_data.py: comparison core *)
(* ===================================================================== *)

(** One line of [type_length_mismatches].  The script renders it as
    text, [sname <-> tname: type stype != ttype] or
    [sname <-> tname: length sl != tl]; the model keeps what is
    interpolated. *)
Inductive Mismatch :=
| TypeMismatch (sname tname stype ttype : string)
| LengthMismatch (sname tname : string) (sl tl : Z).

(** The [details] dict returned by [_compare_fields_core]. *)
Record FieldDetails := mkFieldDetails {
  missing_in_target : list string;
  extras_not_allowed : list string;
  type_length_mismatches : list Mismatch;
  extras_allowed_ignored : list string
}.

(** [{info["alias_norm"]: k for k, info in d.items() if info["alias_norm"]}] *)
Definition by_alias (d : PyDict.dict FieldInfo) : PyDict.dict string :=
  fold_left
    (fun acc (kv : string * FieldInfo) =>
       if PyStr.truthy (fi_alias_norm (snd kv))
       then PyDict.set (fi_alias_norm (snd kv)) (fst kv) acc
       else acc)
    d [].

(** The two sets [matched_src] and [matched_tgt]. *)
Definition Matched : Type := (list string * list string)%type.

(** First loop: match by normalised name. *)
Definition name_step (t : PyDict.dict FieldInfo) (m : Matched) (sk : string)
  : Matched :=
  if PyDict.contains sk t
  then (PySet.add sk (fst m), PySet.add sk (snd m))
  else m.

Definition name_pass (s t : PyDict.dict FieldInfo) : Matched :=
  fold_left (name_step t) (PyDict.keys s) ([], []).

(** Second loop: match by alias where names did not match. *)
Definition alias_step (s : PyDict.dict FieldInfo) (t_by_alias : PyDict.dict string)
    (m : Matched) (sk : string) : Matched :=
  match PyDict.get sk s with
  | None => m (* [s[sk]] with [sk] a key of [s]: not reached *)
  | Some info =>
      let salias := fi_alias_norm info in
      if negb (PyStr.truthy salias) then m
      else match PyDict.get salias t_by_alias with
           | Some tk => (PySet.add sk (fst m), PySet.add tk (snd m))
           | None => m
           end
  end.

Definition alias_pass (s : PyDict.dict FieldInfo) (t_by_alias : PyDict.dict string)
    (m : Matched) : Matched :=
  fold_left (alias_step s t_by_alias)
    (PySet.diff (PySet.of_list (PyDict.keys s)) (fst m)) m.

(** Allow-list applied to the target-only keys. *)
Definition extras_step (t : PyDict.dict FieldInfo) (allowed_names_lc : list string)
    (acc : list string * list string) (tk : string) : list string * list string :=
  match PyDict.get tk t with
  | None => acc (* [t[tk]] with [tk] a key of [t]: not reached *)
  | Some info =>
      let tname_lc := PyStr.lower (fi_name info) in
      if PyStr.mem tname_lc allowed_names_lc
      then (fst acc, snd acc ++ [fi_name info])
      else (fst acc ++ [fi_name info], snd acc)
  end.

(** The target key a matched source key is checked against: the key
    itself when the target has it, else the key found by alias. *)
Definition paired_target (s t : PyDict.dict FieldInfo)
    (t_by_alias : PyDict.dict string) (sk : string) : option string :=
  if PyDict.contains sk t then Some sk
  else match PyDict.get sk s with
       | Some info => PyDict.get (fi_alias_norm info) t_by_alias
       | None => None
       end.

(** What one matched pair adds to [mismatches]. *)
Definition pair_mismatch (s_info t_info : FieldInfo) : list Mismatch :=
  if negb (String.eqb (fi_type s_info) (fi_type t_info))
  then [TypeMismatch (fi_name s_info) (fi_name t_info)
          (fi_type s_info) (fi_type t_info)]
  else if String.eqb (fi_type s_info) "String"
  then
    let sl := or_zero (fi_length s_info) in
    let tl := or_zero (fi_length t_info) in
    if negb (Z.eqb sl tl)
    then [LengthMismatch (fi_name s_info) (fi_name t_info) sl tl]
    else []
  else [].

Definition mismatch_step (s t : PyDict.dict FieldInfo)
    (t_by_alias : PyDict.dict string) (acc : list Mismatch) (sk : string)
  : list Mismatch :=
  match paired_target s t t_by_alias sk with
  | None => acc
  | Some tk =>
      match PyDict.get sk s, PyDict.get tk t with
      | Some s_info, Some t_info => acc ++ pair_mismatch s_info t_info
      | _, _ => acc (* both keys are present: not reached *)
      end
  end.

(** [[s[k]["name"] for k in ks]] *)
Definition names_of (s : PyDict.dict FieldInfo) (ks : list string) : list string :=
  flat_map
    (fun k => match PyDict.get k s with
              | Some info => [fi_name info]
              | None => []
              end) ks.

Definition is_empty {A} (l : list A) : bool :=
  match l with [] => true | _ => false end.

(** The state of [_compare_fields_core] after its two matching loops. *)
Definition match_fields (s t : PyDict.dict FieldInfo) : Matched :=
  alias_pass s (by_alias t) (name_pass s t).

(** [_compare_fields_core], on the field lists of the two describe
    objects.  The script also builds [s_by_alias], the alias index of
    the source, and never reads it; it is left out. *)
Definition _compare_fields_core (src_fields tgt_fields : list Field)
    (allowed_extra_in_target : option (list string)) : bool * FieldDetails :=
  let allowed_names_lc :=
    map PyStr.lower (match allowed_extra_in_target with
                     | Some a => a
                     | None => []
                     end) in
  let s := _list_user_fields_rich src_fields in
  let t := _list_user_fields_rich tgt_fields in
  let t_by_alias := by_alias t in
  let m := match_fields s t in
  let matched_src := fst m in
  let matched_tgt := snd m in
  let missing_src_keys :=
    PyStr.sorted (PySet.diff (PySet.of_list (PyDict.keys s)) matched_src) in
  let extra_tgt_keys :=
    PyStr.sorted (PySet.diff (PySet.of_list (PyDict.keys t)) matched_tgt) in
  let extras := fold_left (extras_step t allowed_names_lc) extra_tgt_keys ([], []) in
  let extras_not_allowed := fst extras in
  let extras_allowed_ignored := snd extras in
  let mismatches := fold_left (mismatch_step s t t_by_alias) matched_src [] in
  let ok := is_empty missing_src_keys && is_empty extras_not_allowed
            && is_empty mismatches in
  (ok,
   {| missing_in_target := names_of s missing_src_keys;
      extras_not_allowed := extras_not_allowed;
      type_length_mismatches := mismatches;
      extras_allowed_ignored := extras_allowed_ignored |}).

(* ===================================================================== *)
(** * The geoprocessing engine and the effect monad *)
(* ===================================================================== *)

Record SpatialReference := mkSR { factoryCode : option Z }.

(** A row of a feature class: its object id, its shape and its
    attribute values. *)
Record Row := mkRow {
  row_oid : Z;
  row_shape : string;
  row_values : list string
}.

(** A catalogue object (service layer, feature layer or feature class):
    what [arcpy.Describe] reports about it, and its rows. *)
Record FeatureClass := mkFC {
  shapeType : option string;
  spatialReference : option SpatialReference;
  fields : list Field;
  fc_rows : list Row
}.

(** The engine calls the scripts make, with the paths they are made on. *)
Inductive Op :=
| OpExists (p : string)
| OpDelete (p : string)
| OpDescribe (p : string)
| OpMakeFeatureLayer (src name : string)
| OpFeatureClassToFeatureClass (src out : string)
| OpProject (src out : string)
| OpTruncateTable (p : string)
| OpAppend (src tgt : string)
| OpGetCount (p : string)
| OpUpdateCursor (p : string)
| OpDeleteRow (p : string)
| OpListFeatureClasses.

Inductive Exn :=
| ExecuteError (op : Op)
| ValueError (msg : string)
| RuntimeError (msg : string).

(** The lines the scripts print, with what they interpolate. *)
Inductive Event :=
| PrintSdeWorkspace (sde_ws : string)
| PrintBanner
| PrintSource (service_url : string)
| PrintTarget (base_path : string)
| PrintCreating
| PrintCreated (created : string) (cnt : nat)
| PrintCreatedNoCount
| PrintSchemaDifferent (field_details : FieldDetails)
| PrintSchemaMatches
| PrintSyncComplete (cnt : nat) (base_path : string)
| PrintFailed (e : Exn)
| PrintMessages.

(** The world the scripts run in: the catalogue objects by path, the
    workspaces that exist, the engine's current workspace, the fault
    schedule ([faults n op]: the [n]-th engine call raises when it is
    [op]), the number of engine calls made so far, and what was
    printed. *)
Record World := mkWorld {
  objects : gmap string FeatureClass;
  workspaces : list string;
  env_workspace : option string;
  faults : nat -> Op -> bool;
  clock : nat;
  out : list Event
}.

Definition with_objects (o : gmap string FeatureClass) (w : World) : World :=
  {| objects := o; workspaces := workspaces w;
     env_workspace := env_workspace w; faults := faults w;
     clock := clock w; out := out w |}.

Definition with_workspaces (ws : list string) (w : World) : World :=
  {| objects := objects w; workspaces := ws;
     env_workspace := env_workspace w; faults := faults w;
     clock := clock w; out := out w |}.

Definition with_env_workspace (p : string) (w : World) : World :=
  {| objects := objects w; workspaces := workspaces w;
     env_workspace := Some p; faults := faults w;
     clock := clock w; out := out w |}.

Definition with_clock (n : nat) (w : World) : World :=
  {| objects := objects w; workspaces := workspaces w;
     env_workspace := env_workspace w; faults := faults w;
     clock := n; out := out w |}.

Definition with_out (o : list Event) (w : World) : World :=
  {| objects := objects w; workspaces := workspaces w;
     env_workspace := env_workspace w; faults := faults w;
     clock := clock w; out := o |}.

Inductive Result (A : Type) :=
| Val (a : A)
| Exc (e : Exn).
Arguments Val {A} a.
Arguments Exc {A} e.

(** Computations over a state [S] that return or raise. *)
Definition M (S A : Type) : Type := S -> Result A * S.

Definition ret {S A} (a : A) : M S A := fun s => (Val a, s).

Definition raise {S A} (e : Exn) : M S A := fun s => (Exc e, s).

Definition bind {S A B} (c : M S A) (k : A -> M S B) : M S B :=
  fun s =>
    match c s with
    | (Val a, s') => k a s'
    | (Exc e, s') => (Exc e, s')
    end.

Declare Scope py_scope.
Delimit Scope py_scope with py.
Notation "x <- c ;; k" := (bind c (fun x => k))
  (at level 100, c at next level, right associativity) : py_scope.
Notation "c ;; k" := (bind c (fun _ => k))
  (at level 100, right associativity) : py_scope.
Local Open Scope py_scope.

(** [try: body / except Exception as e: handler e] *)
Definition try_except {S A} (body : M S A) (handler : Exn -> M S A) : M S A :=
  fun s =>
    match body s with
    | (Val a, s') => (Val a, s')
    | (Exc e, s') => handler e s'
    end.

(** [try: body / finally: fin]: [fin] always runs; what it raises
    replaces the outcome of [body]. *)
Definition try_finally {S A} (body : M S A) (fin : M S unit) : M S A :=
  fun s =>
    match body s with
    | (r, s') =>
        match fin s' with
        | (Val _, s'') => (r, s'')
        | (Exc e, s'') => (Exc e, s'')
        end
    end.

(** [for x in xs: f x] *)
Fixpoint for_each {S A} (xs : list A) (f : A -> M S unit) : M S unit :=
  match xs with
  | [] => ret tt
  | x :: r => f x;; for_each r f
  end.

Definition print (e : Event) : M World unit :=
  fun w => (Val tt, with_out (out w ++ [e]) w).

(** Every engine call advances the clock and raises when the schedule
    says so, before it has done anything. *)
Definition engine_call (op : Op) : M World unit :=
  fun w =>
    let w' := with_clock (S (clock w)) w in
    if faults w (clock w) op then (Exc (ExecuteError op), w') else (Val tt, w').

Definition get_objects : M World (gmap string FeatureClass) :=
  fun w => (Val (objects w), w).

Definition put_objects (o : gmap string FeatureClass) : M World unit :=
  fun w => (Val tt, with_objects o w).

(** [arcpy.Exists(p)] *)
Definition exists_at (w : World) (p : string) : bool :=
  bool_decide (is_Some (objects w !! p)) || PyStr.mem p (workspaces w).

Definition arcpy_Exists (p : string) : M World bool :=
  engine_call (OpExists p);;
  fun w => (Val (exists_at w p), w).

(** [arcpy.management.Delete(p)]: deletes what is at [p], catalogue
    object or workspace; an error when there is nothing. *)
Definition arcpy_Delete (p : string) : M World unit :=
  engine_call (OpDelete p);;
  fun w =>
    if exists_at w p
    then (Val tt,
          with_workspaces
            (filter (fun q => negb (String.eqb q p)) (workspaces w))
            (with_objects (delete p (objects w)) w))
    else (Exc (ExecuteError (OpDelete p)), w).

(** [arcpy.Describe(p)] *)
Definition arcpy_Describe (p : string) : M World FeatureClass :=
  engine_call (OpDescribe p);;
  o <- get_objects;;
  match o !! p with
  | Some fc => ret fc
  | None => raise (ExecuteError (OpDescribe p))
  end.

(** The where clauses the scripts pass: none, or ["1=2"]. *)
Inductive WhereClause :=
| WhereNone
| Where_1_eq_2.

Definition select_rows (wc : WhereClause) (rows : list Row) : list Row :=
  match wc with
  | WhereNone => rows
  | Where_1_eq_2 => []
  end.

Definition with_rows (rows : list Row) (fc : FeatureClass) : FeatureClass :=
  {| shapeType := shapeType fc; spatialReference := spatialReference fc;
     fields := fields fc; fc_rows := rows |}.

(** Creating an output that already exists is an engine error; the
    scripts delete before they create. *)
Definition create_object (op : Op) (path : string) (fc : FeatureClass)
  : M World unit :=
  o <- get_objects;;
  match o !! path with
  | Some _ => raise (ExecuteError op)
  | None => put_objects (<[path := fc]> o)
  end.

(** [arcpy.management.MakeFeatureLayer(src, name, where)] *)
Definition arcpy_MakeFeatureLayer (src name : string) (wc : WhereClause)
  : M World unit :=
  let op := OpMakeFeatureLayer src name in
  engine_call op;;
  o <- get_objects;;
  match o !! src with
  | Some fc => create_object op name (with_rows (select_rows wc (fc_rows fc)) fc)
  | None => raise (ExecuteError op)
  end.

(** [arcpy.management.TruncateTable(p)] *)
Definition arcpy_TruncateTable (p : string) : M World unit :=
  let op := OpTruncateTable p in
  engine_call op;;
  o <- get_objects;;
  match o !! p with
  | Some fc => put_objects (<[p := with_rows [] fc]> o)
  | None => raise (ExecuteError op)
  end.

(** [arcpy.management.Append(src, tgt, schema_type="NO_TEST")] *)
Definition arcpy_Append (src tgt : string) : M World unit :=
  let op := OpAppend src tgt in
  engine_call op;;
  o <- get_objects;;
  match o !! src, o !! tgt with
  | Some s, Some t =>
      put_objects (<[tgt := with_rows (fc_rows t ++ fc_rows s) t]> o)
  | _, _ => raise (ExecuteError op)
  end.

(** [int(arcpy.management.GetCount(p)[0])] *)
Definition arcpy_GetCount (p : string) : M World nat :=
  let op := OpGetCount p in
  engine_call op;;
  o <- get_objects;;
  match o !! p with
  | Some fc => ret (length (fc_rows fc))
  | None => raise (ExecuteError op)
  end.

(** [arcpy.da.UpdateCursor(p, ["OID@"])]: the rows the cursor will visit. *)
Definition arcpy_UpdateCursor (p : string) : M World (list Row) :=
  let op := OpUpdateCursor p in
  engine_call op;;
  o <- get_objects;;
  match o !! p with
  | Some fc => ret (fc_rows fc)
  | None => raise (ExecuteError op)
  end.

(** [cur.deleteRow()] with the cursor on row [r] of [p]. *)
Definition cursor_deleteRow (p : string) (r : Row) : M World unit :=
  let op := OpDeleteRow p in
  engine_call op;;
  o <- get_objects;;
  match o !! p with
  | Some fc =>
      put_objects
        (<[p := with_rows
                  (filter (fun r' => negb (Z.eqb (row_oid r') (row_oid r)))
                     (fc_rows fc)) fc]> o)
  | None => raise (ExecuteError op)
  end.

(** [arcpy.ListFeatureClasses()] *)
Definition arcpy_ListFeatureClasses : M World unit :=
  engine_call OpListFeatureClasses.

(* ===================================================================== *)
(** * compare_data.py: the schema guard *)
(* ===================================================================== *)

Definition sr_wkid (desc_obj : FeatureClass) : option Z :=
  match spatialReference desc_obj with
  | Some sr => factoryCode sr
  | None => None
  end.

Definition geom_type (desc_obj : FeatureClass) : option string :=
  shapeType desc_obj.

(** [str(x)] for [x] a string or [None]. *)
Definition py_str (x : option string) : string :=
  match x with
  | Some s => s
  | None => "None"
  end.

(** [dump_fields] *)
Definition dump_fields (desc_obj : FeatureClass) : list FieldDump :=
  map dump_field (fields desc_obj).

(** The dict returned by [schema_compare_details]. *)
Record SchemaDetails := mkSchemaDetails {
  sr_ok : bool;
  tgt_wkid : option Z;
  geom_ok : bool;
  src_geom : string;
  tgt_geom : string;
  fields_ok : bool;
  field_details : FieldDetails;
  src_fields : list FieldDump;
  tgt_fields : list FieldDump
}.

(** [wkid == 4326], for a WKID that may be [None]. *)
Definition wkid_eq_4326 (wkid : option Z) : bool :=
  match wkid with
  | Some n => Z.eqb n 4326
  | None => false
  end.

(** The body of [schema_compare_details] once both objects are
    described. *)
Definition compare_described (s_desc t_desc : FeatureClass)
    (allowed_extra_in_target : option (list string)) : SchemaDetails :=
  let src_geom := py_str (geom_type s_desc) in
  let tgt_geom := py_str (geom_type t_desc) in
  let geom_ok := String.eqb (PyStr.lower src_geom) (PyStr.lower tgt_geom) in
  let tgt_wkid := sr_wkid t_desc in
  let sr_ok := wkid_eq_4326 tgt_wkid in
  let cmp := _compare_fields_core (fields s_desc) (fields t_desc)
               allowed_extra_in_target in
  {| sr_ok := sr_ok; tgt_wkid := tgt_wkid; geom_ok := geom_ok;
     src_geom := src_geom; tgt_geom := tgt_geom;
     fields_ok := fst cmp; field_details := snd cmp;
     src_fields := dump_fields s_desc; tgt_fields := dump_fields t_desc |}.

Definition schema_compare_details (src_schema_fc tgt_fc : string)
    (allowed_extra_in_target : option (list string)) : M World SchemaDetails :=
  s_desc <- arcpy_Describe src_schema_fc;;
  t_desc <- arcpy_Describe tgt_fc;;
  ret (compare_described s_desc t_desc allowed_extra_in_target).

Definition schema_equal (src_schema_fc tgt_fc : string)
    (allowed_extra_in_target : option (list string)) : M World bool :=
  res <- schema_compare_details src_schema_fc tgt_fc allowed_extra_in_target;;
  ret (sr_ok res && geom_ok res && fields_ok res).

(* ===================================================================== *)
(** * copy_data.py and syncdata.py *)
(* ===================================================================== *)

(** conf.py *)
Definition SERVICE_TO_TARGET : PyDict.dict string :=
  [("https://gis.ashghal.gov.qa/FSDMGP/rest/services/DNMC/FMPActiveProjects/MapServer/0", "BC");
   ("https://gis.ashghal.gov.qa/FSDMGP/rest/services/DNMC/FMPActiveProjects/MapServer/1", "DNPD");
   ("https://gis.ashghal.gov.qa/FSDMGP/rest/services/DNMC/FMPActiveProjects/MapServer/2", "FPS");
   ("https://gis.ashghal.gov.qa/FSDMGP/rest/services/DNMC/FMPActiveProjects/MapServer/3", "FRP");
   ("https://gis.ashghal.gov.qa/FSDMGP/rest/services/DNMC/FMPActiveProjects/MapServer/4", "HPD");
   ("https://gis.ashghal.gov.qa/FSDMGP/rest/services/DNMC/FMPActiveProjects/MapServer/5", "RPD")].

Definition ALLOWED_EXTRA_IN_TARGET : list string :=
  ["created_user"; "created_date"; "last_edited_user";
   "shape.starea()"; "shape.stlength()"].

Definition SDE_FILENAME : string := "PROD-SDE ODW esrigeodb.sde".

(** The local variables of [process_pair] that its [finally] block
    reads, next to the world. *)
Record Frame := mkFrame {
  fr_world : World;
  src_schema : option string;
  rows_native : option string;
  rows_wgs : option string
}.

Definition lift {A} (c : M World A) : M Frame A :=
  fun fr =>
    match c (fr_world fr) with
    | (r, w) =>
        (r, {| fr_world := w; src_schema := src_schema fr;
               rows_native := rows_native fr; rows_wgs := rows_wgs fr |})
    end.

Definition set_src_schema (p : string) : M Frame unit :=
  fun fr => (Val tt, {| fr_world := fr_world fr; src_schema := Some p;
                        rows_native := rows_native fr; rows_wgs := rows_wgs fr |}).

Definition set_rows_native (p : string) : M Frame unit :=
  fun fr => (Val tt, {| fr_world := fr_world fr; src_schema := src_schema fr;
                        rows_native := Some p; rows_wgs := rows_wgs fr |}).

Definition set_rows_wgs (p : string) : M Frame unit :=
  fun fr => (Val tt, {| fr_world := fr_world fr; src_schema := src_schema fr;
                        rows_native := rows_native fr; rows_wgs := Some p |}).

Definition get_frame : M Frame Frame := fun fr => (Val fr, fr).

Section Sync.

(** [os.path.join] *)
Variable path_join : string -> string -> string.
(** What [arcpy.management.Project] to WGS84 does to one row. *)
Variable reproject : Row -> Row.
(** [script_dir()] *)
Variable script_dir : string.
(** [ALLOWED_EXTRA]: the allow-list read from conf.py. *)
Variable ALLOWED_EXTRA : list string.

(** [arcpy.conversion.FeatureClassToFeatureClass(src, out_ws, out_name, where)] *)
Definition arcpy_FeatureClassToFeatureClass (src out_ws out_name : string)
    (wc : WhereClause) : M World unit :=
  let out_path := path_join out_ws out_name in
  let op := OpFeatureClassToFeatureClass src out_path in
  engine_call op;;
  o <- get_objects;;
  match o !! src with
  | Some fc => create_object op out_path (with_rows (select_rows wc (fc_rows fc)) fc)
  | None => raise (ExecuteError op)
  end.

(** [arcpy.management.Project(src, out, WGS84)] *)
Definition arcpy_Project (src out_path : string) : M World unit :=
  let op := OpProject src out_path in
  engine_call op;;
  o <- get_objects;;
  match o !! src with
  | Some fc =>
      create_object op out_path
        {| shapeType := shapeType fc;
           spatialReference := Some (mkSR (Some 4326%Z));
           fields := fields fc;
           fc_rows := map reproject (fc_rows fc) |}
  | None => raise (ExecuteError op)
  end.

(** [if arcpy.Exists(p): arcpy.management.Delete(p)] *)
Definition delete_if_exists (p : string) : M World unit :=
  ex <- arcpy_Exists p;;
  if ex then arcpy_Delete p else ret tt.

Definition split_target (sde_ws target_str : string)
  : string * string * string :=
  let target_str := PyStr.strip target_str in
  match PyStr.split_dot target_str with
  | Some (ds, fc) =>
      let container := path_join sde_ws ds in
      (container, fc, path_join container fc)
  | None => (sde_ws, target_str, path_join sde_ws target_str)
  end.

Definition load_conf (mapping : option (PyDict.dict string))
  : M World (PyDict.dict string) :=
  match mapping with
  | Some (kv :: r) => ret (kv :: r)
  | _ => raise (ValueError "conf.SERVICE_TO_TARGET must be a non-empty dict.")
  end.

Definition open_sde (sde_filename : string) : M World string :=
  let sde_path := path_join script_dir sde_filename in
  ex <- arcpy_Exists sde_path;;
  if negb ex
  then raise (RuntimeError ".sde not found or not recognized by ArcPy")
  else
    (fun w => (Val tt, with_env_workspace sde_path w));;
    arcpy_ListFeatureClasses;;
    ret sde_path.

Definition make_schema_only_source (service_url : string) : M World string :=
  let tmp_lyr := "tmp_schema_lyr" in
  let out_fc := path_join "in_memory" "src_schema_tmp" in
  delete_if_exists tmp_lyr;;
  delete_if_exists out_fc;;
  arcpy_MakeFeatureLayer service_url tmp_lyr Where_1_eq_2;;
  arcpy_FeatureClassToFeatureClass tmp_lyr "in_memory" "src_schema_tmp" WhereNone;;
  arcpy_Delete tmp_lyr;;
  ret out_fc.

(** copy_data.py: [GLOBAL_WHERE = None] *)
Definition GLOBAL_WHERE : WhereClause := WhereNone.

Definition export_rows (service_url : string) : M World string :=
  let out_path := path_join "in_memory" "src_rows" in
  delete_if_exists out_path;;
  arcpy_FeatureClassToFeatureClass service_url "in_memory" "src_rows" GLOBAL_WHERE;;
  ret out_path.

Definition project_to_wgs (in_fc : string) : M World string :=
  d <- arcpy_Describe in_fc;;
  if wkid_eq_4326 (sr_wkid d) then ret in_fc
  else
    let out_path := path_join "in_memory" "src_rows_wgs84" in
    delete_if_exists out_path;;
    arcpy_Project in_fc out_path;;
    ret out_path.

Definition create_new_table_with_rows (container_ws out_name proj_rows_fc : string)
  : M World string :=
  let out_path := path_join container_ws out_name in
  delete_if_exists out_path;;
  arcpy_FeatureClassToFeatureClass proj_rows_fc container_ws out_name WhereNone;;
  ret out_path.

(** The row-by-row fallback of [truncate_then_append]. *)
Definition delete_rows_by_cursor (tgt_fc : string) : M World unit :=
  cur <- arcpy_UpdateCursor tgt_fc;;
  for_each cur (fun r => cursor_deleteRow tgt_fc r).

Definition truncate_then_append (src_fc tgt_fc : string) : M World unit :=
  try_except (arcpy_TruncateTable tgt_fc)
             (fun _ => delete_rows_by_cursor tgt_fc);;
  arcpy_Append src_fc tgt_fc.

(** The [try] block of [process_pair]. *)
Definition process_pair_try (service_url container_ws base_name base_path : string)
  : M Frame unit :=
  p <- lift (make_schema_only_source service_url);;
  set_src_schema p;;
  ex <- lift (arcpy_Exists base_path);;
  if negb ex then
    lift (print PrintCreating);;
    rn <- lift (export_rows service_url);;
    set_rows_native rn;;
    rw <- lift (project_to_wgs rn);;
    set_rows_wgs rw;;
    created <- lift (create_new_table_with_rows container_ws base_name rw);;
    lift (try_except
            (cnt <- arcpy_GetCount created;; print (PrintCreated created cnt))
            (fun _ => print PrintCreatedNoCount))
  else
    p <- lift (make_schema_only_source service_url);;
    set_src_schema p;;
    same <- lift (schema_equal p base_path (Some ALLOWED_EXTRA));;
    if negb same then
      det <- lift (schema_compare_details p base_path (Some ALLOWED_EXTRA));;
      lift (print (PrintSchemaDifferent (field_details det)))
    else
      rn <- lift (export_rows service_url);;
      set_rows_native rn;;
      rw <- lift (project_to_wgs rn);;
      set_rows_wgs rw;;
      lift (print PrintSchemaMatches);;
      lift (truncate_then_append rw base_path);;
      lift (try_except
              (cnt <- arcpy_GetCount base_path;;
               print (PrintSyncComplete cnt base_path))
              (fun _ => ret tt)).

(** The [except Exception as e] block of [process_pair]. *)
Definition process_pair_except (e : Exn) : M Frame unit :=
  lift (print (PrintFailed e));;
  lift (print PrintMessages).

(** One turn of the cleanup loop. *)
Definition cleanup_one (p : option string) : M World unit :=
  try_except
    (match p with
     | Some q => if PyStr.truthy q then delete_if_exists q else ret tt
     | None => ret tt
     end)
    (fun _ => ret tt).

(** The [finally] block of [process_pair]. *)
Definition process_pair_finally : M Frame unit :=
  fr <- get_frame;;
  lift (for_each
          [src_schema fr; rows_native fr; rows_wgs fr;
           Some (path_join "in_memory" "src_schema_tmp");
           Some (path_join "in_memory" "src_rows");
           Some (path_join "in_memory" "src_rows_wgs84")]
          cleanup_one).

(** [process_pair]: the header lines are printed before the [try]
    statement is entered. *)
Definition process_pair (service_url target_str sde_ws : string) : M World unit :=
  match split_target sde_ws target_str with
  | (container_ws, base_name, base_path) =>
      print PrintBanner;;
      print (PrintSource service_url);;
      print (PrintTarget base_path);;
      fun w =>
        match
          try_finally
            (try_except
               (process_pair_try service_url container_ws base_name base_path)
               process_pair_except)
            process_pair_finally
            {| fr_world := w; src_schema := None;
               rows_native := None; rows_wgs := None |}
        with
        | (r, fr) => (r, fr_world fr)
        end
  end.

(** [main], with the mapping conf.py holds (or [None] when it holds
    none). *)
Definition main (conf_mapping : option (PyDict.dict string)) : M World unit :=
  mapping <- load_conf conf_mapping;;
  sde_ws <- open_sde SDE_FILENAME;;
  print (PrintSdeWorkspace sde_ws);;
  for_each mapping (fun kv => process_pair (fst kv) (snd kv) sde_ws).

End Sync.

(* ===================================================================== *)
(** * Statements used by the theorems *)
(* ===================================================================== *)

(** [s] begins, resp. ends, with a whitespace character. *)
Definition starts_space (s : string) : bool :=
  match s with
  | String c _ => PyStr.isspace c
  | EmptyString => false
  end.

Definition ends_space (s : string) : bool :=
  match PyStr.last_char s with
  | Some c => PyStr.isspace c
  | None => false
  end.

(** What the alias loop finds for a source key: the target key indexed
    under the source entry's alias key, when that alias key is not
    empty. *)
Definition alias_target (s : PyDict.dict FieldInfo)
    (t_by_alias : PyDict.dict string) (sk : string) : option string :=
  match PyDict.get sk s with
  | Some info =>
      if PyStr.truthy (fi_alias_norm info)
      then PyDict.get (fi_alias_norm info) t_by_alias
      else None
  | None => None
  end.

(** C2 as the spec words it: an alias match is made only with a target
    key that is matched neither by name nor by the alias of another
    source key. *)
Definition alias_matches_exclusive (src_fields tgt_fields : list Field) : Prop :=
  let s := _list_user_fields_rich src_fields in
  let t := _list_user_fields_rich tgt_fields in
  forall sk tk,
    In sk (PyDict.keys s) -> PyDict.contains sk t = false ->
    alias_target s (by_alias t) sk = Some tk ->
    ~ (In tk (PyDict.keys s) /\ PyDict.contains tk t = true)
    /\ forall sk', In sk' (PyDict.keys s) -> PyDict.contains sk' t = false ->
                   alias_target s (by_alias t) sk' = Some tk -> sk' = sk.

(** C5 as the spec words it: a source field whose normalised key is
    empty is never matched. *)
Definition empty_key_never_matched (src_fields tgt_fields : list Field) : Prop :=
  let s := _list_user_fields_rich src_fields in
  let t := _list_user_fields_rich tgt_fields in
  In "" (PyDict.keys s) -> ~ In "" (fst (match_fields s t)).

(** [allowed or set()] *)
Definition or_empty_set (allowed : option (list string)) : list string :=
  match allowed with
  | Some a => a
  | None => []
  end.

(** A field as the examples below write it. *)
Definition field (name alias type : string) (len : option Z) : Field :=
  mkField (Some name) (Some alias) type len None.

(** [c] prints nothing, leaves the fault schedule alone and changes no
    catalogue object outside the paths [ps]. *)
Definition touches {A} (ps : list string) (c : M World A) : Prop :=
  forall w,
    out (snd (c w)) = out w
    /\ faults (snd (c w)) = faults w
    /\ forall q, ~ In q ps -> objects (snd (c w)) !! q = objects w !! q.

(** [c] never raises. *)
Definition total {S A} (c : M S A) : Prop :=
  forall s, exists a, fst (c s) = Val a.

(** The scratch feature classes of one pair. *)
Definition scratch_paths (path_join : string -> string -> string) : list string :=
  [path_join "in_memory" "src_schema_tmp";
   path_join "in_memory" "src_rows";
   path_join "in_memory" "src_rows_wgs84"].

(** What remains of [rows] once a cursor has deleted the rows [cur]. *)
Definition delete_all (cur rows : list Row) : list Row :=
  fold_left
    (fun acc r => filter (fun r' => negb (Z.eqb (row_oid r') (row_oid r))) acc)
    cur rows.

(** The service URLs announced in a print-out. *)
Definition printed_sources (evs : list Event) : list string :=
  flat_map (fun e => match e with PrintSource u => [u] | _ => [] end) evs.

(** [c] leaves the fault schedule alone and announces no source; [proj]
    finds the world in the state of [c]. *)
Definition stable {S A} (proj : S -> World) (c : M S A) : Prop :=
  forall s,
    faults (proj (snd (c s))) = faults (proj s)
    /\ exists l, out (proj (snd (c s))) = out (proj s) ++ l
                 /\ printed_sources l = [].

(** The frame [process_pair] enters its [try] block with. *)
Definition pair_start (w : World) (service_url base_path : string) : Frame :=
  {| fr_world :=
       with_out (out w ++ [PrintBanner; PrintSource service_url;
                           PrintTarget base_path]) w;
     src_schema := None; rows_native := None; rows_wgs := None |}.

(** A concrete setting for the examples: a Windows-style join, an
    identity reprojection, a service layer and a matching target. *)
Definition ex_join (a b : string) : string :=
  String.append a (String.append "\" b).

Definition ex_fields : list Field :=
  [field "id" "" "Integer" None; field "name" "" "String" (Some 50%Z)].

Definition ex_service : FeatureClass :=
  mkFC (Some "Polygon") (Some (mkSR (Some 2932%Z))) ex_fields
    [mkRow 1 "g1" ["a"]; mkRow 2 "g2" ["b"]].

Definition ex_target : FeatureClass :=
  mkFC (Some "Polygon") (Some (mkSR (Some 4326%Z))) ex_fields
    [mkRow 7 "g7" ["x"]; mkRow 8 "g8" ["y"]; mkRow 9 "g9" ["z"]].

(** A target that lacks the source field [name]. *)
Definition ex_target_short : FeatureClass :=
  mkFC (Some "Polygon") (Some (mkSR (Some 4326%Z)))
    [field "id" "" "Integer" None] [mkRow 7 "g7" ["x"]].

Definition ex_sde : string := ex_join "C:\scripts" SDE_FILENAME.

Definition ex_world (t : FeatureClass) (schedule : nat -> Op -> bool) : World :=
  mkWorld (<[ex_join ex_sde "A" := t]> (<["url2" := ex_service]> {["url1" := ex_service]}))
    [ex_sde] None schedule 0 [].

(** The engine refuses every append. *)
Definition ex_append_fails (n : nat) (op : Op) : bool :=
  match op with
  | OpAppend _ _ => true
  | _ => false
  end.

(** The schedule of [w] makes some engine call raise. *)
Definition faulted (w : World) : Prop :=
  exists n op, faults w n op = true.

(** The local variables of a frame only name scratch paths. *)
Definition locals_scratch (path_join : string -> string -> string)
    (fr : Frame) : Prop :=
  forall q, In (Some q) [src_schema fr; rows_native fr; rows_wgs fr] ->
            In q (scratch_paths path_join).

(** What the steps of a pair before the verdict keep: the target, the
    source, the schedule of the initial world [w] and the print-out
    [o]. *)
Definition pair_inv (bp url : string) (t svc : FeatureClass) (w : World)
    (o : list Event) (W : World) : Prop :=
  objects W !! bp = Some t /\ objects W !! url = Some svc
  /\ faults W = faults w /\ out W = o.

(* ===================================================================== *)
(** * Further statements *)
(* ===================================================================== *)

(** ["." in s] *)
Fixpoint has_dot (s : string) : bool :=
  match s with
  | EmptyString => false
  | String c r => Ascii.eqb c "." || has_dot r
  end.

(** What [_list_user_fields_rich] does with one field: whether it
    keeps it, under which key, and with which entry. *)
Definition is_user_field (fld : Field) : bool :=
  negb (PyStr.mem (PyStr.lower (PyStr.strip (or_empty (fld_name fld))))
          SYSTEM_FIELD_NAMES)
  && negb (PyStr.mem (fld_type fld) EXCLUDED_TYPES).

Definition field_key (fld : Field) : string :=
  _norm_name (Some (PyStr.strip (or_empty (fld_name fld)))).

Definition field_info (fld : Field) : FieldInfo :=
  {| fi_name := PyStr.strip (or_empty (fld_name fld));
     fi_alias := or_empty (fld_aliasName fld);
     fi_type := fld_type fld;
     fi_length := if String.eqb (fld_type fld) "String" then fld_length fld else None;
     fi_norm := field_key fld;
     fi_alias_norm := _norm_name (Some (or_empty (fld_aliasName fld))) |}.

(** No engine call of [w]'s schedule raises. *)
Definition faultless (w : World) : Prop :=
  forall n op, faults w n op = false.

(** [w'] is [w] after engine calls that printed nothing: its catalogue
    is [o], its workspaces are among those of [w], and schedule,
    print-out and current workspace are those of [w]. *)
Definition engine_step (w w' : World) (o : gmap string FeatureClass) : Prop :=
  objects w' = o
  /\ faults w' = faults w
  /\ out w' = out w
  /\ env_workspace w' = env_workspace w
  /\ forall q, In q (workspaces w') -> In q (workspaces w).

(** What [arcpy.management.Project] to WGS84 makes of a feature class. *)
Definition projected (reproject : Row -> Row) (fc : FeatureClass) : FeatureClass :=
  {| shapeType := shapeType fc;
     spatialReference := Some (mkSR (Some 4326%Z));
     fields := fields fc;
     fc_rows := map reproject (fc_rows fc) |}.

(** The local variables of a frame only name paths among [ps]. *)
Definition locals_within (ps : list string) (fr : Frame) : Prop :=
  forall q, In (Some q) [src_schema fr; rows_native fr; rows_wgs fr] -> In q ps.

(** [c], run in a frame whose locals are within [ps], changes no
    catalogue object outside [ps], keeps the locals within [ps], and
    returns only values that satisfy [Q]. *)
Definition frame_keeps {A} (ps : list string) (c : M Frame A) (Q : A -> Prop) : Prop :=
  forall fr,
    locals_within ps fr ->
    locals_within ps (snd (c fr))
    /\ (forall q, ~ In q ps ->
          objects (fr_world (snd (c fr))) !! q = objects (fr_world fr) !! q)
    /\ (forall a, fst (c fr) = Val a -> Q a).

(** [w'] is [w] after engine calls and prints: its catalogue is [o],
    it has printed [l] more, its workspaces are among those of [w] and
    its schedule is that of [w]. *)
Definition reach (w w' : World) (o : gmap string FeatureClass) (l : list Event) : Prop :=
  objects w' = o
  /\ faults w' = faults w
  /\ out w' = out w ++ l
  /\ forall q, In q (workspaces w') -> In q (workspaces w).

(** The paths one pair works with are pairwise distinct. *)
Definition paths_apart (path_join : string -> string -> string)
    (service_url base_path : string) : Prop :=
  NoDup (service_url :: base_path :: "tmp_schema_lyr" :: scratch_paths path_join).

(** The feature class a pair stages for loading: the exported rows of
    the service, reprojected unless the service is in WGS84 already. *)
Definition staged (reproject : Row -> Row) (svc : FeatureClass) : FeatureClass :=
  if wkid_eq_4326 (sr_wkid svc) then svc else projected reproject svc.

(** The verdict of [schema_equal] on two described feature classes. *)
Definition schema_passes (s t : FeatureClass) (allowed : option (list string)) : bool :=
  let d := compare_described s t allowed in
  sr_ok d && geom_ok d && fields_ok d.

(* ===================================================================== *)
(** * testFeature.py *)
(* ===================================================================== *)

(** Coordinates are whatever the engine hands out ([float] or [None]);
    [coord_eqb] is Python's [==] on them, of which nothing is assumed. *)
Section Vertices.

Variable coord : Type.
Variable coord_eqb : coord -> coord -> bool.

(** An [arcpy.Point]. *)
Record Point := mkPoint { pt_X : coord; pt_Y : coord; pt_Z : coord }.

(** The tuples [(x, y)] and [(x, y, z)]. *)
Inductive Vertex :=
| V2 (x y : coord)
| V3 (x y z : coord).

(** [==] on tuples: same length and equal members. *)
Definition vertex_eqb (a b : Vertex) : bool :=
match a, b with
| V2 x y, V2 x' y' => coord_eqb x x' && coord_eqb y y'
| V3 x y z, V3 x' y' z' => coord_eqb x x' && coord_eqb y y' && coord_eqb z z'
| _, _ => false
end.

(** A geometry: its type, its first point, whether it has Z values,
  and what iterating it yields: arrays of points and [None]s. *)
Record Geometry := mkGeometry {
g_type : string;
g_firstPoint : option Point;
g_hasZ : bool;
g_parts : list (list (option Point)) }.

(** [(pt.X, pt.Y, pt.Z) if include_z and geom.hasZ else (pt.X, pt.Y)] *)
Definition vertex_of (include_z hasZ : bool) (pt : Point) : Vertex :=
if include_z && hasZ then V3 (pt_X pt) (pt_Y pt) (pt_Z pt)
else V2 (pt_X pt) (pt_Y pt).

(** [ring[0] == ring[-1]] *)
Definition ends_meet (ring : list Vertex) : bool :=
match ring with
| [] => false
| v :: _ => vertex_eqb v (List.last ring v)
end.

(** [if drop_closing_duplicate and len(ring) > 1 and ring[0] == ring[-1]:
  ring.pop()] *)
Definition close_ring (drop_closing_duplicate : bool) (ring : list Vertex)
: list Vertex :=
if drop_closing_duplicate && (1 <? length ring)%nat && ends_meet ring
then removelast ring else ring.

(** [if ring: ...; parts.append(ring)] *)
Definition flush_ring (drop_closing_duplicate : bool)
  (parts : list (list Vertex)) (ring : list Vertex) : list (list Vertex) :=
match ring with
| [] => parts
| _ :: _ => parts ++ [close_ring drop_closing_duplicate ring]
end.

(** One turn of [for pt in part], on the pair [(parts, ring)]. *)
Definition point_step (drop_closing_duplicate include_z hasZ : bool)
  (st : list (list Vertex) * list Vertex) (pt : option Point)
: list (list Vertex) * list Vertex :=
match pt with
| None =>
    match snd st with
    | [] => st
    | _ :: _ => (flush_ring drop_closing_duplicate (fst st) (snd st), [])
    end
| Some p => (fst st, snd st ++ [vertex_of include_z hasZ p])
end.

(** One turn of [for part in geom]. *)
Definition part_step (drop_closing_duplicate include_z hasZ : bool)
  (parts : list (list Vertex)) (part : list (option Point))
: list (list Vertex) :=
let st := fold_left (point_step drop_closing_duplicate include_z hasZ) part
            (parts, []) in
flush_ring drop_closing_duplicate (fst st) (snd st).

Definition vertices_by_part (geom : option Geometry)
  (drop_closing_duplicate include_z : bool) : list (list Vertex) :=
match geom with
| None => []
| Some g =>
    if String.eqb (PyStr.lower (g_type g)) "point" then
      match g_firstPoint g with
      | Some pt => [[vertex_of include_z (g_hasZ g) pt]]
      | None => []
      end
    else
      fold_left (part_step drop_closing_duplicate include_z (g_hasZ g))
        (g_parts g) []
end.

(** The vertices of the points of a part, separators left out. *)
Definition part_vertices (include_z hasZ : bool) (part : list (option Point))
: list Vertex :=
flat_map (fun pt => match pt with
                    | Some p => [vertex_of include_z hasZ p]
                    | None => []
                    end) part.

End Vertices.

Arguments mkPoint {coord}.
Arguments pt_X {coord}.
Arguments pt_Y {coord}.
Arguments pt_Z {coord}.
Arguments V2 {coord}.
Arguments V3 {coord}.
Arguments mkGeometry {coord}.
Arguments g_type {coord}.
Arguments g_firstPoint {coord}.
Arguments g_hasZ {coord}.
Arguments g_parts {coord}.
Arguments vertex_of {coord}.
Arguments part_vertices {coord}.

(* ===================================================================== *)
(** * Facts about Python strings *)
(* ===================================================================== *)

Section StringFacts.

Lemma lower_char_idem c : PyStr.lower_char (PyStr.lower_char c) = PyStr.lower_char c.
Proof. destruct c as [[] [] [] [] [] [] [] []]; reflexivity. Qed.

Lemma isspace_lower_char c : PyStr.isspace (PyStr.lower_char c) = PyStr.isspace c.
Proof. destruct c as [[] [] [] [] [] [] [] []]; reflexivity. Qed.

Lemma underscore_lower_char c :
  Ascii.eqb (PyStr.lower_char c) "_" = Ascii.eqb c "_".
Proof. destruct c as [[] [] [] [] [] [] [] []]; reflexivity. Qed.

Lemma lower_idem s : PyStr.lower (PyStr.lower s) = PyStr.lower s.
Proof.
  induction s as [|c r IH]; simpl; [reflexivity|].
  now rewrite lower_char_idem, IH.
Qed.

Lemma lower_drop_last s :
  PyStr.lower (PyStr.drop_last s) = PyStr.drop_last (PyStr.lower s).
Proof.
  induction s as [|c r IH]; simpl; [reflexivity|].
  destruct r as [|c' r']; [reflexivity|].
  simpl in *. now rewrite IH.
Qed.

Lemma lstrip_id s : starts_space s = false -> PyStr.lstrip s = s.
Proof. destruct s as [|c r]; simpl; [reflexivity|]. now intros ->. Qed.

Lemma last_char_cons c r :
  r <> EmptyString -> PyStr.last_char (String c r) = PyStr.last_char r.
Proof. destruct r; [congruence|reflexivity]. Qed.

Lemma rstrip_id s : ends_space s = false -> PyStr.rstrip s = s.
Proof.
  unfold ends_space.
  induction s as [|c r IH]; [reflexivity|].
  destruct r as [|c' r'].
  - simpl. now intros ->.
  - intros H. rewrite last_char_cons in H by discriminate.
    change (PyStr.rstrip (String c (String c' r')))
      with (match PyStr.rstrip (String c' r') with
            | EmptyString =>
                if PyStr.isspace c then EmptyString else String c EmptyString
            | r0 => String c r0
            end).
    now rewrite (IH H).
Qed.

Lemma starts_space_lstrip s : starts_space (PyStr.lstrip s) = false.
Proof.
  induction s as [|c r IH]; simpl; [reflexivity|].
  destruct (PyStr.isspace c) eqn:E; [exact IH|]. simpl. exact E.
Qed.

Lemma starts_space_rstrip s :
  starts_space s = false -> starts_space (PyStr.rstrip s) = false.
Proof.
  destruct s as [|c r]; simpl; [reflexivity|].
  intros E. destruct (PyStr.rstrip r); simpl; [|exact E].
  rewrite E. simpl. exact E.
Qed.

Lemma starts_space_strip s : starts_space (PyStr.strip s) = false.
Proof. apply starts_space_rstrip, starts_space_lstrip. Qed.

Lemma starts_space_lower s : starts_space (PyStr.lower s) = starts_space s.
Proof. destruct s; simpl; [reflexivity|apply isspace_lower_char]. Qed.

Lemma starts_space_drop_last s :
  starts_space s = false -> starts_space (PyStr.drop_last s) = false.
Proof.
  destruct s as [|c r]; simpl; [reflexivity|].
  destruct r; simpl; [reflexivity|auto].
Qed.

Lemma strip_id s :
  starts_space s = false -> ends_space s = false -> PyStr.strip s = s.
Proof.
  intros H1 H2. unfold PyStr.strip. rewrite (lstrip_id s H1).
  now apply rstrip_id.
Qed.

(** The result of [_norm_name] is lowercase and begins with no
    whitespace. *)
Lemma norm_name_shape x :
  PyStr.lower (_norm_name x) = _norm_name x
  /\ starts_space (_norm_name x) = false.
Proof.
  destruct x as [s|]; [|now split].
  unfold _norm_name.
  destruct (negb (PyStr.truthy s)); [now split|].
  cbv zeta.
  pose proof (starts_space_strip s) as Hs.
  rewrite <- starts_space_lower in Hs.
  destruct (PyStr.endswith_underscore (PyStr.lower (PyStr.strip s))).
  - split.
    + now rewrite lower_drop_last, lower_idem.
    + now apply starts_space_drop_last.
  - split; [apply lower_idem|exact Hs].
Qed.

End StringFacts.

(** C4, as the spec states it, fails: the normaliser strips one
    trailing underscore per call, so a name ending in two underscores
    loses one more on the second call. *)
Lemma norm_name_not_idempotent :
  ~ (forall x : string,
        _norm_name (Some (_norm_name (Some x))) = _norm_name (Some x)).
Proof. intros H. specialize (H "foo__"). vm_compute in H. discriminate H. Qed.

(** C4 (amended): [_norm_name] applied twice gives what it gives once,
    for every string whose normalised form ends neither in an
    underscore nor in a whitespace character. *)
Theorem norm_name_idempotent_when_settled (x : string) :
  PyStr.endswith_underscore (_norm_name (Some x)) = false ->
  ends_space (_norm_name (Some x)) = false ->
  _norm_name (Some (_norm_name (Some x))) = _norm_name (Some x).
Proof.
  intros Hu Hs.
  destruct (norm_name_shape (Some x)) as [Hl Hh].
  remember (_norm_name (Some x)) as y eqn:Ey. clear Ey.
  unfold _norm_name.
  destruct y as [|c r]; [reflexivity|].
  cbn [PyStr.truthy negb]. cbv zeta.
  rewrite (strip_id _ Hh Hs), Hl, Hu. reflexivity.
Qed.

Lemma norm_name_idempotent_when_settled_witness :
  _norm_name (Some (_norm_name (Some " Created_User_ ")))
  = _norm_name (Some " Created_User_ ").
Proof.
  apply (norm_name_idempotent_when_settled " Created_User_ "); reflexivity.
Defined.

(* ===================================================================== *)
(** * Facts about dicts and sets *)
(* ===================================================================== *)

Section ContainerFacts.

Lemma mem_In x xs : PyStr.mem x xs = true <-> In x xs.
Proof.
  unfold PyStr.mem. rewrite existsb_exists. split.
  - intros (y & Hy & E). apply String.eqb_eq in E. now subst.
  - intros H. exists x. split; [exact H|apply String.eqb_refl].
Qed.

Lemma mem_false x xs : PyStr.mem x xs = false <-> ~ In x xs.
Proof.
  rewrite <- mem_In. destruct (PyStr.mem x xs); split; congruence.
Qed.

Lemma In_add x y s : In x (PySet.add y s) <-> x = y \/ In x s.
Proof.
  unfold PySet.add. destruct (PyStr.mem y s) eqn:E.
  - apply mem_In in E. split; [auto|]. intros [->|H]; assumption.
  - rewrite in_app_iff. simpl. intuition congruence.
Qed.

Lemma In_of_list_from xs acc x :
  In x (fold_left (fun a y => PySet.add y a) xs acc) <-> In x acc \/ In x xs.
Proof.
  revert acc. induction xs as [|y r IH]; intros acc; simpl.
  - tauto.
  - rewrite IH, In_add. intuition congruence.
Qed.

Lemma In_of_list x xs : In x (PySet.of_list xs) <-> In x xs.
Proof. unfold PySet.of_list. rewrite In_of_list_from. simpl. tauto. Qed.

Lemma In_diff x a b : In x (PySet.diff a b) <-> In x a /\ ~ In x b.
Proof.
  unfold PySet.diff. rewrite filter_In, negb_true_iff, mem_false. tauto.
Qed.

Lemma In_insert_sorted x y xs :
  In x (PyStr.insert_sorted y xs) <-> x = y \/ In x xs.
Proof.
  induction xs as [|z r IH]; simpl.
  - intuition congruence.
  - destruct (String.leb y z); simpl; [intuition congruence|].
    rewrite IH. intuition congruence.
Qed.

Lemma In_sorted x xs : In x (PyStr.sorted xs) <-> In x xs.
Proof.
  unfold PyStr.sorted. induction xs as [|y r IH]; simpl; [tauto|].
  rewrite In_insert_sorted, IH. intuition congruence.
Qed.

Context {V : Type}.

Lemma get_set (k k' : string) (v : V) d :
  PyDict.get k (PyDict.set k' v d)
  = if String.eqb k' k then Some v else PyDict.get k d.
Proof.
  induction d as [|[k0 v0] r IH]; simpl.
  - reflexivity.
  - destruct (String.eqb k0 k') eqn:E0; simpl.
    + apply String.eqb_eq in E0. subst k0.
      destruct (String.eqb k' k); reflexivity.
    + destruct (String.eqb k0 k) eqn:E1.
      * apply String.eqb_eq in E1. subst k0. now rewrite String.eqb_sym, E0.
      * exact IH.
Qed.

Lemma keys_set (k k' : string) (v : V) d :
  In k (PyDict.keys (PyDict.set k' v d)) <-> k = k' \/ In k (PyDict.keys d).
Proof.
  unfold PyDict.keys. induction d as [|[k0 v0] r IH]; simpl.
  - intuition congruence.
  - destruct (String.eqb k0 k') eqn:E0; simpl.
    + apply String.eqb_eq in E0. subst k0. intuition congruence.
    + rewrite IH. intuition congruence.
Qed.

Lemma get_Some_In (k : string) (v : V) d :
  PyDict.get k d = Some v -> In (k, v) d.
Proof.
  induction d as [|[k0 v0] r IH]; simpl; [discriminate|].
  destruct (String.eqb k0 k) eqn:E.
  - apply String.eqb_eq in E. intros [= ->]. left. now subst.
  - intros H. right. now apply IH.
Qed.

Lemma In_keys_get (k : string) (d : PyDict.dict V) :
  In k (PyDict.keys d) <-> exists v, PyDict.get k d = Some v.
Proof.
  unfold PyDict.keys. induction d as [|[k0 v0] r IH]; simpl.
  - split; [tauto|]. intros [v H]. discriminate.
  - destruct (String.eqb k0 k) eqn:E.
    + apply String.eqb_eq in E. split; eauto.
    + apply String.eqb_neq in E. rewrite IH. intuition congruence.
Qed.

Lemma contains_true (k : string) (d : PyDict.dict V) :
  PyDict.contains k d = true <-> In k (PyDict.keys d).
Proof.
  rewrite In_keys_get. unfold PyDict.contains.
  destruct (PyDict.get k d); split; eauto; try discriminate.
  intros [v H]. discriminate.
Qed.

Lemma NoDup_keys_set (k : string) (v : V) d :
  NoDup (PyDict.keys d) -> NoDup (PyDict.keys (PyDict.set k v d)).
Proof.
  unfold PyDict.keys. induction d as [|[k0 v0] r IH]; simpl; intros H.
  - constructor; [simpl; tauto|constructor].
  - inversion H as [|? ? Hn Hr]; subst.
    destruct (String.eqb k0 k) eqn:E; simpl.
    + apply String.eqb_eq in E. subst k0. now constructor.
    + apply String.eqb_neq in E. constructor; [|now apply IH].
      intros Hin. apply (keys_set k0 k v r) in Hin. intuition congruence.
Qed.

Lemma In_get (k : string) (v : V) d :
  NoDup (PyDict.keys d) -> In (k, v) d -> PyDict.get k d = Some v.
Proof.
  unfold PyDict.keys. induction d as [|[k0 v0] r IH]; simpl; intros Hn Hin.
  - tauto.
  - inversion Hn as [|? ? Hn0 Hr]; subst. destruct Hin as [[= -> ->]|Hin].
    + now rewrite String.eqb_refl.
    + destruct (String.eqb k0 k) eqn:E; [|now apply IH].
      apply String.eqb_eq in E. subst k0. exfalso. apply Hn0.
      apply in_map_iff. now exists (k, v).
Qed.

End ContainerFacts.

(* ===================================================================== *)
(** * Facts about the field catalogue and the matcher *)
(* ===================================================================== *)

Section MatcherFacts.

Lemma catalog_NoDup fs : NoDup (PyDict.keys (_list_user_fields_rich fs)).
Proof.
  unfold _list_user_fields_rich.
  assert (G : forall acc, NoDup (PyDict.keys acc) ->
                          NoDup (PyDict.keys (fold_left user_field_step fs acc))).
  { induction fs as [|f r IH]; intros acc Hacc; simpl; [exact Hacc|].
    apply IH. unfold user_field_step.
    destruct (PyStr.mem _ SYSTEM_FIELD_NAMES); [exact Hacc|].
    destruct (PyStr.mem _ EXCLUDED_TYPES); [exact Hacc|].
    now apply NoDup_keys_set. }
  apply G. constructor.
Qed.

(** The alias index only holds non-empty alias keys, each mapped to a
    key of the catalogue whose entry carries that alias key. *)
Lemma by_alias_sound_from d : forall acc a k,
  PyDict.get a (fold_left
                  (fun acc (kv : string * FieldInfo) =>
                     if PyStr.truthy (fi_alias_norm (snd kv))
                     then PyDict.set (fi_alias_norm (snd kv)) (fst kv) acc
                     else acc) d acc) = Some k ->
  PyDict.get a acc = Some k
  \/ exists info, In (k, info) d /\ fi_alias_norm info = a /\ PyStr.truthy a = true.
Proof.
  induction d as [|[k0 i0] r IH]; intros acc a k H; simpl in *; [now left|].
  apply IH in H. destruct H as [H|(info & Hin & Ha & Ht)].
  - destruct (PyStr.truthy (fi_alias_norm i0)) eqn:Et; [|now left].
    rewrite get_set in H.
    destruct (String.eqb (fi_alias_norm i0) a) eqn:E; [|now left].
    apply String.eqb_eq in E. injection H as <-. right.
    exists i0. subst a. auto.
  - right. exists info. auto.
Qed.

Lemma by_alias_sound d a k :
  PyDict.get a (by_alias d) = Some k ->
  exists info, In (k, info) d /\ fi_alias_norm info = a /\ PyStr.truthy a = true.
Proof.
  intros H. apply by_alias_sound_from in H.
  destruct H as [H|H]; [discriminate H|exact H].
Qed.

Lemma by_alias_complete_from d : forall acc a,
  (PyDict.get a acc <> None
   \/ exists k info, In (k, info) d /\ fi_alias_norm info = a /\ PyStr.truthy a = true) ->
  PyDict.get a (fold_left
                  (fun acc (kv : string * FieldInfo) =>
                     if PyStr.truthy (fi_alias_norm (snd kv))
                     then PyDict.set (fi_alias_norm (snd kv)) (fst kv) acc
                     else acc) d acc) <> None.
Proof.
  induction d as [|[k0 i0] r IH]; intros acc a H; simpl in *.
  - destruct H as [H|(k & info & [] & _)]. exact H.
  - apply IH. destruct H as [H|(k & info & [[= -> ->]|Hin] & Ha & Ht)].
    + left. destruct (PyStr.truthy (fi_alias_norm i0)); [|exact H].
      rewrite get_set. now destruct (String.eqb (fi_alias_norm i0) a).
    + left. subst a. rewrite Ht, get_set, String.eqb_refl. discriminate.
    + right. eauto.
Qed.

Lemma by_alias_complete d k info :
  In (k, info) d -> PyStr.truthy (fi_alias_norm info) = true ->
  PyDict.get (fi_alias_norm info) (by_alias d) <> None.
Proof.
  intros Hin Ht. apply by_alias_complete_from. right. eauto.
Qed.

Variables s t : PyDict.dict FieldInfo.

Lemma name_pass_from l : forall m x,
  (In x (fst (fold_left (name_step t) l m))
   <-> In x (fst m) \/ (In x l /\ PyDict.contains x t = true))
  /\ (In x (snd (fold_left (name_step t) l m))
      <-> In x (snd m) \/ (In x l /\ PyDict.contains x t = true)).
Proof.
  induction l as [|y r IH]; intros m x; simpl; [tauto|].
  destruct (IH (name_step t m y) x) as [IH1 IH2]. rewrite IH1, IH2.
  unfold name_step. destruct (PyDict.contains y t) eqn:E; simpl.
  - rewrite !In_add. split; intuition (subst; auto).
  - split; intuition (subst; congruence).
Qed.

Lemma name_pass_fst x :
  In x (fst (name_pass s t))
  <-> In x (PyDict.keys s) /\ PyDict.contains x t = true.
Proof.
  unfold name_pass. rewrite (proj1 (name_pass_from _ _ _)). simpl. tauto.
Qed.

Lemma name_pass_snd x :
  In x (snd (name_pass s t))
  <-> In x (PyDict.keys s) /\ PyDict.contains x t = true.
Proof.
  unfold name_pass. rewrite (proj2 (name_pass_from _ _ _)). simpl. tauto.
Qed.

Lemma alias_step_hit m sk :
  alias_step s (by_alias t) m sk
  = match alias_target s (by_alias t) sk with
    | Some tk => (PySet.add sk (fst m), PySet.add tk (snd m))
    | None => m
    end.
Proof.
  unfold alias_step, alias_target.
  destruct (PyDict.get sk s) as [info|]; [|reflexivity].
  destruct (PyStr.truthy (fi_alias_norm info)); reflexivity.
Qed.

Lemma alias_pass_from l : forall m,
  (forall x, In x (fst (fold_left (alias_step s (by_alias t)) l m))
             <-> In x (fst m)
                 \/ (In x l /\ alias_target s (by_alias t) x <> None))
  /\ (forall y, In y (snd (fold_left (alias_step s (by_alias t)) l m))
                <-> In y (snd m)
                    \/ exists x, In x l /\ alias_target s (by_alias t) x = Some y).
Proof.
  induction l as [|z r IH]; intros m; simpl.
  - split; intros x; [tauto|]. split; [auto|]. intros [H|(? & [] & _)]. exact H.
  - destruct (IH (alias_step s (by_alias t) m z)) as [IH1 IH2].
    rewrite alias_step_hit in *.
    split; intros x; [rewrite IH1|rewrite IH2]; clear IH1 IH2;
      destruct (alias_target s (by_alias t) z) as [tk|] eqn:E; simpl;
      rewrite ?In_add.
    + intuition (subst; auto; congruence).
    + intuition (subst; auto; congruence).
    + split.
      * intros [[->|H]|(x0 & H & H')]; [right; exists z|now left|right; exists x0];
          auto.
      * intros [H|(x0 & [->|H] & H')]; [left; now right| |right; exists x0; auto].
        left. left. congruence.
    + split.
      * intros [H|(x0 & H & H')]; [now left|right; exists x0; auto].
      * intros [H|(x0 & [->|H] & H')]; [now left|congruence|right; exists x0; auto].
Qed.

(** When a source key is matched. *)
Lemma matched_src_iff sk :
  In sk (PyDict.keys s) ->
  (In sk (fst (match_fields s t))
   <-> PyDict.contains sk t = true \/ alias_target s (by_alias t) sk <> None).
Proof.
  intros Hk. unfold match_fields, alias_pass.
  rewrite (proj1 (alias_pass_from _ _)), In_diff, In_of_list, name_pass_fst.
  destruct (PyDict.contains sk t); split; intuition congruence.
Qed.

Lemma matched_src_keys sk :
  In sk (fst (match_fields s t)) -> In sk (PyDict.keys s).
Proof.
  unfold match_fields, alias_pass.
  rewrite (proj1 (alias_pass_from _ _)), In_diff, In_of_list, name_pass_fst.
  tauto.
Qed.

(** When a target key is matched. *)
Lemma matched_tgt_iff tk :
  In tk (snd (match_fields s t))
  <-> (In tk (PyDict.keys s) /\ PyDict.contains tk t = true)
      \/ exists sk, In sk (PyDict.keys s) /\ PyDict.contains sk t = false
                    /\ alias_target s (by_alias t) sk = Some tk.
Proof.
  unfold match_fields, alias_pass.
  rewrite (proj2 (alias_pass_from _ _)), name_pass_snd.
  split; (intros [H|(sk & H & H')]; [now left|right; exists sk]).
  - rewrite In_diff, In_of_list, name_pass_fst in H.
    destruct (PyDict.contains sk t); intuition congruence.
  - destruct H' as [Hc Ha].
    rewrite In_diff, In_of_list, name_pass_fst. intuition congruence.
Qed.

(** The target key checked against a source key: the name match when
    there is one, the alias match otherwise. *)
Lemma paired_target_cases sk :
  paired_target s t (by_alias t) sk
  = if PyDict.contains sk t then Some sk
    else match PyDict.get sk s with
         | Some info => PyDict.get (fi_alias_norm info) (by_alias t)
         | None => None
         end.
Proof. reflexivity. Qed.

Lemma alias_target_paired sk tk :
  PyDict.contains sk t = false ->
  alias_target s (by_alias t) sk = Some tk ->
  paired_target s t (by_alias t) sk = Some tk.
Proof.
  unfold alias_target, paired_target. intros ->.
  destruct (PyDict.get sk s) as [info|]; [|discriminate].
  now destruct (PyStr.truthy (fi_alias_norm info)).
Qed.

(** Every matched source key has a partner, and both keys have
    entries. *)
Lemma matched_src_paired sk :
  In sk (fst (match_fields s t)) ->
  exists tk s_info t_info,
    paired_target s t (by_alias t) sk = Some tk
    /\ PyDict.get sk s = Some s_info /\ PyDict.get tk t = Some t_info.
Proof.
  intros Hm. pose proof (matched_src_keys sk Hm) as Hk.
  apply (matched_src_iff sk Hk) in Hm.
  apply In_keys_get in Hk. destruct Hk as [s_info Hs].
  destruct (PyDict.contains sk t) eqn:Ec.
  - pose proof Ec as Ec'. apply contains_true, In_keys_get in Ec'.
    destruct Ec' as [t_info Ht].
    exists sk, s_info, t_info. unfold paired_target. now rewrite Ec.
  - destruct Hm as [Hm|Hm]; [discriminate|].
    destruct (alias_target s (by_alias t) sk) as [tk|] eqn:Ea; [|congruence].
    pose proof (alias_target_paired sk tk Ec Ea) as Hp.
    unfold alias_target in Ea. rewrite Hs in Ea.
    destruct (PyStr.truthy (fi_alias_norm s_info)); [|discriminate].
    apply by_alias_sound in Ea. destruct Ea as (ti & Hin & _).
    assert (Hk : In tk (PyDict.keys t)).
    { apply in_map_iff. now exists (tk, ti). }
    apply In_keys_get in Hk. destruct Hk as [t_info Ht].
    now exists tk, s_info, t_info.
Qed.

End MatcherFacts.

(* ===================================================================== *)
(** * The field matcher: C2, C5, C6, C7 *)
(* ===================================================================== *)

Lemma truthy_iff a : PyStr.truthy a = true <-> a <> "".
Proof. destruct a; simpl; split; congruence. Qed.

Lemma alias_target_Some s ta sk info :
  PyDict.get sk s = Some info ->
  forall tk, alias_target s ta sk = Some tk
             <-> fi_alias_norm info <> "" /\ PyDict.get (fi_alias_norm info) ta = Some tk.
Proof.
  intros Hs tk. unfold alias_target. rewrite Hs, <- truthy_iff.
  destruct (PyStr.truthy (fi_alias_norm info)); split;
    intuition congruence.
Qed.

(** C2, as the spec states it, fails: two source fields with the same
    alias are both matched, by alias, with the one target field that
    carries it. *)
Lemma alias_matches_not_exclusive :
  ~ alias_matches_exclusive
      [field "a" "X" "Integer" None; field "b" "X" "Integer" None]
      [field "c" "X" "Integer" None].
Proof.
  intros H.
  destruct (H "a" "c") as [_ H2]; [simpl; auto|reflexivity|reflexivity|].
  specialize (H2 "b"). discriminate H2; [simpl; auto|reflexivity|reflexivity].
Qed.

(** An alias match is also made with a target field that is already
    matched by name. *)
Lemma alias_match_onto_name_matched :
  ~ alias_matches_exclusive
      [field "Status" "" "String" (Some 5%Z); field "Foo" "Q" "String" (Some 5%Z)]
      [field "Status" "Q" "String" (Some 5%Z)].
Proof.
  intros H.
  destruct (H "foo" "status") as [H1 _]; [simpl; auto|reflexivity|reflexivity|].
  apply H1. split; [simpl; auto|reflexivity].
Qed.

(** C2 (amended): a source key the target also has is matched by name
    and checked against that same key, whatever the aliases; a source
    key the target lacks is matched exactly when its alias key is not
    empty and the target's alias index holds it, and is then paired
    with the key the index holds, an entry of the target with that
    alias key, whether or not that key is matched already; every
    matched source key has one partner, and it is matched. *)
Theorem alias_pass_pairs_by_alias_index
    (src_fields tgt_fields : list Field) (sk : string) (info : FieldInfo) :
  let s := _list_user_fields_rich src_fields in
  let t := _list_user_fields_rich tgt_fields in
  let m := match_fields s t in
  PyDict.get sk s = Some info ->
  (PyDict.contains sk t = true ->
     In sk (fst m) /\ In sk (snd m)
     /\ paired_target s t (by_alias t) sk = Some sk)
  /\ (PyDict.contains sk t = false ->
        (In sk (fst m)
         <-> fi_alias_norm info <> ""
             /\ exists tk, PyDict.get (fi_alias_norm info) (by_alias t) = Some tk)
        /\ forall tk,
             fi_alias_norm info <> "" ->
             PyDict.get (fi_alias_norm info) (by_alias t) = Some tk ->
             paired_target s t (by_alias t) sk = Some tk
             /\ In tk (snd m)
             /\ exists t_info, PyDict.get tk t = Some t_info
                               /\ fi_alias_norm t_info = fi_alias_norm info)
  /\ (In sk (fst m) ->
        exists tk, paired_target s t (by_alias t) sk = Some tk /\ In tk (snd m)).
Proof.
  intros s t m Hs.
  assert (Hk : In sk (PyDict.keys s)) by (apply In_keys_get; eauto).
  pose proof (matched_src_iff s t sk Hk) as Hm. fold m in Hm.
  pose proof (alias_target_Some s (by_alias t) sk info Hs) as Ha.
  assert (Pname : PyDict.contains sk t = true ->
                  In sk (fst m) /\ In sk (snd m)
                  /\ paired_target s t (by_alias t) sk = Some sk).
  { intros Hc. repeat split.
    - apply Hm. now left.
    - apply matched_tgt_iff. now left.
    - unfold paired_target. now rewrite Hc. }
  assert (Palias : forall tk, PyDict.contains sk t = false ->
            fi_alias_norm info <> "" ->
            PyDict.get (fi_alias_norm info) (by_alias t) = Some tk ->
            paired_target s t (by_alias t) sk = Some tk /\ In tk (snd m)
            /\ exists t_info, PyDict.get tk t = Some t_info
                              /\ fi_alias_norm t_info = fi_alias_norm info).
  { intros tk Hc Hne Hg.
    assert (Hat : alias_target s (by_alias t) sk = Some tk) by (apply Ha; auto).
    repeat split.
    - now apply alias_target_paired.
    - apply matched_tgt_iff. right. exists sk. auto.
    - apply by_alias_sound in Hg. destruct Hg as (ti & Hin & Hal & _).
      exists ti. split; [|exact Hal].
      apply In_get; [apply catalog_NoDup|exact Hin]. }
  split; [exact Pname|]. split.
  - intros Hc. split; [|intros tk; now apply Palias].
    rewrite Hm, Hc. split.
    + intros [H|H]; [discriminate|].
      destruct (alias_target s (by_alias t) sk) as [tk|] eqn:E; [|congruence].
      destruct (proj1 (Ha tk) eq_refl). eauto.
    + intros (Hne & tk & Hg). right.
      assert (alias_target s (by_alias t) sk = Some tk) as -> by (apply Ha; auto).
      discriminate.
  - intros Hin. destruct (PyDict.contains sk t) eqn:Hc.
    + exists sk. destruct (Pname eq_refl) as (_ & ? & ?). auto.
    + apply Hm in Hin. destruct Hin as [H|H]; [discriminate|].
      destruct (alias_target s (by_alias t) sk) as [tk|] eqn:E; [|congruence].
      destruct (proj1 (Ha tk) eq_refl) as [Hne Hg].
      exists tk. destruct (Palias tk eq_refl Hne Hg) as (? & ? & _). auto.
Qed.

Lemma alias_pass_pairs_by_alias_index_witness :
  let s := _list_user_fields_rich [field "qty" "Quantity" "Integer" None] in
  let t := _list_user_fields_rich [field "amount_qty_" "Quantity" "Integer" None] in
  In "qty" (fst (match_fields s t))
  /\ paired_target s t (by_alias t) "qty" = Some "amount_qty".
Proof.
  intros s t.
  assert (Hg : PyDict.get "quantity" (by_alias t) = Some "amount_qty")
    by (vm_compute; reflexivity).
  assert (Hne : "quantity" <> "") by discriminate.
  pose proof (alias_pass_pairs_by_alias_index
                [field "qty" "Quantity" "Integer" None]
                [field "amount_qty_" "Quantity" "Integer" None]
                "qty"
                (mkFieldInfo "qty" "Quantity" "Integer" None "qty" "quantity")
                eq_refl) as (_ & H & _).
  destruct (H eq_refl) as [H1 H2].
  destruct (H2 "amount_qty" Hne Hg) as (Hp & _).
  split; [|exact Hp].
  apply H1. split; [exact Hne|]. exists "amount_qty". exact Hg.
Defined.

(** C5, as the spec states it, fails: a source field and a target field
    whose names both normalise to the empty string are matched by
    name. *)
Lemma empty_key_is_matched :
  ~ empty_key_never_matched
      [field "_" "" "String" (Some 50%Z)] [field "_" "" "String" (Some 50%Z)].
Proof. intros H. apply H; simpl; auto. Qed.

(** C5 (amended): a source field whose normalised key is empty is
    matched exactly when the target catalogue has an entry under the
    empty key (by name), or its own alias key is not empty and the
    target's alias index holds it (by alias); and whatever its key, a
    source field whose alias key is empty is matched only by name. *)
Theorem empty_key_matching (src_fields tgt_fields : list Field) :
  let s := _list_user_fields_rich src_fields in
  let t := _list_user_fields_rich tgt_fields in
  let m := match_fields s t in
  (forall info, PyDict.get "" s = Some info ->
     (In "" (fst m)
      <-> PyDict.contains "" t = true
          \/ (fi_alias_norm info <> ""
              /\ exists tk, PyDict.get (fi_alias_norm info) (by_alias t) = Some tk)))
  /\ (forall sk info, PyDict.get sk s = Some info -> fi_alias_norm info = "" ->
        (In sk (fst m) <-> PyDict.contains sk t = true)).
Proof.
  intros s t m.
  assert (G : forall sk info, PyDict.get sk s = Some info ->
     (In sk (fst m)
      <-> PyDict.contains sk t = true
          \/ (fi_alias_norm info <> ""
              /\ exists tk, PyDict.get (fi_alias_norm info) (by_alias t) = Some tk))).
  { intros sk info Hs.
    assert (Hk : In sk (PyDict.keys s)) by (apply In_keys_get; eauto).
    pose proof (matched_src_iff s t sk Hk) as Hm. fold m in Hm. rewrite Hm.
    pose proof (alias_target_Some s (by_alias t) sk info Hs) as Ha.
    split; (intros [H|H]; [now left|right]).
    - destruct (alias_target s (by_alias t) sk) as [tk|] eqn:E; [|congruence].
      destruct (proj1 (Ha tk) eq_refl). eauto.
    - destruct H as (Hne & tk & Hg).
      assert (alias_target s (by_alias t) sk = Some tk) as -> by (apply Ha; auto).
      discriminate. }
  split; [intros info; apply G|].
  intros sk info Hs He. rewrite (G sk info Hs). split; [|now left].
  intros [H|[Hne _]]; [exact H|congruence].
Qed.

Lemma empty_key_matching_witness :
  let s := _list_user_fields_rich [field "_" "Quantity" "Integer" None] in
  let t := _list_user_fields_rich [field "amount" "Quantity" "Integer" None] in
  In "" (fst (match_fields s t)).
Proof.
  pose proof (empty_key_matching
                [field "_" "Quantity" "Integer" None]
                [field "amount" "Quantity" "Integer" None]) as [H _].
  apply (H (mkFieldInfo "_" "Quantity" "Integer" None "" "quantity") eq_refl).
  right. split; [discriminate|]. exists "amount". reflexivity.
Defined.

Lemma extras_from t lc l : forall acc x,
  (In x (fst (fold_left (extras_step t lc) l acc))
   <-> In x (fst acc)
       \/ exists tk info, In tk l /\ PyDict.get tk t = Some info
                          /\ x = fi_name info
                          /\ PyStr.mem (PyStr.lower (fi_name info)) lc = false)
  /\ (In x (snd (fold_left (extras_step t lc) l acc))
      <-> In x (snd acc)
          \/ exists tk info, In tk l /\ PyDict.get tk t = Some info
                             /\ x = fi_name info
                             /\ PyStr.mem (PyStr.lower (fi_name info)) lc = true).
Proof.
  induction l as [|y r IH]; intros acc x; simpl.
  - split; (split; [auto|intros [H|(? & ? & [] & _)]; exact H]).
  - destruct (IH (extras_step t lc acc y) x) as [IH1 IH2].
    rewrite IH1, IH2. clear IH IH1 IH2. unfold extras_step.
    destruct (PyDict.get y t) as [iy|] eqn:Ey.
    + destruct (PyStr.mem (PyStr.lower (fi_name iy)) lc) eqn:Em; simpl;
        rewrite ?in_app_iff; simpl; split; split.
      all: try (intros [H|(tk & info & H & H')]; [now left|];
                right; exists tk, info; now auto).
      all: try (intros [[H|[<-|[]]]|(tk & info & H & H')];
                [now left|right; exists y, iy; now auto
                |right; exists tk, info; now auto]).
      all: intros [H|(tk & info & [<-|H] & Hg & Hx & Hm)];
        [tauto|rewrite Ey in Hg; injection Hg as <-; subst x; try congruence; tauto
        |right; exists tk, info; now auto].
    + split; split.
      all: try (intros [H|(tk & info & H & H')]; [now left|];
                right; exists tk, info; now auto).
      all: intros [H|(tk & info & [<-|H] & Hg & Hx & Hm)];
        [now left|congruence|right; exists tk, info; now auto].
Qed.

Lemma mismatch_fold_incl s t ta x l : forall acc,
  (In x acc
   \/ exists sk tk s_info t_info,
        In sk l /\ paired_target s t ta sk = Some tk
        /\ PyDict.get sk s = Some s_info /\ PyDict.get tk t = Some t_info
        /\ In x (pair_mismatch s_info t_info)) ->
  In x (fold_left (mismatch_step s t ta) l acc).
Proof.
  induction l as [|y r IH]; intros acc H; simpl.
  - destruct H as [H|(? & ? & ? & ? & [] & _)]. exact H.
  - apply IH. destruct H as [H|(sk & tk & si & ti & [<-|Hin] & Hp & Hs & Ht & Hx)].
    + left. unfold mismatch_step.
      destruct (paired_target s t ta y) as [tk|]; [|exact H].
      destruct (PyDict.get y s), (PyDict.get tk t); try exact H.
      apply in_or_app. now left.
    + left. unfold mismatch_step. rewrite Hp, Hs, Ht.
      apply in_or_app. now right.
    + right. exists sk, tk, si, ti. auto.
Qed.

Lemma is_empty_nil {A} (l : list A) : is_empty l = true <-> l = [].
Proof. destruct l; simpl; split; congruence. Qed.

Lemma not_ok_of_mismatch src_fields tgt_fields allowed :
  type_length_mismatches (snd (_compare_fields_core src_fields tgt_fields allowed)) <> [] ->
  fst (_compare_fields_core src_fields tgt_fields allowed) = false.
Proof.
  unfold _compare_fields_core. cbn [fst snd type_length_mismatches].
  intros H. apply andb_false_intro2.
  destruct (fold_left _ _ _) in *; [congruence|reflexivity].
Qed.

Lemma not_ok_of_extra src_fields tgt_fields allowed :
  extras_not_allowed (snd (_compare_fields_core src_fields tgt_fields allowed)) <> [] ->
  fst (_compare_fields_core src_fields tgt_fields allowed) = false.
Proof.
  unfold _compare_fields_core. cbn [fst snd extras_not_allowed].
  intros H. apply andb_false_intro1, andb_false_intro2.
  destruct (fst (fold_left _ _ _)) in *; [congruence|reflexivity].
Qed.

(** C6: a target key that stays unmatched is filed under
    [extras_allowed_ignored] exactly when the lowercased name of its
    entry is among the lowercased allow-list, and under
    [extras_not_allowed] exactly when it is not, which fails the
    comparison; the test reads the entry's name, not its normalised
    key. *)
Theorem extras_classified_by_name
    (src_fields tgt_fields : list Field) (allowed : option (list string))
    (tk : string) (info : FieldInfo) :
  let s := _list_user_fields_rich src_fields in
  let t := _list_user_fields_rich tgt_fields in
  let r := _compare_fields_core src_fields tgt_fields allowed in
  let allowed_names_lc := map PyStr.lower (or_empty_set allowed) in
  PyDict.get tk t = Some info ->
  ~ In tk (snd (match_fields s t)) ->
  (In (fi_name info) (extras_allowed_ignored (snd r))
   <-> In (PyStr.lower (fi_name info)) allowed_names_lc)
  /\ (In (fi_name info) (extras_not_allowed (snd r))
      <-> ~ In (PyStr.lower (fi_name info)) allowed_names_lc)
  /\ (~ In (PyStr.lower (fi_name info)) allowed_names_lc -> fst r = false).
Proof.
  intros s t r lc Ht Hnm.
  assert (Hex : In tk (PyStr.sorted
                         (PySet.diff (PySet.of_list (PyDict.keys t))
                            (snd (match_fields s t))))).
  { rewrite In_sorted, In_diff, In_of_list. split; [|exact Hnm].
    apply In_keys_get. eauto. }
  assert (Hno : In (fi_name info) (extras_not_allowed (snd r))
                <-> ~ In (PyStr.lower (fi_name info)) lc).
  { unfold r, _compare_fields_core. cbn [snd extras_not_allowed].
    rewrite (proj1 (extras_from _ _ _ _ _)). simpl. fold s t lc.
    rewrite <- mem_false. split.
    - intros [[]|(tk' & i' & _ & _ & Hn & Hm)]. now rewrite Hn.
    - intros Hm. right. exists tk, info. auto. }
  split; [|split; [exact Hno|]].
  - unfold r, _compare_fields_core. cbn [snd extras_allowed_ignored].
    rewrite (proj2 (extras_from _ _ _ _ _)). simpl. fold s t lc.
    rewrite <- mem_In. split.
    + intros [[]|(tk' & i' & _ & _ & Hn & Hm)]. now rewrite Hn.
    + intros Hm. right. exists tk, info. auto.
  - intros Hn. apply not_ok_of_extra. apply Hno in Hn.
    fold r. now destruct (extras_not_allowed (snd r)).
Qed.

Lemma extras_classified_by_name_witness :
  let src := [field "n" "" "Integer" None] in
  let tgt := [field "n" "" "Integer" None; field "Created_Date" "" "Date" None;
              field "created_user_" "" "String" (Some 255%Z)] in
  let r := _compare_fields_core src tgt (Some ["created_date"; "created_user"]) in
  In "Created_Date" (extras_allowed_ignored (snd r))
  /\ In "created_user_" (extras_not_allowed (snd r))
  /\ _norm_name (Some "created_user_") = _norm_name (Some "created_user").
Proof.
  intros src tgt r.
  assert (Hn : forall k, k = "created_date" \/ k = "created_user" ->
                         ~ In k (snd (match_fields (_list_user_fields_rich src)
                                        (_list_user_fields_rich tgt)))).
  { intros k [-> | ->]; vm_compute; intuition discriminate. }
  pose proof (extras_classified_by_name src tgt
                (Some ["created_date"; "created_user"]) "created_date"
                (mkFieldInfo "Created_Date" "" "Date" None "created_date" "")
                eq_refl (Hn _ (or_introl eq_refl))) as (H1 & _ & _).
  pose proof (extras_classified_by_name src tgt
                (Some ["created_date"; "created_user"]) "created_user"
                (mkFieldInfo "created_user_" "" "String" (Some 255%Z)
                   "created_user" "")
                eq_refl (Hn _ (or_intror eq_refl))) as (_ & H2 & _).
  split; [|split; [|reflexivity]].
  - apply H1. vm_compute. auto.
  - apply H2. vm_compute. intuition discriminate.
Defined.

(** C7: every matched source key is checked against its partner: when
    the two types differ a line with both names and both types is
    recorded; when they agree and are String, the lengths are compared
    (an absent length counting as 0) and a difference is recorded; and
    the comparison fails as soon as any line is recorded. *)
Theorem matched_pairs_type_length_checked
    (src_fields tgt_fields : list Field) (allowed : option (list string))
    (sk : string) :
  let s := _list_user_fields_rich src_fields in
  let t := _list_user_fields_rich tgt_fields in
  let r := _compare_fields_core src_fields tgt_fields allowed in
  In sk (fst (match_fields s t)) ->
  (exists tk s_info t_info,
     paired_target s t (by_alias t) sk = Some tk
     /\ PyDict.get sk s = Some s_info /\ PyDict.get tk t = Some t_info
     /\ (fi_type s_info <> fi_type t_info ->
           In (TypeMismatch (fi_name s_info) (fi_name t_info)
                 (fi_type s_info) (fi_type t_info))
              (type_length_mismatches (snd r)))
     /\ (fi_type s_info = fi_type t_info -> fi_type s_info = "String" ->
         or_zero (fi_length s_info) <> or_zero (fi_length t_info) ->
           In (LengthMismatch (fi_name s_info) (fi_name t_info)
                 (or_zero (fi_length s_info)) (or_zero (fi_length t_info)))
              (type_length_mismatches (snd r))))
  /\ (type_length_mismatches (snd r) <> [] -> fst r = false).
Proof.
  intros s t r Hm. split; [|apply not_ok_of_mismatch].
  destruct (matched_src_paired s t sk Hm) as (tk & si & ti & Hp & Hs & Ht).
  exists tk, si, ti. repeat split; try assumption.
  - intros Hty. unfold r, _compare_fields_core. cbn [snd type_length_mismatches].
    apply mismatch_fold_incl. right. exists sk, tk, si, ti.
    repeat split; try assumption.
    unfold pair_mismatch. apply String.eqb_neq in Hty. rewrite Hty. simpl. auto.
  - intros Hty Hstr Hlen. unfold r, _compare_fields_core.
    cbn [snd type_length_mismatches].
    apply mismatch_fold_incl. right. exists sk, tk, si, ti.
    repeat split; try assumption.
    unfold pair_mismatch. rewrite <- Hty, String.eqb_refl. cbn [negb].
    rewrite Hstr. cbn [String.eqb]. cbv zeta.
    apply Z.eqb_neq in Hlen. rewrite Hlen. simpl. auto.
Qed.

Lemma matched_pairs_type_length_checked_witness :
  let r := _compare_fields_core
             [field "Name" "" "String" (Some 50%Z)]
             [field "name_" "" "String" (Some 100%Z)] None in
  In (LengthMismatch "Name" "name_" 50 100) (type_length_mismatches (snd r))
  /\ fst r = false.
Proof.
  destruct (matched_pairs_type_length_checked
              [field "Name" "" "String" (Some 50%Z)]
              [field "name_" "" "String" (Some 100%Z)] None "name")
    as [(tk & si & ti & Hp & Hs & Ht & _ & Hl) Hok].
  - simpl. auto.
  - injection Hp as <-. injection Hs as <-. injection Ht as <-.
    split; [apply Hl; [reflexivity|reflexivity|discriminate]|].
    apply Hok. discriminate.
Defined.

(* ===================================================================== *)
(** * Facts about the effect monad and the engine calls *)
(* ===================================================================== *)

Section MonadFacts.

Context {A B : Type}.

Lemma touches_ret ps (a : A) : touches ps (ret a).
Proof. intros w. simpl. auto. Qed.

Lemma touches_raise ps e : touches ps (@raise World A e).
Proof. intros w. simpl. auto. Qed.

Lemma touches_bind ps (c : M World A) (k : A -> M World B) :
  touches ps c -> (forall a, touches ps (k a)) -> touches ps (bind c k).
Proof.
  intros Hc Hk w. unfold bind. specialize (Hc w).
  destruct (c w) as [[a|e] w1]; simpl in *; [|exact Hc].
  specialize (Hk a w1). destruct (k a w1) as [r w2]; simpl in *.
  destruct Hc as (Ho & Hf & Hq), Hk as (Ho' & Hf' & Hq').
  repeat split; try congruence.
  intros q Hn. rewrite (Hq' q Hn). now apply Hq.
Qed.

Lemma touches_try_except ps (c : M World A) (h : Exn -> M World A) :
  touches ps c -> (forall e, touches ps (h e)) -> touches ps (try_except c h).
Proof.
  intros Hc Hk w. unfold try_except. specialize (Hc w).
  destruct (c w) as [[a|e] w1]; simpl in *; [exact Hc|].
  specialize (Hk e w1). destruct (h e w1) as [r w2]; simpl in *.
  destruct Hc as (Ho & Hf & Hq), Hk as (Ho' & Hf' & Hq').
  repeat split; try congruence.
  intros q Hn. rewrite (Hq' q Hn). now apply Hq.
Qed.

Lemma touches_weaken ps ps' (c : M World A) :
  (forall q, In q ps -> In q ps') -> touches ps c -> touches ps' c.
Proof.
  intros Hi Hc w. destruct (Hc w) as (Ho & Hf & Hq).
  repeat split; auto.
Qed.

Lemma touches_for_each ps (l : list A) (f : A -> M World unit) :
  (forall a, In a l -> touches ps (f a)) -> touches ps (for_each l f).
Proof.
  induction l as [|a r IH]; intros H; simpl.
  - intros w. simpl. auto.
  - intros w. unfold bind. pose proof (H a (or_introl eq_refl) w) as Ha.
    destruct (f a w) as [[[]|e] w1]; simpl in *; [|exact Ha].
    assert (IH' := IH (fun b Hb => H b (or_intror Hb)) w1).
    destruct (for_each r f w1) as [r2 w2]; simpl in *.
    destruct Ha as (Ho & Hf & Hq), IH' as (Ho' & Hf' & Hq').
    repeat split; try congruence.
    intros q Hn. rewrite (Hq' q Hn). now apply Hq.
Qed.

Lemma total_ret {S} (a : A) : total (@ret S A a).
Proof. intros s. now exists a. Qed.

Lemma total_bind {S} (c : M S A) (k : A -> M S B) :
  total c -> (forall a, total (k a)) -> total (bind c k).
Proof.
  intros Hc Hk s. unfold bind. destruct (Hc s) as [a Ha].
  destruct (c s) as [[a'|e] s1]; simpl in Ha; [|discriminate].
  apply Hk.
Qed.

Lemma total_try_except {S} (c : M S A) (h : Exn -> M S A) :
  (forall e, total (h e)) -> total (try_except c h).
Proof.
  intros Hh s. unfold try_except.
  destruct (c s) as [[a|e] s1]; [now exists a|apply Hh].
Qed.

Lemma total_for_each {S} (l : list A) (f : A -> M S unit) :
  (forall a, total (f a)) -> total (for_each l f).
Proof.
  intros Hf. induction l as [|a r IH]; simpl; [intros s; now exists tt|].
  intros s. unfold bind. destruct (Hf a s) as [[] Ha].
  destruct (f a s) as [[[]|e] s1]; simpl in Ha; [|discriminate].
  apply IH.
Qed.

End MonadFacts.

Ltac engine_unfold :=
  cbv beta iota delta [bind get_objects put_objects create_object raise ret].

Section EngineFacts.

Lemma touches_engine_call ps op : touches ps (engine_call op).
Proof.
  intros w. unfold engine_call.
  destruct (faults w (clock w) op); simpl; auto.
Qed.

Lemma touches_get_objects ps : touches ps get_objects.
Proof. intros w. simpl. auto. Qed.

Lemma touches_Exists ps p : touches ps (arcpy_Exists p).
Proof.
  apply touches_bind; [apply touches_engine_call|].
  intros _ w. simpl. auto.
Qed.

Lemma touches_Delete ps p : In p ps -> touches ps (arcpy_Delete p).
Proof.
  intros Hp. apply touches_bind; [apply touches_engine_call|].
  intros _ w. destruct (exists_at w p); simpl; auto.
  repeat split. intros q Hq. apply lookup_delete_ne. intros ->. tauto.
Qed.

Lemma touches_Describe ps p : touches ps (arcpy_Describe p).
Proof.
  apply touches_bind; [apply touches_engine_call|].
  intros _ w. engine_unfold.
  destruct (objects w !! p); simpl; auto.
Qed.

Lemma touches_create_object ps op p fc :
  In p ps -> touches ps (create_object op p fc).
Proof.
  intros Hp w. engine_unfold.
  destruct (objects w !! p); simpl; auto.
  repeat split. intros q Hq. apply lookup_insert_ne. intros ->. tauto.
Qed.

Lemma touches_MakeFeatureLayer ps src name wc :
  In name ps -> touches ps (arcpy_MakeFeatureLayer src name wc).
Proof.
  intros Hp. apply touches_bind; [apply touches_engine_call|].
  intros _ w. cbv beta iota delta [bind get_objects].
  destruct (objects w !! src); [|simpl; auto].
  now apply touches_create_object.
Qed.

Lemma touches_GetCount ps p : touches ps (arcpy_GetCount p).
Proof.
  apply touches_bind; [apply touches_engine_call|].
  intros _ w. engine_unfold.
  destruct (objects w !! p); simpl; auto.
Qed.

Variable path_join : string -> string -> string.
Variable reproject : Row -> Row.

Lemma touches_FeatureClassToFeatureClass ps src out_ws out_name wc :
  In (path_join out_ws out_name) ps ->
  touches ps (arcpy_FeatureClassToFeatureClass path_join src out_ws out_name wc).
Proof.
  intros Hp. apply touches_bind; [apply touches_engine_call|].
  intros _ w. cbv beta iota delta [bind get_objects].
  destruct (objects w !! src); [|simpl; auto].
  now apply touches_create_object.
Qed.

Lemma touches_delete_if_exists ps p :
  In p ps -> touches ps (delete_if_exists p).
Proof.
  intros Hp. apply touches_bind; [apply touches_Exists|].
  intros [|]; [now apply touches_Delete|apply touches_ret].
Qed.

Lemma touches_cleanup_one ps p :
  (forall q, p = Some q -> In q ps) -> touches ps (cleanup_one p).
Proof.
  intros Hp. apply touches_try_except; [|intros; apply touches_ret].
  destruct p as [q|]; [|apply touches_ret].
  destruct (PyStr.truthy q); [|apply touches_ret].
  apply touches_delete_if_exists. now apply Hp.
Qed.

Lemma touches_make_schema_only_source ps service_url :
  In "tmp_schema_lyr" ps -> In (path_join "in_memory" "src_schema_tmp") ps ->
  touches ps (make_schema_only_source path_join service_url).
Proof.
  intros H1 H2. unfold make_schema_only_source. cbv zeta.
  repeat first
    [ assumption
    | simple apply touches_ret
    | simple apply touches_delete_if_exists
    | simple apply touches_MakeFeatureLayer
    | simple apply touches_FeatureClassToFeatureClass
    | simple apply touches_Delete
    | simple apply @touches_bind; [|intros ?] ].
Qed.

Lemma touches_schema_compare_details ps src tgt allowed :
  touches ps (schema_compare_details src tgt allowed).
Proof.
  unfold schema_compare_details.
  repeat first
    [ simple apply touches_ret
    | simple apply touches_Describe
    | simple apply @touches_bind; [|intros ?] ].
Qed.

Lemma touches_schema_equal ps src tgt allowed :
  touches ps (schema_equal src tgt allowed).
Proof.
  unfold schema_equal.
  simple apply @touches_bind; [apply touches_schema_compare_details|].
  intros ?. apply touches_ret.
Qed.

End EngineFacts.

(* ===================================================================== *)
(** * The schema guard: C8, C10 *)
(* ===================================================================== *)

Lemma Describe_run w p fc :
  objects w !! p = Some fc -> faults w (clock w) (OpDescribe p) = false ->
  arcpy_Describe p w = (Val fc, with_clock (S (clock w)) w).
Proof.
  intros Ho Hf. unfold arcpy_Describe, bind, engine_call, get_objects.
  rewrite Hf. simpl. rewrite Ho. reflexivity.
Qed.

Lemma Describe_val w p fc w' :
  arcpy_Describe p w = (Val fc, w') -> objects w !! p = Some fc.
Proof.
  unfold arcpy_Describe, bind, engine_call, get_objects.
  destruct (faults w (clock w) (OpDescribe p)); [discriminate|]. simpl.
  destruct (objects w !! p); [|discriminate]. unfold ret. congruence.
Qed.

(** Both describes succeed: [schema_compare_details] returns the
    comparison of the two described objects. *)
Lemma schema_compare_details_run w src tgt allowed s t :
  objects w !! src = Some s -> objects w !! tgt = Some t ->
  faults w (clock w) (OpDescribe src) = false ->
  faults w (S (clock w)) (OpDescribe tgt) = false ->
  schema_compare_details src tgt allowed w
  = (Val (compare_described s t allowed), with_clock (S (S (clock w))) w).
Proof.
  intros Hs Ht Hf1 Hf2. unfold schema_compare_details.
  unfold bind at 1. rewrite (Describe_run w src s Hs Hf1).
  unfold bind at 1. rewrite (Describe_run _ tgt t); [reflexivity|exact Ht|exact Hf2].
Qed.

(** Whenever [schema_compare_details] returns, it returns the
    comparison of the objects at the two paths. *)
Lemma schema_compare_details_val w src tgt allowed d w' :
  schema_compare_details src tgt allowed w = (Val d, w') ->
  exists s t, objects w !! src = Some s /\ objects w !! tgt = Some t
              /\ d = compare_described s t allowed.
Proof.
  unfold schema_compare_details. unfold bind at 1.
  destruct (arcpy_Describe src w) as [[s|e] w1] eqn:E1; [|discriminate].
  unfold bind at 1.
  destruct (arcpy_Describe tgt w1) as [[t|e] w2] eqn:E2; [|discriminate].
  intros [= <- <-]. exists s, t.
  pose proof (touches_Describe [] src w) as (_ & _ & Hq).
  rewrite E1 in Hq. simpl in Hq.
  apply Describe_val in E1. apply Describe_val in E2.
  rewrite Hq in E2 by tauto. auto.
Qed.

Lemma schema_equal_val w src tgt allowed b w' :
  schema_equal src tgt allowed w = (Val b, w') ->
  exists s t, objects w !! src = Some s /\ objects w !! tgt = Some t
              /\ b = let d := compare_described s t allowed in
                     sr_ok d && geom_ok d && fields_ok d.
Proof.
  unfold schema_equal. unfold bind at 1.
  destruct (schema_compare_details src tgt allowed w) as [[d|e] w1] eqn:E;
    [|discriminate].
  intros [= <- <-]. apply schema_compare_details_val in E.
  destruct E as (s & t & Hs & Ht & ->). eauto.
Qed.

Lemma names_of_nil s ks :
  (forall k, In k ks -> In k (PyDict.keys s)) -> names_of s ks = [] -> ks = [].
Proof.
  destruct ks as [|k r]; [reflexivity|]. intros H. simpl.
  destruct (proj1 (In_keys_get k s) (H k (or_introl eq_refl))) as [v ->].
  discriminate.
Qed.

(** [fields_ok]: nothing missing, no extra outside the allow-list, no
    type or length mismatch. *)
Lemma fields_ok_iff src_fields tgt_fields allowed :
  let r := _compare_fields_core src_fields tgt_fields allowed in
  fst r = true
  <-> missing_in_target (snd r) = [] /\ extras_not_allowed (snd r) = []
      /\ type_length_mismatches (snd r) = [].
Proof.
  unfold _compare_fields_core.
  cbn [fst snd missing_in_target extras_not_allowed type_length_mismatches].
  rewrite !andb_true_iff, !is_empty_nil. split.
  - intros [[-> H2] H3]. auto.
  - intros (H1 & H2 & H3). repeat split; auto.
    apply names_of_nil in H1; [exact H1|].
    intros k. rewrite In_sorted, In_diff, In_of_list. tauto.
Qed.

(** C8: when both objects can be described, [schema_equal] returns,
    changes nothing, and returns [true] exactly when the target's WKID
    is 4326, the two geometry types agree up to case, and the field
    comparison reports nothing missing, no disallowed extra and no
    mismatch. *)
Theorem schema_equal_iff (w : World) (src tgt : string)
    (allowed : option (list string)) (s t : FeatureClass) :
  objects w !! src = Some s -> objects w !! tgt = Some t ->
  faults w (clock w) (OpDescribe src) = false ->
  faults w (S (clock w)) (OpDescribe tgt) = false ->
  exists b w',
    schema_equal src tgt allowed w = (Val b, w')
    /\ objects w' = objects w /\ out w' = out w
    /\ (b = true
        <-> sr_wkid t = Some 4326%Z
            /\ PyStr.lower (py_str (geom_type s)) = PyStr.lower (py_str (geom_type t))
            /\ let d := snd (_compare_fields_core (fields s) (fields t) allowed) in
               missing_in_target d = [] /\ extras_not_allowed d = []
               /\ type_length_mismatches d = []).
Proof.
  intros Hs Ht Hf1 Hf2.
  exists (let d := compare_described s t allowed in
          sr_ok d && geom_ok d && fields_ok d),
         (with_clock (S (S (clock w))) w).
  split; [|split; [reflexivity|split; [reflexivity|]]].
  - unfold schema_equal, bind.
    rewrite (schema_compare_details_run w src tgt allowed s t Hs Ht Hf1 Hf2).
    reflexivity.
  - cbv zeta. unfold compare_described.
    cbn [sr_ok geom_ok fields_ok]. unfold wkid_eq_4326.
    rewrite !andb_true_iff, String.eqb_eq, fields_ok_iff.
    destruct (sr_wkid t) as [n|].
    + rewrite Z.eqb_eq. intuition congruence.
    + intuition congruence.
Qed.

Lemma schema_equal_iff_witness :
  let fs := [field "id" "" "Integer" None; field "name" "" "String" (Some 50%Z)] in
  let s := mkFC (Some "Polygon") (Some (mkSR (Some 2932%Z))) fs [] in
  let t := mkFC (Some "POLYGON") (Some (mkSR (Some 4326%Z))) fs [] in
  let w := mkWorld (<["tgt" := t]> {["src" := s]}) [] None (fun _ _ => false) 0 [] in
  exists w', schema_equal "src" "tgt" None w = (Val true, w').
Proof.
  intros fs s t w.
  destruct (schema_equal_iff w "src" "tgt" None s t)
    as (b & w' & Hr & _ & _ & Hb); try reflexivity.
  exists w'. rewrite Hr. f_equal. f_equal. apply Hb.
  split; [reflexivity|]. split; [reflexivity|]. vm_compute. auto.
Defined.

(** C10: when neither describe object reports a geometry type, both
    are rendered as the text None and the geometry check passes. *)
Theorem geom_ok_when_both_absent (w : World) (src tgt : string)
    (allowed : option (list string)) (s t : FeatureClass) :
  objects w !! src = Some s -> objects w !! tgt = Some t ->
  faults w (clock w) (OpDescribe src) = false ->
  faults w (S (clock w)) (OpDescribe tgt) = false ->
  shapeType s = None -> shapeType t = None ->
  exists d w',
    schema_compare_details src tgt allowed w = (Val d, w')
    /\ src_geom d = "None" /\ tgt_geom d = "None" /\ geom_ok d = true.
Proof.
  intros Hs Ht Hf1 Hf2 Hgs Hgt.
  exists (compare_described s t allowed), (with_clock (S (S (clock w))) w).
  split; [now apply schema_compare_details_run|].
  unfold compare_described, geom_type. cbn [src_geom tgt_geom geom_ok].
  rewrite Hgs, Hgt. repeat split.
Qed.

Lemma geom_ok_when_both_absent_witness :
  let fs := [field "id" "" "Integer" None] in
  let s := mkFC None None fs [] in
  let t := mkFC None (Some (mkSR (Some 4326%Z))) fs [] in
  let w := mkWorld (<["tgt" := t]> {["src" := s]}) [] None (fun _ _ => false) 0 [] in
  exists d w',
    schema_compare_details "src" "tgt" None w = (Val d, w')
    /\ src_geom d = "None" /\ tgt_geom d = "None" /\ geom_ok d = true.
Proof.
  intros fs s t w.
  apply (geom_ok_when_both_absent w "src" "tgt" None s t); reflexivity.
Defined.

(* ===================================================================== *)
(** * Truncate then append: C3 *)
(* ===================================================================== *)

Lemma In_delete_all x cur : forall rows,
  In x (delete_all cur rows) ->
  In x rows /\ forall r, In r cur -> row_oid x <> row_oid r.
Proof.
  unfold delete_all. induction cur as [|c rest IH]; intros rows H; simpl in *.
  - split; [exact H|tauto].
  - apply IH in H. destruct H as [H1 H2].
    apply filter_In in H1. destruct H1 as [H1 Hne].
    apply negb_true_iff, Z.eqb_neq in Hne.
    split; [exact H1|]. intros r [<-|Hr]; auto.
Qed.

Lemma delete_all_self rows : delete_all rows rows = [].
Proof.
  destruct (delete_all rows rows) as [|x l] eqn:E; [reflexivity|].
  assert (H : In x (delete_all rows rows)) by (rewrite E; now left).
  apply In_delete_all in H. destruct H as [H1 H2].
  now destruct (H2 x H1).
Qed.

Lemma bind_val {S A B} (c : M S A) (k : A -> M S B) s a s1 :
  c s = (Val a, s1) -> bind c k s = k a s1.
Proof. intros H. unfold bind. now rewrite H. Qed.

Lemma bind_exc {S A B} (c : M S A) (k : A -> M S B) s e s1 :
  c s = (Exc e, s1) -> bind c k s = (Exc e, s1).
Proof. intros H. unfold bind. now rewrite H. Qed.

Lemma engine_call_ok w op :
  faults w (clock w) op = false ->
  engine_call op w = (Val tt, with_clock (S (clock w)) w).
Proof. intros H. unfold engine_call. now rewrite H. Qed.

Lemma engine_call_fault w op :
  faults w (clock w) op = true ->
  engine_call op w = (Exc (ExecuteError op), with_clock (S (clock w)) w).
Proof. intros H. unfold engine_call. now rewrite H. Qed.

Lemma TruncateTable_run w p fc :
  objects w !! p = Some fc -> faults w (clock w) (OpTruncateTable p) = false ->
  arcpy_TruncateTable p w
  = (Val tt, with_objects (<[p := with_rows [] fc]> (objects w))
               (with_clock (S (clock w)) w)).
Proof.
  intros Ho Hf. unfold arcpy_TruncateTable.
  rewrite (bind_val _ _ _ _ _ (engine_call_ok _ _ Hf)).
  unfold bind, get_objects. cbn [objects with_clock]. now rewrite Ho.
Qed.

Lemma Append_run w src tgt s t :
  objects w !! src = Some s -> objects w !! tgt = Some t ->
  faults w (clock w) (OpAppend src tgt) = false ->
  arcpy_Append src tgt w
  = (Val tt, with_objects (<[tgt := with_rows (fc_rows t ++ fc_rows s) t]> (objects w))
               (with_clock (S (clock w)) w)).
Proof.
  intros Hs Ht Hf. unfold arcpy_Append.
  rewrite (bind_val _ _ _ _ _ (engine_call_ok _ _ Hf)).
  unfold bind, get_objects. cbn [objects with_clock]. now rewrite Hs, Ht.
Qed.

Lemma UpdateCursor_run w p fc :
  objects w !! p = Some fc -> faults w (clock w) (OpUpdateCursor p) = false ->
  arcpy_UpdateCursor p w = (Val (fc_rows fc), with_clock (S (clock w)) w).
Proof.
  intros Ho Hf. unfold arcpy_UpdateCursor.
  rewrite (bind_val _ _ _ _ _ (engine_call_ok _ _ Hf)).
  unfold bind, get_objects. cbn [objects with_clock]. now rewrite Ho.
Qed.

Lemma deleteRow_run w p r fc :
  objects w !! p = Some fc -> faults w (clock w) (OpDeleteRow p) = false ->
  cursor_deleteRow p r w
  = (Val tt,
     with_objects
       (<[p := with_rows
                 (filter (fun r' => negb (Z.eqb (row_oid r') (row_oid r)))
                    (fc_rows fc)) fc]> (objects w))
       (with_clock (S (clock w)) w)).
Proof.
  intros Ho Hf. unfold cursor_deleteRow.
  rewrite (bind_val _ _ _ _ _ (engine_call_ok _ _ Hf)).
  unfold bind, get_objects. cbn [objects with_clock]. now rewrite Ho.
Qed.

(** The cursor loop with no fault on [deleteRow]: one call per row of
    the cursor, each removing its row from the table. *)
Lemma delete_rows_run tgt cur : forall w t0,
  objects w !! tgt = Some t0 ->
  (forall n, faults w n (OpDeleteRow tgt) = false) ->
  exists w',
    for_each cur (cursor_deleteRow tgt) w = (Val tt, w')
    /\ objects w' = <[tgt := with_rows (delete_all cur (fc_rows t0)) t0]> (objects w)
    /\ faults w' = faults w /\ out w' = out w
    /\ clock w' = (clock w + length cur)%nat.
Proof.
  induction cur as [|r rest IH]; intros w t0 Ht Hf.
  - exists w. simpl. repeat split; auto.
    rewrite insert_id; [reflexivity|]. rewrite Ht. now destruct t0.
  - cbn [for_each].
    rewrite (bind_val _ _ _ _ _ (deleteRow_run w tgt r t0 Ht (Hf _))).
    set (t1 := with_rows _ t0). set (w1 := with_objects _ _).
    destruct (IH w1 t1) as (w' & Hr & Ho & Hfa & Hout & Hc).
    + apply lookup_insert_eq.
    + exact Hf.
    + exists w'. split; [exact Hr|]. rewrite Ho, Hfa, Hout, Hc.
      repeat split; [|simpl; lia].
      subst w1. cbn [objects with_objects]. now rewrite insert_insert_eq.
Qed.

(** C3: whether the bulk truncate succeeds or raises, provided the
    fallback's cursor calls and the append do not raise,
    [truncate_then_append] returns with the target holding exactly the
    source rows and nothing printed; when the truncate raises there is
    one [deleteRow] call per old row (the clock moves by the truncate,
    the cursor call, one call per row, and the append). *)
Theorem truncate_fallback_transparent (w : World) (src_fc tgt_fc : string)
    (s t : FeatureClass) :
  objects w !! src_fc = Some s -> objects w !! tgt_fc = Some t ->
  src_fc <> tgt_fc ->
  (forall n, faults w n (OpUpdateCursor tgt_fc) = false) ->
  (forall n, faults w n (OpDeleteRow tgt_fc) = false) ->
  (forall n, faults w n (OpAppend src_fc tgt_fc) = false) ->
  exists w',
    truncate_then_append src_fc tgt_fc w = (Val tt, w')
    /\ objects w' = <[tgt_fc := with_rows (fc_rows s) t]> (objects w)
    /\ out w' = out w
    /\ clock w' = if faults w (clock w) (OpTruncateTable tgt_fc)
                  then (clock w + 3 + length (fc_rows t))%nat
                  else (clock w + 2)%nat.
Proof.
  intros Hs Ht Hne Hcur Hdel Happ.
  unfold truncate_then_append.
  destruct (faults w (clock w) (OpTruncateTable tgt_fc)) eqn:Ef.
  - (* the truncate raises: row-by-row deletion *)
    set (w1 := with_clock (S (clock w)) w).
    assert (E1 : arcpy_TruncateTable tgt_fc w
                 = (Exc (ExecuteError (OpTruncateTable tgt_fc)), w1)).
    { unfold arcpy_TruncateTable.
      now rewrite (bind_exc _ _ _ _ _ (engine_call_fault _ _ Ef)). }
    destruct (delete_rows_run tgt_fc (fc_rows t) (with_clock (S (clock w1)) w1) t
                Ht Hdel) as (w2 & Hr & Ho & Hfa & Hout & Hc).
    assert (E2 : try_except (arcpy_TruncateTable tgt_fc)
                   (fun _ => delete_rows_by_cursor tgt_fc) w = (Val tt, w2)).
    { unfold try_except. rewrite E1. unfold delete_rows_by_cursor.
      rewrite (bind_val _ _ _ _ _ (UpdateCursor_run w1 tgt_fc t Ht (Hcur _))).
      exact Hr. }
    rewrite (bind_val _ _ _ _ _ E2).
    rewrite delete_all_self in Ho.
    rewrite (Append_run w2 src_fc tgt_fc s (with_rows [] t)).
    + eexists. split; [reflexivity|].
      cbn [objects out clock with_objects with_clock].
      rewrite Ho, insert_insert_eq, Hout, Hc. repeat split. simpl. lia.
    + rewrite Ho, lookup_insert_ne by congruence. exact Hs.
    + rewrite Ho. apply lookup_insert_eq.
    + rewrite Hfa. apply Happ.
  - (* the truncate succeeds *)
    assert (E2 : try_except (arcpy_TruncateTable tgt_fc)
                   (fun _ => delete_rows_by_cursor tgt_fc) w
                 = (Val tt, with_objects (<[tgt_fc := with_rows [] t]> (objects w))
                              (with_clock (S (clock w)) w))).
    { unfold try_except. now rewrite (TruncateTable_run w tgt_fc t Ht Ef). }
    rewrite (bind_val _ _ _ _ _ E2).
    rewrite (Append_run _ src_fc tgt_fc s (with_rows [] t)).
    + eexists. split; [reflexivity|].
      cbn [objects out clock with_objects with_clock].
      rewrite insert_insert_eq. repeat split. lia.
    + cbn [objects with_objects]. rewrite lookup_insert_ne by congruence. exact Hs.
    + cbn [objects with_objects]. apply lookup_insert_eq.
    + apply Happ.
Qed.

Lemma truncate_fallback_transparent_witness :
  let s := mkFC (Some "Point") (Some (mkSR (Some 4326%Z))) []
             [mkRow 1 "p1" ["a"]; mkRow 2 "p2" ["b"]] in
  let t := mkFC (Some "Point") (Some (mkSR (Some 4326%Z))) []
             [mkRow 7 "p7" ["x"]; mkRow 8 "p8" ["y"]; mkRow 9 "p9" ["z"]] in
  let locked := fun (_ : nat) (op : Op) =>
                  match op with OpTruncateTable _ => true | _ => false end in
  let w := mkWorld (<["tgt" := t]> {["src" := s]}) [] None locked 0 [] in
  exists w',
    truncate_then_append "src" "tgt" w = (Val tt, w')
    /\ objects w' !! "tgt" = Some (with_rows (fc_rows s) t)
    /\ clock w' = 6%nat.
Proof.
  intros s t locked w.
  destruct (truncate_fallback_transparent w "src" "tgt" s t)
    as (w' & Hr & Ho & _ & Hc); try reflexivity; try discriminate.
  exists w'. split; [exact Hr|]. split.
  - rewrite Ho. apply lookup_insert_eq.
  - exact Hc.
Defined.

(* ===================================================================== *)
(** * One pair never aborts the batch: C9 *)
(* ===================================================================== *)

Section Stability.

Context {S : Type} (proj : S -> World).

Lemma stable_ret {A} (a : A) : stable proj (ret a).
Proof. intros s. split; [reflexivity|]. exists []. now rewrite app_nil_r. Qed.

Lemma stable_raise {A} e : stable proj (@raise S A e).
Proof. intros s. split; [reflexivity|]. exists []. now rewrite app_nil_r. Qed.

Lemma stable_seq (s0 s1 s2 : S) :
  (faults (proj s1) = faults (proj s0)
   /\ exists l, out (proj s1) = out (proj s0) ++ l /\ printed_sources l = []) ->
  (faults (proj s2) = faults (proj s1)
   /\ exists l, out (proj s2) = out (proj s1) ++ l /\ printed_sources l = []) ->
  faults (proj s2) = faults (proj s0)
  /\ exists l, out (proj s2) = out (proj s0) ++ l /\ printed_sources l = [].
Proof.
  intros (F1 & l1 & O1 & P1) (F2 & l2 & O2 & P2).
  split; [congruence|]. exists (l1 ++ l2).
  rewrite O2, O1, app_assoc. split; [reflexivity|].
  unfold printed_sources in *. now rewrite flat_map_app, P1, P2.
Qed.

Lemma stable_bind {A B} (c : M S A) (k : A -> M S B) :
  stable proj c -> (forall a, stable proj (k a)) -> stable proj (bind c k).
Proof.
  intros Hc Hk s. unfold bind. specialize (Hc s).
  destruct (c s) as [[a|e] s1]; simpl in *; [|exact Hc].
  eapply stable_seq; [exact Hc|apply Hk].
Qed.

Lemma stable_try_except {A} (c : M S A) (h : Exn -> M S A) :
  stable proj c -> (forall e, stable proj (h e)) -> stable proj (try_except c h).
Proof.
  intros Hc Hk s. unfold try_except. specialize (Hc s).
  destruct (c s) as [[a|e] s1]; simpl in *; [exact Hc|].
  eapply stable_seq; [exact Hc|apply Hk].
Qed.

Lemma stable_try_finally {A} (c : M S A) (fin : M S unit) :
  stable proj c -> stable proj fin -> stable proj (try_finally c fin).
Proof.
  intros Hc Hf s. unfold try_finally. specialize (Hc s).
  destruct (c s) as [r s1]; simpl in *. specialize (Hf s1).
  destruct (fin s1) as [[[]|e] s2]; simpl in *;
    (eapply stable_seq; [exact Hc|exact Hf]).
Qed.

Lemma stable_for_each {A} (l : list A) (f : A -> M S unit) :
  (forall a, stable proj (f a)) -> stable proj (for_each l f).
Proof.
  intros Hf. induction l as [|a r IH]; simpl; [apply stable_ret|].
  apply stable_bind; [apply Hf|intros _; exact IH].
Qed.

End Stability.

Section EngineStability.

Lemma stable_lift {A} (c : M World A) :
  stable (fun w => w) c -> stable fr_world (lift c).
Proof.
  intros Hc fr. unfold lift. specialize (Hc (fr_world fr)).
  destruct (c (fr_world fr)) as [r w1]. exact Hc.
Qed.

Lemma stable_local {A} (c : M Frame A) :
  (forall fr, fr_world (snd (c fr)) = fr_world fr) -> stable fr_world c.
Proof.
  intros H fr. rewrite H. split; [reflexivity|].
  exists []. now rewrite app_nil_r.
Qed.

Lemma stable_print e :
  printed_sources [e] = [] -> stable (fun w => w) (print e).
Proof. intros H w. simpl. split; [reflexivity|]. now exists [e]. Qed.

(** A computation that neither prints nor touches the schedule. *)
Lemma stable_silent {A} (c : M World A) :
  (forall w, out (snd (c w)) = out w /\ faults (snd (c w)) = faults w) ->
  stable (fun w => w) c.
Proof.
  intros H w. destruct (H w) as [Ho Hf]. split; [exact Hf|].
  exists []. now rewrite app_nil_r.
Qed.

Lemma stable_touches {A} ps (c : M World A) :
  touches ps c -> stable (fun w => w) c.
Proof.
  intros H. apply stable_silent. intros w. destruct (H w) as (? & ? & _). auto.
Qed.

Ltac silent_op :=
  apply stable_silent; intros w;
  cbv beta iota zeta delta
    [arcpy_TruncateTable arcpy_Append arcpy_UpdateCursor cursor_deleteRow
     arcpy_ListFeatureClasses arcpy_Project
     bind engine_call get_objects put_objects create_object raise ret];
  repeat match goal with
         | |- context [if ?b then _ else _] => destruct b
         | |- context [match ?x !! ?k with _ => _ end] => destruct (x !! k)
         end;
  split; reflexivity.

Lemma stable_TruncateTable p : stable (fun w => w) (arcpy_TruncateTable p).
Proof. silent_op. Qed.

Lemma stable_Append src tgt : stable (fun w => w) (arcpy_Append src tgt).
Proof. silent_op. Qed.

Lemma stable_UpdateCursor p : stable (fun w => w) (arcpy_UpdateCursor p).
Proof. silent_op. Qed.

Lemma stable_deleteRow p r : stable (fun w => w) (cursor_deleteRow p r).
Proof. silent_op. Qed.

Lemma stable_ListFeatureClasses : stable (fun w => w) arcpy_ListFeatureClasses.
Proof. silent_op. Qed.

Variable path_join : string -> string -> string.
Variable reproject : Row -> Row.
Variable script_dir : string.
Variable ALLOWED_EXTRA : list string.

Lemma stable_Project src out_path :
  stable (fun w => w) (arcpy_Project reproject src out_path).
Proof. silent_op. Qed.

Lemma stable_Exists p : stable (fun w => w) (arcpy_Exists p).
Proof. apply (stable_touches []), touches_Exists. Qed.

Lemma stable_Describe p : stable (fun w => w) (arcpy_Describe p).
Proof. apply (stable_touches []), touches_Describe. Qed.

Lemma stable_GetCount p : stable (fun w => w) (arcpy_GetCount p).
Proof. apply (stable_touches []), touches_GetCount. Qed.

Lemma stable_Delete p : stable (fun w => w) (arcpy_Delete p).
Proof. apply (stable_touches [p]), touches_Delete. now left. Qed.

Lemma stable_delete_if_exists p : stable (fun w => w) (delete_if_exists p).
Proof. apply (stable_touches [p]), touches_delete_if_exists. now left. Qed.

Lemma stable_schema_compare_details src tgt allowed :
  stable (fun w => w) (schema_compare_details src tgt allowed).
Proof. apply (stable_touches []), touches_schema_compare_details. Qed.

Lemma stable_schema_equal src tgt allowed :
  stable (fun w => w) (schema_equal src tgt allowed).
Proof. apply (stable_touches []), touches_schema_equal. Qed.

Lemma stable_FeatureClassToFeatureClass src out_ws out_name wc :
  stable (fun w => w)
    (arcpy_FeatureClassToFeatureClass path_join src out_ws out_name wc).
Proof.
  apply (stable_touches [path_join out_ws out_name]),
    touches_FeatureClassToFeatureClass. now left.
Qed.

Lemma stable_make_schema_only_source url :
  stable (fun w => w) (make_schema_only_source path_join url).
Proof.
  apply (stable_touches ["tmp_schema_lyr"; path_join "in_memory" "src_schema_tmp"]),
    touches_make_schema_only_source; simpl; auto.
Qed.

Ltac stable_world :=
  cbv zeta;
  repeat first
    [ simple apply @stable_ret
    | simple apply @stable_raise
    | simple apply stable_TruncateTable
    | simple apply stable_Append
    | simple apply stable_UpdateCursor
    | simple apply stable_deleteRow
    | simple apply stable_Project
    | simple apply stable_ListFeatureClasses
    | simple apply stable_Exists
    | simple apply stable_Describe
    | simple apply stable_GetCount
    | simple apply stable_Delete
    | simple apply stable_delete_if_exists
    | simple apply stable_schema_compare_details
    | simple apply stable_schema_equal
    | simple apply stable_FeatureClassToFeatureClass
    | simple apply stable_make_schema_only_source
    | simple apply stable_print; reflexivity
    | simple apply @stable_for_each; intros ?
    | simple apply @stable_try_except; [|intros ?]
    | simple apply @stable_bind; [|intros ?]
    | match goal with
      | |- stable _ (if ?b then _ else _) => destruct b
      | |- stable _ (match ?x with Some _ => _ | None => _ end) => destruct x
      end ].

Lemma stable_export_rows url :
  stable (fun w => w) (export_rows path_join url).
Proof. unfold export_rows, GLOBAL_WHERE. stable_world. Qed.

Lemma stable_project_to_wgs p :
  stable (fun w => w) (project_to_wgs path_join reproject p).
Proof.
  unfold project_to_wgs.
  stable_world.
Qed.

Lemma stable_create_new_table_with_rows cw name rows :
  stable (fun w => w) (create_new_table_with_rows path_join cw name rows).
Proof. unfold create_new_table_with_rows. stable_world. Qed.

Lemma stable_truncate_then_append src tgt :
  stable (fun w => w) (truncate_then_append src tgt).
Proof. unfold truncate_then_append, delete_rows_by_cursor. stable_world. Qed.

Ltac stable_frame :=
  cbv zeta;
  repeat first
    [ simple apply @stable_ret
    | simple apply @stable_local; reflexivity
    | simple apply @stable_lift;
      first [ simple apply stable_export_rows
            | simple apply stable_project_to_wgs
            | simple apply stable_create_new_table_with_rows
            | simple apply stable_truncate_then_append
            | stable_world ]
    | simple apply @stable_bind; [|intros ?]
    | match goal with
      | |- stable _ (if ?b then _ else _) => destruct b
      end ].

Lemma stable_process_pair_try url cw bn bp :
  stable fr_world (process_pair_try path_join reproject ALLOWED_EXTRA url cw bn bp).
Proof. unfold process_pair_try. stable_frame. Qed.

Lemma stable_process_pair_except e : stable fr_world (process_pair_except e).
Proof. unfold process_pair_except. stable_frame. Qed.

Lemma touches_cleanup (l : list (option string)) ps :
  (forall q, In (Some q) l -> In q ps) ->
  touches ps (for_each l (cleanup_one)).
Proof.
  intros H. apply touches_for_each. intros p Hp.
  apply touches_cleanup_one. intros q ->. now apply H.
Qed.

Lemma stable_process_pair_finally : stable fr_world (process_pair_finally path_join).
Proof.
  unfold process_pair_finally.
  apply stable_bind; [apply stable_local; reflexivity|]. intros fr.
  apply stable_lift. apply stable_for_each. intros p.
  apply (stable_touches (match p with Some q => [q] | None => [] end)).
  apply touches_cleanup_one. intros q ->. now left.
Qed.

(** [process_pair], from the frame it enters its [try] block with. *)
Lemma process_pair_unfold url tgt sde_ws w :
  process_pair path_join reproject ALLOWED_EXTRA url tgt sde_ws w
  = let '(cw, bn, bp) := split_target path_join sde_ws tgt in
    let (r, fr) :=
      try_finally
        (try_except
           (process_pair_try path_join reproject ALLOWED_EXTRA url cw bn bp)
           process_pair_except)
        (process_pair_finally path_join) (pair_start w url bp) in
    (r, fr_world fr).
Proof.
  unfold process_pair. destruct (split_target path_join sde_ws tgt) as [[cw bn] bp].
  unfold bind, print, pair_start. cbn [out with_out].
  now rewrite <- !app_assoc.
Qed.

Lemma total_cleanup_one p : total (cleanup_one p).
Proof. apply total_try_except. intros _. apply total_ret. Qed.

Lemma process_pair_finally_run fr :
  exists fr', process_pair_finally path_join fr = (Val tt, fr')
              /\ out (fr_world fr') = out (fr_world fr).
Proof.
  unfold process_pair_finally, bind, get_frame, lift.
  set (l := [src_schema fr; _; _; _; _; _]).
  destruct (total_for_each l cleanup_one total_cleanup_one (fr_world fr)) as [[] Hv].
  pose proof (touches_cleanup l (flat_map (fun p => match p with
                                                    | Some q => [q]
                                                    | None => []
                                                    end) l)) as Ht.
  destruct (Ht ltac:(intros q Hq; apply in_flat_map; exists (Some q);
                     split; [exact Hq|now left]) (fr_world fr)) as (Ho & _).
  destruct (for_each l cleanup_one (fr_world fr)) as [r w1].
  simpl in Hv, Ho. subst r. eexists. split; [reflexivity|exact Ho].
Qed.

(** [process_pair] always returns; when its [try] block raised, the
    failure and the engine messages are the last lines printed. *)
Lemma process_pair_returns url tgt sde_ws w :
  exists w',
    process_pair path_join reproject ALLOWED_EXTRA url tgt sde_ws w = (Val tt, w')
    /\ forall cw bn bp e fr,
         split_target path_join sde_ws tgt = (cw, bn, bp) ->
         process_pair_try path_join reproject ALLOWED_EXTRA url cw bn bp
           (pair_start w url bp) = (Exc e, fr) ->
         out w' = out (fr_world fr) ++ [PrintFailed e; PrintMessages].
Proof.
  rewrite process_pair_unfold.
  destruct (split_target path_join sde_ws tgt) as [[cw bn] bp].
  unfold try_finally, try_except.
  destruct (process_pair_try _ _ _ url cw bn bp (pair_start w url bp))
    as [[[]|e] fr] eqn:Et.
  - destruct (process_pair_finally_run fr) as (fr' & -> & _).
    eexists. split; [reflexivity|].
    intros ? ? ? ? ? [= <- <- <-]. rewrite Et. discriminate.
  - unfold process_pair_except, bind, lift, print. cbn [fr_world].
    match goal with
    | |- context [process_pair_finally path_join ?f] =>
        destruct (process_pair_finally_run f) as (fr' & -> & Ho)
    end.
    eexists. split; [reflexivity|].
    intros ? ? ? ? ? [= <- <- <-]. rewrite Et. intros [= <- <-].
    rewrite Ho. cbn [fr_world out with_out]. now rewrite <- app_assoc.
Qed.

(** What [process_pair] prints names its own source once, and the
    schedule is as before. *)
Lemma process_pair_out url tgt sde_ws w :
  faults (snd (process_pair path_join reproject ALLOWED_EXTRA url tgt sde_ws w))
  = faults w
  /\ printed_sources
       (out (snd (process_pair path_join reproject ALLOWED_EXTRA url tgt sde_ws w)))
     = printed_sources (out w) ++ [url].
Proof.
  rewrite process_pair_unfold.
  destruct (split_target path_join sde_ws tgt) as [[cw bn] bp].
  pose proof (stable_try_finally fr_world _ _
                (stable_try_except fr_world _ _
                   (stable_process_pair_try url cw bn bp)
                   stable_process_pair_except)
                stable_process_pair_finally (pair_start w url bp))
    as (Hf & l & Ho & Hl).
  destruct (try_finally _ _ (pair_start w url bp)) as [r fr].
  cbn [snd] in *. split; [exact Hf|].
  rewrite Ho. unfold pair_start. cbn [fr_world out with_out].
  unfold printed_sources in *. rewrite !flat_map_app, Hl. simpl.
  now rewrite app_nil_r.
Qed.

Lemma exists_at_false w p :
  exists_at w p = false
  <-> objects w !! p = None /\ PyStr.mem p (workspaces w) = false.
Proof.
  unfold exists_at. rewrite orb_false_iff, bool_decide_eq_false.
  rewrite <- eq_None_not_Some. tauto.
Qed.

Lemma Delete_keeps_absent w p q :
  exists_at w p = false -> exists_at (snd (arcpy_Delete q w)) p = false.
Proof.
  intros H. unfold arcpy_Delete, bind, engine_call.
  destruct (faults w (clock w) (OpDelete q)); [exact H|].
  match goal with |- context [if ?b then _ else _] => destruct b end;
    [|exact H].
  apply exists_at_false in H. destruct H as [Ho Hw].
  apply exists_at_false. cbn [snd objects workspaces with_workspaces
                                with_objects with_clock]. split.
  - destruct (decide (q = p)) as [->|Hne];
      [apply lookup_delete_eq|now rewrite lookup_delete_ne].
  - apply mem_false. intros Hin. apply filter_In in Hin.
    apply mem_false in Hw. tauto.
Qed.

Lemma delete_if_exists_keeps_absent w p q :
  exists_at w p = false -> exists_at (snd (delete_if_exists q w)) p = false.
Proof.
  intros H. unfold delete_if_exists, bind at 1, arcpy_Exists, bind, engine_call.
  destruct (faults w (clock w) (OpExists q)); [exact H|].
  cbn [fst snd].
  match goal with |- context [if ?b then _ else _] => destruct b end;
    [|exact H].
  now apply Delete_keeps_absent.
Qed.

Lemma cleanup_one_keeps_absent w p q :
  exists_at w p = false -> exists_at (snd (cleanup_one q w)) p = false.
Proof.
  intros H. unfold cleanup_one, try_except.
  destruct q as [q|]; [|exact H].
  destruct (PyStr.truthy q); [|exact H].
  pose proof (delete_if_exists_keeps_absent w p q H) as Hk.
  destruct (delete_if_exists q w) as [[[]|e] w1]; exact Hk.
Qed.

Lemma delete_if_exists_removes w p :
  (forall n, faults w n (OpExists p) = false) ->
  (forall n, faults w n (OpDelete p) = false) ->
  exists_at (snd (delete_if_exists p w)) p = false.
Proof.
  intros He Hd. unfold delete_if_exists, bind at 1, arcpy_Exists, bind, engine_call.
  rewrite He. cbn [fst snd].
  change (exists_at (with_clock (S (clock w)) w) p) with (exists_at w p).
  destruct (exists_at w p) eqn:Ex; [|exact Ex].
  unfold arcpy_Delete, bind, engine_call. cbn [faults with_clock clock].
  rewrite Hd.
  change (exists_at (with_clock (S (S (clock w))) (with_clock (S (clock w)) w)) p)
    with (exists_at w p).
  rewrite Ex. apply exists_at_false.
  cbn [snd objects workspaces with_workspaces with_objects with_clock]. split.
  - apply lookup_delete_eq.
  - apply mem_false. intros Hin. apply filter_In in Hin.
    destruct Hin as [_ Hin]. now rewrite String.eqb_refl in Hin.
Qed.

Lemma cleanup_one_removes w p :
  p <> "" ->
  (forall n, faults w n (OpExists p) = false) ->
  (forall n, faults w n (OpDelete p) = false) ->
  exists_at (snd (cleanup_one (Some p) w)) p = false.
Proof.
  intros Hne He Hd. unfold cleanup_one, try_except.
  apply truthy_iff in Hne. rewrite Hne.
  pose proof (delete_if_exists_removes w p He Hd) as Hk.
  destruct (delete_if_exists p w) as [[[]|e] w1]; exact Hk.
Qed.

Lemma cleanup_all_removes l p : forall w,
  p <> "" ->
  (forall n, faults w n (OpExists p) = false) ->
  (forall n, faults w n (OpDelete p) = false) ->
  exists_at w p = false \/ In (Some p) l ->
  exists_at (snd (for_each l cleanup_one w)) p = false.
Proof.
  induction l as [|q r IH]; intros w Hne He Hd H.
  - destruct H as [H|[]]. exact H.
  - cbn [for_each]. unfold bind.
    destruct (total_cleanup_one q w) as [[] Hv].
    pose proof (touches_cleanup_one (match q with Some x => [x] | None => [] end) q
                  ltac:(intros x ->; now left) w) as (_ & Hf & _).
    pose proof (cleanup_one_keeps_absent w p q) as Hk.
    pose proof (cleanup_one_removes w p Hne He Hd) as Hr.
    destruct (cleanup_one q w) as [res w1] eqn:Ec.
    cbn [fst snd] in *. subst res.
    apply IH; try assumption; try (intros n; rewrite Hf; auto).
    destruct H as [H|[->|H]]; [left; auto|left|now right].
    rewrite Ec in Hr. exact Hr.
Qed.

(** After [process_pair], a scratch path on which [Exists] and
    [Delete] do not raise holds nothing. *)
Lemma process_pair_cleans url tgt sde_ws w p :
  In p (scratch_paths path_join) -> p <> "" ->
  (forall n, faults w n (OpExists p) = false) ->
  (forall n, faults w n (OpDelete p) = false) ->
  exists_at (snd (process_pair path_join reproject ALLOWED_EXTRA url tgt sde_ws w)) p
  = false.
Proof.
  intros Hin Hne He Hd. rewrite process_pair_unfold.
  destruct (split_target path_join sde_ws tgt) as [[cw bn] bp].
  unfold try_finally.
  pose proof (stable_try_except fr_world _ _
                (stable_process_pair_try url cw bn bp)
                stable_process_pair_except (pair_start w url bp)) as (Hf & _).
  destruct (try_except _ _ (pair_start w url bp)) as [r fr].
  cbn [snd] in Hf. change (faults (fr_world (pair_start w url bp)))
    with (faults w) in Hf.
  unfold process_pair_finally, bind, get_frame, lift.
  set (l := [src_schema fr; _; _; _; _; _]).
  pose proof (cleanup_all_removes l p (fr_world fr) Hne) as Hc.
  destruct (total_for_each l cleanup_one total_cleanup_one (fr_world fr)) as [[] Hv].
  destruct (for_each l cleanup_one (fr_world fr)) as [r1 w1].
  cbn [fst snd] in *. subst r1. cbn [snd fr_world].
  apply Hc; try (intros n; rewrite Hf; auto).
  right. subst l. unfold scratch_paths in Hin. simpl in Hin. simpl.
  intuition (subst; auto).
Qed.

(** The batch loop runs every configured pair, in order. *)
Lemma batch_runs sde_ws mapping : forall w,
  exists w',
    for_each mapping
      (fun kv : string * string =>
         process_pair path_join reproject ALLOWED_EXTRA (fst kv) (snd kv) sde_ws) w
    = (Val tt, w')
    /\ printed_sources (out w') = printed_sources (out w) ++ map fst mapping.
Proof.
  induction mapping as [|[url tgt] r IH]; intros w.
  - exists w. simpl. now rewrite app_nil_r.
  - cbn [for_each fst snd].
    destruct (process_pair_returns url tgt sde_ws w) as (w1 & Hr & _).
    pose proof (process_pair_out url tgt sde_ws w) as [_ Ho].
    rewrite Hr in Ho. cbn [snd] in Ho.
    rewrite (bind_val _ _ _ _ _ Hr).
    destruct (IH w1) as (w' & Hr' & Ho').
    exists w'. split; [exact Hr'|].
    rewrite Ho', Ho, <- app_assoc. reflexivity.
Qed.

(** C9: whatever the engine raises and whenever, [process_pair]
    returns normally; if its [try] block raised, the failure and the
    engine messages are printed last; its cleanup leaves nothing at a
    scratch path whose [Exists] and [Delete] calls do not raise; so
    the batch loop runs every configured pair in order, and [main],
    once its configuration and workspace are loaded, does too. *)
Theorem pair_failure_contained (sde_ws : string) (w : World) :
  (forall url tgt,
     exists w',
       process_pair path_join reproject ALLOWED_EXTRA url tgt sde_ws w = (Val tt, w')
       /\ (forall cw bn bp e fr,
             split_target path_join sde_ws tgt = (cw, bn, bp) ->
             process_pair_try path_join reproject ALLOWED_EXTRA url cw bn bp
               (pair_start w url bp) = (Exc e, fr) ->
             out w' = out (fr_world fr) ++ [PrintFailed e; PrintMessages])
       /\ (forall p,
             In p (scratch_paths path_join) -> p <> "" ->
             (forall n, faults w n (OpExists p) = false) ->
             (forall n, faults w n (OpDelete p) = false) ->
             exists_at w' p = false))
  /\ (forall mapping,
        exists w',
          for_each mapping
            (fun kv : string * string =>
               process_pair path_join reproject ALLOWED_EXTRA
                 (fst kv) (snd kv) sde_ws) w
          = (Val tt, w')
          /\ printed_sources (out w') = printed_sources (out w) ++ map fst mapping)
  /\ (forall conf mapping w0 sde w1,
        load_conf conf w = (Val mapping, w0) ->
        open_sde path_join script_dir SDE_FILENAME w0 = (Val sde, w1) ->
        exists w',
          main path_join reproject script_dir ALLOWED_EXTRA conf w = (Val tt, w')
          /\ printed_sources (out w')
             = printed_sources (out w1) ++ map fst mapping).
Proof.
  split; [|split].
  - intros url tgt.
    destruct (process_pair_returns url tgt sde_ws w) as (w' & Hr & Hrep).
    exists w'. split; [exact Hr|]. split; [exact Hrep|].
    intros p Hin Hne He Hd.
    pose proof (process_pair_cleans url tgt sde_ws w p Hin Hne He Hd) as Hc.
    now rewrite Hr in Hc.
  - intros mapping. apply batch_runs.
  - intros conf mapping w0 sde w1 Hl Ho. unfold main.
    rewrite (bind_val _ _ _ _ _ Hl), (bind_val _ _ _ _ _ Ho).
    unfold bind at 1, print.
    match goal with
    | |- context [for_each mapping ?f ?w2] =>
        destruct (batch_runs sde mapping w2) as (w' & Hr & Hp)
    end.
    exists w'. split; [exact Hr|]. rewrite Hp. cbn [out with_out].
    unfold printed_sources. rewrite flat_map_app. simpl. now rewrite app_nil_r.
Qed.

End EngineStability.

Lemma pair_failure_contained_witness :
  let w := ex_world ex_target ex_append_fails in
  (exists w',
     main ex_join (fun r => r) "C:\scripts" ALLOWED_EXTRA_IN_TARGET
       (Some [("url1", "A"); ("url2", "B")]) w = (Val tt, w')
     /\ printed_sources (out w') = ["url1"; "url2"])
  /\ (exists w' e,
        process_pair ex_join (fun r => r) ALLOWED_EXTRA_IN_TARGET "url1" "A" ex_sde w
        = (Val tt, w')
        /\ In (PrintFailed e) (out w')
        /\ exists_at w' (ex_join "in_memory" "src_rows") = false).
Proof.
  intros w.
  destruct (pair_failure_contained ex_join (fun r => r) "C:\scripts"
              ALLOWED_EXTRA_IN_TARGET ex_sde w) as (Hpair & _ & Hmain).
  split.
  - destruct (Hmain (Some [("url1", "A"); ("url2", "B")])
                [("url1", "A"); ("url2", "B")] w ex_sde
                (with_clock 2 (with_env_workspace ex_sde w)))
      as (w' & Hr & Hp); [reflexivity|vm_compute; reflexivity|].
    exists w'. split; [exact Hr|exact Hp].
  - destruct (Hpair "url1" "A") as (w' & Hr & Hrep & Hclean).
    destruct (process_pair_try ex_join (fun r => r) ALLOWED_EXTRA_IN_TARGET
                "url1" ex_sde "A" (ex_join ex_sde "A")
                (pair_start w "url1" (ex_join ex_sde "A")))
      as [[[]|e] fr] eqn:Et; [vm_compute in Et; discriminate Et|].
    exists w', e. split; [exact Hr|]. split.
    + rewrite (Hrep ex_sde "A" (ex_join ex_sde "A") e fr); [|reflexivity|exact Et].
      apply in_or_app. right. now left.
    + apply Hclean; [simpl; auto|discriminate|intros n; reflexivity
                    |intros n; reflexivity].
Defined.

(* ===================================================================== *)
(** * A schema mismatch writes nothing: C1 *)
(* ===================================================================== *)

Section EngineSpecs.

Lemma faulted_eq w w' : faults w' = faults w -> faulted w' -> faulted w.
Proof. intros H (n & op & Hf). exists n, op. now rewrite <- H. Qed.

Lemma exists_at_Some w p fc : objects w !! p = Some fc -> exists_at w p = true.
Proof. intros H. unfold exists_at. rewrite H. reflexivity. Qed.

Lemma engine_call_spec w op r w1 :
  engine_call op w = (r, w1) ->
  w1 = with_clock (S (clock w)) w
  /\ match r with
     | Val _ => True
     | Exc _ => faulted w
     end.
Proof.
  unfold engine_call.
  destruct (faults w (clock w) op) eqn:E; intros [= <- <-]; split; auto.
  now exists (clock w), op.
Qed.

(** Splitting a call into the engine's fault check and what follows. *)
Lemma after_engine_call {A} op (k : M World A) w r w1 :
  (engine_call op;; k) w = (r, w1) ->
  (exists e, r = Exc e /\ faulted w)
  \/ k (with_clock (S (clock w)) w) = (r, w1).
Proof.
  unfold bind, engine_call.
  destruct (faults w (clock w) op) eqn:E.
  - intros [= <- <-]. left. eexists. split; [reflexivity|].
    now exists (clock w), op.
  - now right.
Qed.

Lemma Exists_spec w p r w1 :
  arcpy_Exists p w = (r, w1) ->
  match r with
  | Val b => b = exists_at w p
  | Exc _ => faulted w
  end.
Proof.
  intros H. apply after_engine_call in H.
  destruct H as [(e & -> & H)|H]; [exact H|].
  now injection H as <- <-.
Qed.

Lemma Delete_spec w p r w1 :
  exists_at w p = true ->
  arcpy_Delete p w = (r, w1) ->
  match r with
  | Val _ => objects w1 !! p = None
  | Exc _ => faulted w
  end.
Proof.
  intros Hex H. apply after_engine_call in H.
  destruct H as [(e & -> & H)|H]; [exact H|].
  change (exists_at (with_clock (S (clock w)) w) p) with (exists_at w p) in H.
  rewrite Hex in H. injection H as <- <-.
  cbn [objects with_workspaces with_objects]. apply lookup_delete_eq.
Qed.

Lemma delete_if_exists_spec w p r w1 :
  delete_if_exists p w = (r, w1) ->
  match r with
  | Val _ => objects w1 !! p = None
  | Exc _ => faulted w
  end.
Proof.
  unfold delete_if_exists. unfold bind at 1.
  destruct (arcpy_Exists p w) as [[b|e] w0] eqn:E.
  - pose proof (Exists_spec _ _ _ _ E) as ->.
    pose proof (touches_Exists [] p w) as (_ & Hf & Hq).
    rewrite E in Hf, Hq. cbn [snd] in Hf, Hq.
    destruct (exists_at w p) eqn:Ex.
    + intros H. apply Delete_spec in H.
      * destruct r; [exact H|now apply (faulted_eq w w0)].
      * apply after_engine_call in E.
        destruct E as [(e & [=] & _)|E]. injection E as _ <-. exact Ex.
    + intros [= <- <-]. rewrite Hq by tauto. now apply exists_at_false in Ex.
  - intros [= <- <-]. exact (Exists_spec _ _ _ _ E).
Qed.

Lemma create_object_run w op p fc :
  objects w !! p = None ->
  create_object op p fc w = (Val tt, with_objects (<[p := fc]> (objects w)) w).
Proof. intros H. unfold create_object, bind, get_objects. now rewrite H. Qed.

Lemma MakeFeatureLayer_spec w src name wc fc r w1 :
  objects w !! src = Some fc -> objects w !! name = None ->
  arcpy_MakeFeatureLayer src name wc w = (r, w1) ->
  match r with
  | Val _ => objects w1 !! name = Some (with_rows (select_rows wc (fc_rows fc)) fc)
  | Exc _ => faulted w
  end.
Proof.
  intros Hs Hn H. apply after_engine_call in H.
  destruct H as [(e & -> & H)|H]; [exact H|].
  unfold bind, get_objects in H. cbn [objects with_clock] in H.
  rewrite Hs, create_object_run in H by exact Hn.
  injection H as <- <-. cbn [objects with_objects]. apply lookup_insert_eq.
Qed.

Lemma Describe_spec w p fc r w1 :
  objects w !! p = Some fc ->
  arcpy_Describe p w = (r, w1) ->
  match r with
  | Val d => d = fc
  | Exc _ => faulted w
  end.
Proof.
  intros Ho H. apply after_engine_call in H.
  destruct H as [(e & -> & H)|H]; [exact H|].
  unfold bind, get_objects in H. cbn [objects with_clock] in H.
  rewrite Ho in H. now injection H as <- <-.
Qed.

Lemma schema_compare_details_spec w src tgt allowed s t r w2 :
  objects w !! src = Some s -> objects w !! tgt = Some t ->
  schema_compare_details src tgt allowed w = (r, w2) ->
  match r with
  | Val d => d = compare_described s t allowed
  | Exc _ => faulted w
  end.
Proof.
  intros Hs Ht. unfold schema_compare_details. unfold bind at 1.
  pose proof (touches_Describe [] src w) as (_ & Hf & Hq).
  destruct (arcpy_Describe src w) as [[d1|e] w1] eqn:E1; cbn [snd] in *.
  - pose proof (Describe_spec _ _ _ _ _ Hs E1) as ->.
    unfold bind.
    destruct (arcpy_Describe tgt w1) as [[d2|e] w3] eqn:E2.
    + rewrite <- Hq in Ht by tauto.
      pose proof (Describe_spec _ _ _ _ _ Ht E2) as ->.
      now intros [= <- <-].
    + rewrite <- Hq in Ht by tauto.
      pose proof (Describe_spec _ _ _ _ _ Ht E2) as Hfa.
      intros [= <- <-]. now apply (faulted_eq w w1).
  - intros [= <- <-]. exact (Describe_spec _ _ _ _ _ Hs E1).
Qed.

Lemma schema_equal_spec w src tgt allowed s t r w2 :
  objects w !! src = Some s -> objects w !! tgt = Some t ->
  schema_equal src tgt allowed w = (r, w2) ->
  match r with
  | Val b => b = let d := compare_described s t allowed in
                 sr_ok d && geom_ok d && fields_ok d
  | Exc _ => faulted w
  end.
Proof.
  intros Hs Ht. unfold schema_equal, bind.
  destruct (schema_compare_details src tgt allowed w) as [[d|e] w1] eqn:E;
    pose proof (schema_compare_details_spec _ _ _ _ _ _ _ _ Hs Ht E) as H;
    cbn beta iota in H; intros [= <- <-]; [now rewrite H|exact H].
Qed.

Variable path_join : string -> string -> string.

Lemma FeatureClassToFeatureClass_spec w src out_ws out_name wc fc r w1 :
  objects w !! src = Some fc -> objects w !! path_join out_ws out_name = None ->
  arcpy_FeatureClassToFeatureClass path_join src out_ws out_name wc w = (r, w1) ->
  match r with
  | Val _ =>
      objects w1 !! path_join out_ws out_name
      = Some (with_rows (select_rows wc (fc_rows fc)) fc)
  | Exc _ => faulted w
  end.
Proof.
  intros Hs Hn H. unfold arcpy_FeatureClassToFeatureClass in H. cbv zeta in H.
  apply after_engine_call in H.
  destruct H as [(e & -> & H)|H]; [exact H|].
  unfold bind, get_objects in H. cbn [objects with_clock] in H.
  rewrite Hs, create_object_run in H by exact Hn.
  injection H as <- <-. cbn [objects with_objects]. apply lookup_insert_eq.
Qed.

(** The schema-only copy: when it returns, the scratch feature class
    holds the source's schema and no row; it raises only on a fault. *)
Lemma make_schema_only_source_spec w url svc r w5 :
  objects w !! url = Some svc ->
  url <> "tmp_schema_lyr" -> url <> path_join "in_memory" "src_schema_tmp" ->
  path_join "in_memory" "src_schema_tmp" <> "tmp_schema_lyr" ->
  make_schema_only_source path_join url w = (r, w5) ->
  match r with
  | Val p =>
      p = path_join "in_memory" "src_schema_tmp"
      /\ objects w5 !! p = Some (with_rows [] svc)
  | Exc _ => faulted w
  end.
Proof.
  intros Hu Hn1 Hn2 Hn3. unfold make_schema_only_source. cbv zeta.
  set (tmp := "tmp_schema_lyr") in *.
  set (out_fc := path_join "in_memory" "src_schema_tmp") in *.
  (* delete the layer *)
  unfold bind at 1.
  pose proof (touches_delete_if_exists [tmp] tmp (or_introl eq_refl) w)
    as (_ & F1 & Q1).
  destruct (delete_if_exists tmp w) as [[[]|e] w1] eqn:E1; cbn [snd] in *;
    pose proof (delete_if_exists_spec _ _ _ _ E1) as S1;
    [|intros [= <- <-]; exact S1].
  (* delete the copy *)
  unfold bind at 1.
  pose proof (touches_delete_if_exists [out_fc] out_fc (or_introl eq_refl) w1)
    as (_ & F2 & Q2).
  destruct (delete_if_exists out_fc w1) as [[[]|e] w2] eqn:E2; cbn [snd] in *;
    pose proof (delete_if_exists_spec _ _ _ _ E2) as S2;
    [|intros [= <- <-]; now apply (faulted_eq w w1)].
  assert (Hu2 : objects w2 !! url = Some svc).
  { rewrite Q2, Q1; simpl; intuition congruence. }
  assert (Ht2 : objects w2 !! tmp = None).
  { rewrite Q2; simpl; intuition congruence. }
  (* make the layer *)
  unfold bind at 1.
  pose proof (touches_MakeFeatureLayer [tmp] url tmp Where_1_eq_2
                (or_introl eq_refl) w2) as (_ & F3 & Q3).
  destruct (arcpy_MakeFeatureLayer url tmp Where_1_eq_2 w2) as [[[]|e] w3] eqn:E3;
    cbn [snd] in *;
    pose proof (MakeFeatureLayer_spec _ _ _ _ _ _ _ Hu2 Ht2 E3) as S3;
    [|intros [= <- <-]; apply (faulted_eq w w2); congruence].
  assert (Ho3 : objects w3 !! out_fc = None).
  { rewrite Q3; simpl; intuition congruence. }
  (* copy the layer *)
  unfold bind at 1.
  pose proof (touches_FeatureClassToFeatureClass path_join [out_fc] tmp
                "in_memory" "src_schema_tmp" WhereNone (or_introl eq_refl) w3)
    as (_ & F4 & Q4).
  destruct (arcpy_FeatureClassToFeatureClass path_join tmp "in_memory"
              "src_schema_tmp" WhereNone w3) as [[[]|e] w4] eqn:E4;
    cbn [snd] in *;
    pose proof (FeatureClassToFeatureClass_spec _ _ _ _ _ _ _ _ S3 Ho3 E4) as S4;
    [|intros [= <- <-]; apply (faulted_eq w w3); congruence].
  assert (Ht4 : exists_at w4 tmp = true).
  { apply (exists_at_Some w4 tmp (with_rows [] svc)).
    rewrite Q4; [exact S3|]. simpl; intuition congruence. }
  (* delete the layer *)
  unfold bind.
  pose proof (touches_Delete [tmp] tmp (or_introl eq_refl) w4) as (_ & F5 & Q5).
  destruct (arcpy_Delete tmp w4) as [[[]|e] w6] eqn:E5; cbn [snd] in *;
    pose proof (Delete_spec _ _ _ _ Ht4 E5) as S5;
    intros [= <- <-]; [|apply (faulted_eq w w4); congruence].
  split; [reflexivity|].
  rewrite Q5; [exact S4|]. simpl; intuition congruence.
Qed.

End EngineSpecs.

Section Mismatch.

Variable path_join : string -> string -> string.
Variable reproject : Row -> Row.
Variable ALLOWED_EXTRA : list string.

Lemma lift_bind_val {A B} (c : M World A) (k : A -> M Frame B) fr a w1 :
  c (fr_world fr) = (Val a, w1) ->
  bind (lift c) k fr
  = k a {| fr_world := w1; src_schema := src_schema fr;
           rows_native := rows_native fr; rows_wgs := rows_wgs fr |}.
Proof. intros H. unfold bind, lift. now rewrite H. Qed.

Lemma lift_bind_exc {A B} (c : M World A) (k : A -> M Frame B) fr e w1 :
  c (fr_world fr) = (Exc e, w1) ->
  bind (lift c) k fr
  = (Exc e, {| fr_world := w1; src_schema := src_schema fr;
               rows_native := rows_native fr; rows_wgs := rows_wgs fr |}).
Proof. intros H. unfold bind, lift. now rewrite H. Qed.

Lemma lift_bind_val_at {A B} (c : M World A) (k : A -> M Frame B) W ss rn rw a w1 :
  c W = (Val a, w1) ->
  bind (lift c) k {| fr_world := W; src_schema := ss;
                     rows_native := rn; rows_wgs := rw |}
  = k a {| fr_world := w1; src_schema := ss;
           rows_native := rn; rows_wgs := rw |}.
Proof. intros H. unfold bind, lift. cbn [fr_world]. now rewrite H. Qed.

Lemma lift_bind_exc_at {A B} (c : M World A) (k : A -> M Frame B) W ss rn rw e w1 :
  c W = (Exc e, w1) ->
  bind (lift c) k {| fr_world := W; src_schema := ss;
                     rows_native := rn; rows_wgs := rw |}
  = (Exc e, {| fr_world := w1; src_schema := ss;
               rows_native := rn; rows_wgs := rw |}).
Proof. intros H. unfold bind, lift. cbn [fr_world]. now rewrite H. Qed.

Variables (url bp : string) (svc t : FeatureClass) (w : World).

Local Abbreviation tmp := "tmp_schema_lyr".
Local Abbreviation out_fc := (path_join "in_memory" "src_schema_tmp").
Local Abbreviation Inv := (pair_inv bp url t svc w).

Hypothesis bp_tmp : bp <> tmp.
Hypothesis bp_out : bp <> out_fc.
Hypothesis url_tmp : url <> tmp.
Hypothesis url_out : url <> out_fc.
Hypothesis out_tmp : out_fc <> tmp.

Lemma inv_step {A} (c : M World A) o W :
  touches [tmp; out_fc] c -> Inv o W -> Inv o (snd (c W)).
Proof.
  intros Ht (H1 & H2 & H3 & H4). destruct (Ht W) as (Ho & Hf & Hq).
  unfold pair_inv. rewrite !Hq, Ho, Hf; [auto| |]; simpl; intuition congruence.
Qed.

Lemma inv_step0 {A} (c : M World A) o W :
  touches [] c -> Inv o W -> Inv o (snd (c W)).
Proof.
  intros Ht. apply inv_step. eapply touches_weaken; [|exact Ht]. now intros q [].
Qed.

(** The [try] block on an existing target whose verdict is not ok:
    it prints the mismatch detail, or raises on a fault having
    printed nothing; either way the target is as before and the
    locals name scratch paths only. *)
Lemma mismatch_try_block cw bn :
  objects w !! bp = Some t -> objects w !! url = Some svc ->
  (let d := compare_described (with_rows [] svc) t (Some ALLOWED_EXTRA) in
   sr_ok d && geom_ok d && fields_ok d) = false ->
  exists r fr,
    process_pair_try path_join reproject ALLOWED_EXTRA url cw bn bp
      (pair_start w url bp) = (r, fr)
    /\ objects (fr_world fr) !! bp = Some t
    /\ faults (fr_world fr) = faults w
    /\ locals_scratch path_join fr
    /\ match r with
       | Val _ =>
           out (fr_world fr)
           = out (fr_world (pair_start w url bp))
             ++ [PrintSchemaDifferent
                   (field_details
                      (compare_described (with_rows [] svc) t (Some ALLOWED_EXTRA)))]
       | Exc _ =>
           out (fr_world fr) = out (fr_world (pair_start w url bp)) /\ faulted w
       end.
Proof.
  intros Hb Hu Hv. set (fr0 := pair_start w url bp).
  set (o := out (fr_world fr0)).
  assert (I0 : Inv o (fr_world fr0)) by (repeat split; assumption).
  assert (Lnone : forall W, locals_scratch path_join
                              {| fr_world := W; src_schema := None;
                                 rows_native := None; rows_wgs := None |}).
  { intros W q. simpl. intuition discriminate. }
  assert (Lsome : forall W, locals_scratch path_join
                              {| fr_world := W; src_schema := Some out_fc;
                                 rows_native := None; rows_wgs := None |}).
  { intros W q. unfold scratch_paths. simpl.
    intros [[= <-]|[H|[H|[]]]]; try discriminate. now left. }
  pose proof (touches_make_schema_only_source path_join [tmp; out_fc] url
                (or_introl eq_refl) (or_intror (or_introl eq_refl))) as Tmk.
  unfold process_pair_try.
  (* the schema-only copy *)
  pose proof (inv_step _ o (fr_world fr0) Tmk I0) as I1.
  destruct (make_schema_only_source path_join url (fr_world fr0))
    as [[p|e] W1] eqn:E1; cbn [snd] in I1;
    pose proof (make_schema_only_source_spec path_join _ _ _ _ _
                  (proj1 (proj2 I0)) url_tmp url_out out_tmp E1) as S1.
  2:{ rewrite (lift_bind_exc _ _ _ _ _ E1). eexists _, _.
      split; [reflexivity|]. destruct I1 as (? & ? & ? & ?).
      cbn [fr_world]. repeat split; auto. }
  destruct S1 as [-> S1]. rewrite (lift_bind_val _ _ _ _ _ E1).
  unfold bind at 1, set_src_schema.
  cbn [fr_world src_schema rows_native rows_wgs fr0 pair_start].
  (* does the target exist *)
  pose proof (inv_step0 _ o W1 (touches_Exists [] bp) I1) as I2.
  destruct (arcpy_Exists bp W1) as [[b|e] W2] eqn:E2; cbn [snd] in I2;
    pose proof (Exists_spec _ _ _ _ E2) as S2.
  2:{ rewrite (lift_bind_exc_at _ _ _ _ _ _ _ _ E2). eexists _, _.
      split; [reflexivity|]. destruct I1 as (? & ? & F1 & ?).
      destruct I2 as (? & ? & ? & ?).
      cbn [fr_world]. repeat split; auto. now apply (faulted_eq w W1). }
  rewrite (lift_bind_val_at _ _ _ _ _ _ _ _ E2).
  rewrite (exists_at_Some W1 bp t (proj1 I1)) in S2. subst b.
  cbn [negb fr_world src_schema rows_native rows_wgs].
  (* the schema-only copy, again *)
  pose proof (inv_step _ o W2 Tmk I2) as I3.
  destruct (make_schema_only_source path_join url W2)
    as [[p|e] W3] eqn:E3; cbn [snd] in I3;
    pose proof (make_schema_only_source_spec path_join _ _ _ _ _
                  (proj1 (proj2 I2)) url_tmp url_out out_tmp E3) as S3.
  2:{ rewrite (lift_bind_exc_at _ _ _ _ _ _ _ _ E3). eexists _, _.
      split; [reflexivity|]. destruct I2 as (? & ? & F2 & ?).
      destruct I3 as (? & ? & ? & ?).
      cbn [fr_world]. repeat split; auto. now apply (faulted_eq w W2). }
  destruct S3 as [-> S3]. rewrite (lift_bind_val_at _ _ _ _ _ _ _ _ E3).
  unfold bind at 1, set_src_schema.
  cbn [fr_world src_schema rows_native rows_wgs].
  (* the verdict *)
  pose proof (inv_step0 _ o W3
                (touches_schema_equal [] out_fc bp (Some ALLOWED_EXTRA)) I3) as I4.
  destruct (schema_equal out_fc bp (Some ALLOWED_EXTRA) W3)
    as [[same|e] W4] eqn:E4; cbn [snd] in I4;
    pose proof (schema_equal_spec _ _ _ _ _ _ _ _ S3 (proj1 I3) E4) as S4.
  2:{ rewrite (lift_bind_exc_at _ _ _ _ _ _ _ _ E4). eexists _, _.
      split; [reflexivity|]. destruct I3 as (? & ? & F3 & ?).
      destruct I4 as (? & ? & ? & ?).
      cbn [fr_world]. repeat split; auto. now apply (faulted_eq w W3). }
  rewrite (lift_bind_val_at _ _ _ _ _ _ _ _ E4).
  cbv zeta in S4, Hv. rewrite Hv in S4. subst same.
  cbn [negb fr_world src_schema rows_native rows_wgs].
  (* the detail *)
  assert (S3' : objects W4 !! out_fc = Some (with_rows [] svc)).
  { destruct (touches_schema_equal [] out_fc bp (Some ALLOWED_EXTRA) W3)
      as (_ & _ & Hq). rewrite E4 in Hq. cbn [snd] in Hq.
    rewrite Hq by tauto. exact S3. }
  pose proof (inv_step0 _ o W4
                (touches_schema_compare_details [] out_fc bp (Some ALLOWED_EXTRA))
                I4) as I5.
  destruct (schema_compare_details out_fc bp (Some ALLOWED_EXTRA) W4)
    as [[det|e] W5] eqn:E5; cbn [snd] in I5;
    pose proof (schema_compare_details_spec _ _ _ _ _ _ _ _ S3' (proj1 I4) E5) as S5.
  2:{ rewrite (lift_bind_exc_at _ _ _ _ _ _ _ _ E5). eexists _, _.
      split; [reflexivity|]. destruct I4 as (? & ? & F4 & ?).
      destruct I5 as (? & ? & ? & ?).
      cbn [fr_world]. repeat split; auto. now apply (faulted_eq w W4). }
  rewrite (lift_bind_val_at _ _ _ _ _ _ _ _ E5). cbn beta iota in S5. subst det.
  unfold lift, print. cbn [fr_world src_schema rows_native rows_wgs].
  eexists _, _. split; [reflexivity|]. destruct I5 as (? & ? & ? & Ho).
  cbn [fr_world objects faults out with_out]. rewrite Ho.
  repeat split; auto.
Qed.

End Mismatch.

Section MismatchTheorem.

Variable path_join : string -> string -> string.
Variable reproject : Row -> Row.
Variable ALLOWED_EXTRA : list string.

(** The [finally] block only deletes at scratch paths. *)
Lemma process_pair_finally_keeps fr p :
  locals_scratch path_join fr -> ~ In p (scratch_paths path_join) ->
  exists fr',
    process_pair_finally path_join fr = (Val tt, fr')
    /\ out (fr_world fr') = out (fr_world fr)
    /\ objects (fr_world fr') !! p = objects (fr_world fr) !! p.
Proof.
  intros Hl Hp. unfold process_pair_finally, bind, get_frame, lift.
  set (l := [src_schema fr; _; _; _; _; _]).
  destruct (total_for_each l cleanup_one total_cleanup_one
              (fr_world fr)) as [[] Hv].
  assert (Hin : forall q, In (Some q) l -> In q (scratch_paths path_join)).
  { intros q Hq. subst l. unfold scratch_paths.
    destruct Hq as [Hq|[Hq|[Hq|Hq]]];
      [apply Hl; simpl; auto ..|].
    simpl in Hq. simpl. intuition congruence. }
  destruct (touches_cleanup l (scratch_paths path_join) Hin
              (fr_world fr)) as (Ho & _ & Hq).
  destruct (for_each l cleanup_one (fr_world fr)) as [r w1].
  cbn [fst snd] in *. subst r.
  eexists. split; [reflexivity|]. cbn [fr_world]. split; [exact Ho|].
  now apply Hq.
Qed.

(** C1: on an existing target whose guard verdict is not ok, and
    which is none of the scratch objects, [process_pair] returns with
    the target exactly as it was, whatever the engine raises on the
    way; what it prints after the pair's header is the mismatch
    detail, or, only if the engine raised, the failure report. *)
Theorem mismatch_writes_nothing
    (service_url target_str sde_ws : string) (w : World)
    (container_ws base_name base_path : string) (svc t : FeatureClass) :
  split_target path_join sde_ws target_str = (container_ws, base_name, base_path) ->
  objects w !! base_path = Some t ->
  objects w !! service_url = Some svc ->
  (let d := compare_described (with_rows [] svc) t (Some ALLOWED_EXTRA) in
   sr_ok d && geom_ok d && fields_ok d) = false ->
  ~ In base_path ("tmp_schema_lyr" :: scratch_paths path_join) ->
  ~ In service_url ["tmp_schema_lyr"; path_join "in_memory" "src_schema_tmp"] ->
  path_join "in_memory" "src_schema_tmp" <> "tmp_schema_lyr" ->
  exists w',
    process_pair path_join reproject ALLOWED_EXTRA service_url target_str sde_ws w
    = (Val tt, w')
    /\ objects w' !! base_path = Some t
    /\ (out w'
        = out w ++ [PrintBanner; PrintSource service_url; PrintTarget base_path;
                    PrintSchemaDifferent
                      (field_details
                         (compare_described (with_rows [] svc) t
                            (Some ALLOWED_EXTRA)))]
        \/ (faulted w
            /\ exists e,
                 out w'
                 = out w ++ [PrintBanner; PrintSource service_url;
                             PrintTarget base_path; PrintFailed e; PrintMessages])).
Proof.
  intros Hsp Hb Hu Hv Hbp Hurl Hjoin.
  rewrite process_pair_unfold, Hsp.
  assert (Hbs : ~ In base_path (scratch_paths path_join)) by (simpl in *; tauto).
  destruct (mismatch_try_block path_join reproject ALLOWED_EXTRA
              service_url base_path svc t w) with (cw := container_ws) (bn := base_name)
    as (r & fr & Et & Ho & Hf & Hl & Hr);
    try assumption; try (simpl in *; intuition congruence).
  unfold try_finally, try_except. rewrite Et.
  destruct r as [[]|e].
  - destruct (process_pair_finally_keeps fr base_path Hl Hbs)
      as (fr' & -> & Hout & Hobj).
    eexists. split; [reflexivity|]. cbn [fr_world].
    rewrite Hobj, Hout, Hr. split; [exact Ho|]. left.
    unfold pair_start. cbn [fr_world out with_out].
    now rewrite <- app_assoc.
  - destruct Hr as [Hr Hfa].
    unfold process_pair_except, bind, lift, print. cbn [fr_world].
    match goal with
    | |- context [process_pair_finally path_join ?f] =>
        destruct (process_pair_finally_keeps f base_path) as (fr' & -> & Hout & Hobj)
    end; [exact Hl|exact Hbs|].
    eexists. split; [reflexivity|]. cbn [fr_world] in *.
    rewrite Hobj, Hout. cbn [objects out with_out]. split; [exact Ho|].
    right. split; [exact Hfa|]. exists e. rewrite Hr.
    unfold pair_start. cbn [fr_world out with_out].
    now rewrite <- !app_assoc.
Qed.

End MismatchTheorem.

Lemma mismatch_writes_nothing_witness :
  let w := ex_world ex_target_short (fun _ _ => false) in
  exists w',
    process_pair ex_join (fun r => r) ALLOWED_EXTRA_IN_TARGET "url1" "A" ex_sde w
    = (Val tt, w')
    /\ objects w' !! ex_join ex_sde "A" = Some ex_target_short
    /\ out w'
       = [PrintBanner; PrintSource "url1"; PrintTarget (ex_join ex_sde "A");
          PrintSchemaDifferent (mkFieldDetails ["name"] [] [] [])].
Proof.
  intros w.
  destruct (mismatch_writes_nothing ex_join (fun r => r) ALLOWED_EXTRA_IN_TARGET
              "url1" "A" ex_sde w ex_sde "A" (ex_join ex_sde "A")
              ex_service ex_target_short)
    as (w' & Hr & Ho & Hout);
    [reflexivity|reflexivity|reflexivity|reflexivity
    |simpl; intuition discriminate|simpl; intuition discriminate|discriminate|].
  exists w'. split; [exact Hr|]. split; [exact Ho|].
  destruct Hout as [Hout|[(n & op & Hf) _]]; [exact Hout|discriminate Hf].
Defined.

(* ===================================================================== *)
(** * The model on the examples of the specification *)
(* ===================================================================== *)

Example norm_trailing_underscore :
  _norm_name (Some "Created_User_") = _norm_name (Some "created_user")
  /\ _norm_name (Some "foo__") = "foo_".
Proof. split; reflexivity. Qed.

Example sorted_by_code_point :
  PyStr.sorted ["b"; "a"; "B"; "_"; ""] = [""; "B"; "_"; "a"; "b"].
Proof. reflexivity. Qed.

Example system_fields_excluded :
  PyDict.keys
    (_list_user_fields_rich
       [field "OBJECTID" "" "OID" None; field "Shape" "" "Geometry" None;
        field "GlobalID" "" "GlobalID" None; field "SHAPE_Area" "" "Double" None;
        field "SHAPE_Length" "" "Double" None;
        field "Notes" "" "String" (Some 50%Z)])
  = ["notes"].
Proof. reflexivity. Qed.

Example name_match_precedence :
  _compare_fields_core
    [field "Status" "Status" "String" (Some 5%Z)]
    [field "Status" "" "String" (Some 5%Z);
     field "Status_Code" "Status" "String" (Some 5%Z)] None
  = (false, mkFieldDetails [] ["Status_Code"] [] []).
Proof. reflexivity. Qed.

Example alias_fallback :
  _compare_fields_core
    [field "qty" "Quantity" "Integer" None]
    [field "amount_qty_" "Quantity" "Integer" None] None
  = (true, mkFieldDetails [] [] [] []).
Proof. reflexivity. Qed.

Example allow_list_case_insensitive :
  _compare_fields_core
    [field "id" "" "Integer" None]
    [field "id" "" "Integer" None; field "Created_Date" "" "Date" None]
    (Some ["created_date"])
  = (true, mkFieldDetails [] [] [] ["Created_Date"]).
Proof. reflexivity. Qed.

Example length_mismatch_detected :
  _compare_fields_core
    [field "name" "" "String" (Some 50%Z)]
    [field "name" "" "String" (Some 100%Z)] None
  = (false, mkFieldDetails [] [] [LengthMismatch "name" "name" 50 100] []).
Proof. reflexivity. Qed.

(** An existing, compatible target with three rows and a source with
    two: after the pair the target holds the two source rows. *)
Example compatible_schema_synced :
  let r := process_pair ex_join (fun r => r) ALLOWED_EXTRA_IN_TARGET
             "url1" "A" ex_sde (ex_world ex_target (fun _ _ => false)) in
  fst r = Val tt
  /\ fc_rows <$> (objects (snd r) !! ex_join ex_sde "A") = Some (fc_rows ex_service)
  /\ out (snd r)
     = [PrintBanner; PrintSource "url1"; PrintTarget (ex_join ex_sde "A");
        PrintSchemaMatches; PrintSyncComplete 2 (ex_join ex_sde "A")]
  /\ Forall (fun p => exists_at (snd r) p = false) (scratch_paths ex_join).
Proof. vm_compute. repeat split; repeat constructor. Qed.

(** A missing target is created in WGS84 with the source's fields and
    rows. *)
Example missing_target_created :
  let r := process_pair ex_join (fun r => r) ALLOWED_EXTRA_IN_TARGET
             "url2" "DS.B" ex_sde (ex_world ex_target (fun _ _ => false)) in
  fst r = Val tt
  /\ objects (snd r) !! ex_join (ex_join ex_sde "DS") "B"
     = Some (mkFC (Some "Polygon") (Some (mkSR (Some 4326%Z))) ex_fields
               (fc_rows ex_service))
  /\ out (snd r)
     = [PrintBanner; PrintSource "url2";
        PrintTarget (ex_join (ex_join ex_sde "DS") "B");
        PrintCreating; PrintCreated (ex_join (ex_join ex_sde "DS") "B") 2].
Proof. vm_compute. repeat split. Qed.

(* ===================================================================== *)
(** * Further properties: names and target identifiers *)
(* ===================================================================== *)

Section MoreStringFacts.

Lemma lstrip_lower s : PyStr.lstrip (PyStr.lower s) = PyStr.lower (PyStr.lstrip s).
Proof.
induction s as [|c r IH]; simpl; [reflexivity|].
rewrite isspace_lower_char. destruct (PyStr.isspace c); [exact IH|reflexivity].
Qed.

Lemma rstrip_lower s : PyStr.rstrip (PyStr.lower s) = PyStr.lower (PyStr.rstrip s).
Proof.
induction s as [|c r IH]; simpl; [reflexivity|].
rewrite IH, isspace_lower_char.
destruct (PyStr.rstrip r); simpl; [|reflexivity].
now destruct (PyStr.isspace c).
Qed.

Lemma strip_lower s : PyStr.strip (PyStr.lower s) = PyStr.lower (PyStr.strip s).
Proof. unfold PyStr.strip. now rewrite lstrip_lower, rstrip_lower. Qed.

Lemma truthy_lower s : PyStr.truthy (PyStr.lower s) = PyStr.truthy s.
Proof. now destruct s. Qed.

Lemma ends_space_rstrip s : ends_space (PyStr.rstrip s) = false.
Proof.
unfold ends_space. induction s as [|c r IH]; [reflexivity|].
cbn [PyStr.rstrip]. destruct (PyStr.rstrip r) as [|c' r'] eqn:E.
- destruct (PyStr.isspace c) eqn:Ec; simpl; [reflexivity|exact Ec].
- rewrite last_char_cons by discriminate. exact IH.
Qed.

Lemma strip_idem s : PyStr.strip (PyStr.strip s) = PyStr.strip s.
Proof. apply strip_id; [apply starts_space_strip|apply ends_space_rstrip]. Qed.





Lemma append_cons d a b :
String.append (String d a) b = String d (String.append a b).
Proof. reflexivity. Qed.

Lemma last_char_append s c :
PyStr.last_char (String.append s (String c EmptyString)) = Some c.
Proof.
induction s as [|d r IH]; [reflexivity|].
rewrite append_cons, last_char_cons; [exact IH|].
now destruct r.
Qed.

Lemma drop_last_append s c :
PyStr.drop_last (String.append s (String c EmptyString)) = s.
Proof.
induction s as [|d r IH]; [reflexivity|].
rewrite append_cons. cbn [PyStr.drop_last]. rewrite IH.
destruct r; reflexivity.
Qed.

Lemma lower_append s1 s2 :
PyStr.lower (String.append s1 s2) = String.append (PyStr.lower s1) (PyStr.lower s2).
Proof.
induction s1 as [|c r IH]; [reflexivity|].
rewrite append_cons. cbn [PyStr.lower]. now rewrite append_cons, IH.
Qed.

Lemma last_char_lower s :
PyStr.last_char (PyStr.lower s) = option_map PyStr.lower_char (PyStr.last_char s).
Proof.
induction s as [|c r IH]; [reflexivity|].
destruct r as [|c' r']; [reflexivity|].
change (PyStr.lower (String c (String c' r')))
  with (String (PyStr.lower_char c) (PyStr.lower (String c' r'))).
rewrite !last_char_cons by (simpl; discriminate). exact IH.
Qed.

Lemma endswith_underscore_lower s :
PyStr.endswith_underscore (PyStr.lower s) = PyStr.endswith_underscore s.
Proof.
unfold PyStr.endswith_underscore. rewrite last_char_lower.
destruct (PyStr.last_char s); simpl; [apply underscore_lower_char|reflexivity].
Qed.

End MoreStringFacts.

Lemma lstrip_append_nonspace s c :
  PyStr.isspace c = false ->
  PyStr.lstrip (String.append s (String c EmptyString))
  = String.append (PyStr.lstrip s) (String c EmptyString).
Proof.
  intros Hc. induction s as [|d r IH].
  - simpl. now rewrite Hc.
  - rewrite append_cons. cbn [PyStr.lstrip].
    destruct (PyStr.isspace d); [exact IH|now rewrite append_cons].
Qed.

Lemma last_char_lstrip s :
  PyStr.lstrip s = EmptyString \/ PyStr.last_char (PyStr.lstrip s) = PyStr.last_char s.
Proof.
  induction s as [|c r IH]; [now left|].
  cbn [PyStr.lstrip]. destruct (PyStr.isspace c); [|now right].
  destruct r as [|d r']; [now left|].
  destruct IH as [IH|IH]; [now left|right].
  rewrite IH. symmetry. now apply last_char_cons.
Qed.

(** X1: the normalised key ignores case and surrounding whitespace. *)
Theorem norm_name_case_space_insensitive (x : string) :
  _norm_name (Some (PyStr.lower x)) = _norm_name (Some x)
  /\ _norm_name (Some (PyStr.strip x)) = _norm_name (Some x).
Proof.
  split.
  - unfold _norm_name. rewrite truthy_lower, strip_lower, lower_idem. reflexivity.
  - unfold _norm_name. destruct x as [|c r]; [reflexivity|].
    cbn [PyStr.truthy negb]. rewrite strip_idem.
    destruct (PyStr.strip (String c r)); reflexivity.
Qed.

(** X2: the tracking quirk: a name and the same name with one
    underscore appended have the same normalised key, when the name
    itself ends neither in whitespace nor in an underscore. *)
Theorem norm_name_trailing_underscore (x : string) :
  ends_space x = false -> PyStr.endswith_underscore x = false ->
  _norm_name (Some (String.append x "_")) = _norm_name (Some x).
Proof.
  intros Hs Hu.
  assert (Hl : PyStr.lower (PyStr.strip (String.append x "_"))
               = String.append (PyStr.lower (PyStr.lstrip x)) "_").
  { unfold PyStr.strip. rewrite lstrip_append_nonspace by reflexivity.
    rewrite rstrip_id.
    - now rewrite lower_append.
    - unfold ends_space. now rewrite last_char_append. }
  assert (Hr : _norm_name (Some x) = PyStr.lower (PyStr.lstrip x)).
  { unfold _norm_name. destruct x as [|c r] eqn:Ex; [reflexivity|].
    rewrite <- Ex in *. cbn [PyStr.truthy negb].
    assert (He : PyStr.truthy x = true) by now subst x.
    rewrite He. cbn [negb]. unfold PyStr.strip.
    destruct (last_char_lstrip x) as [H|H].
    - rewrite H. reflexivity.
    - rewrite rstrip_id by (unfold ends_space in *; now rewrite H).
      rewrite endswith_underscore_lower. unfold PyStr.endswith_underscore in *.
      now rewrite H, Hu. }
  rewrite Hr. unfold _norm_name.
  replace (PyStr.truthy (String.append x "_")) with true by now destruct x.
  cbn [negb]. rewrite Hl. unfold PyStr.endswith_underscore.
  rewrite last_char_append. cbn [Ascii.eqb]. simpl Ascii.eqb.
  apply drop_last_append.
Qed.

Lemma norm_name_trailing_underscore_witness :
  _norm_name (Some (String.append " Created_User" "_"))
  = _norm_name (Some " Created_User").
Proof. apply norm_name_trailing_underscore; reflexivity. Defined.


Section TargetIdentifiers.

Variable path_join : string -> string -> string.

Lemma split_dot_None s : PyStr.split_dot s = None -> has_dot s = false.
Proof.
induction s as [|c r IH]; [reflexivity|]. simpl.
destruct (Ascii.eqb c "."); [discriminate|].
destruct (PyStr.split_dot r) as [[a b]|]; [discriminate|]. auto.
Qed.

Lemma split_dot_Some s : forall a b,
PyStr.split_dot s = Some (a, b) ->
has_dot a = false /\ s = String.append a (String "." b).
Proof.
induction s as [|c r IH]; intros a b; [discriminate|]. simpl.
destruct (Ascii.eqb c ".") eqn:E.
- intros [= <- <-]. apply Ascii.eqb_eq in E. subst c. now split.
- destruct (PyStr.split_dot r) as [[a' b']|]; [|discriminate].
  intros [= <- <-]. destruct (IH a' b' eq_refl) as [H1 H2].
  split; [simpl; now rewrite E|]. rewrite append_cons. now f_equal.
Qed.

(** X4: [split_target] trims the identifier and splits it at its first
  dot only: the full path is always the join of container and base
  name; without a dot the container is the workspace itself, with a
  dot it is the workspace joined with the dot-free text before the
  first dot, and dataset, dot and base name spell the trimmed
  identifier again. *)
Theorem split_target_parts (sde_ws target_str : string) :
let '(container, base, full) := split_target path_join sde_ws target_str in
full = path_join container base
/\ ((container = sde_ws /\ base = PyStr.strip target_str /\ has_dot base = false)
    \/ exists ds, container = path_join sde_ws ds /\ has_dot ds = false
                  /\ PyStr.strip target_str = String.append ds (String "." base)).
Proof.
unfold split_target.
destruct (PyStr.split_dot (PyStr.strip target_str)) as [[ds fc]|] eqn:E.
- split; [reflexivity|]. right. exists ds.
  destruct (split_dot_Some _ _ _ E). auto.
- split; [reflexivity|]. left. auto using split_dot_None.
Qed.

End TargetIdentifiers.

(* ===================================================================== *)
(** * Further properties: the field catalogue *)
(* ===================================================================== *)

Lemma find_snoc {A} (f : A -> bool) (l : list A) (x : A) :
  List.find f (l ++ [x])
  = match List.find f l with
    | Some y => Some y
    | None => if f x then Some x else None
    end.
Proof.
  induction l as [|y r IH]; simpl; [reflexivity|].
  destruct (f y); [reflexivity|exact IH].
Qed.

Lemma user_field_step_cases out fld :
  user_field_step out fld
  = if is_user_field fld then PyDict.set (field_key fld) (field_info fld) out
    else out.
Proof.
  unfold user_field_step, is_user_field, field_key, field_info. cbv zeta.
  destruct (PyStr.mem _ SYSTEM_FIELD_NAMES); [reflexivity|].
  destruct (PyStr.mem _ EXCLUDED_TYPES); reflexivity.
Qed.

Lemma catalog_lookup_from fs : forall acc k,
  PyDict.get k (fold_left user_field_step fs acc)
  = match List.find (fun f => is_user_field f && String.eqb (field_key f) k) (rev fs) with
    | Some f => Some (field_info f)
    | None => PyDict.get k acc
    end.
Proof.
  induction fs as [|f r IH]; intros acc k; [reflexivity|].
  cbn [fold_left rev]. rewrite IH, find_snoc.
  destruct (List.find _ (rev r)); [reflexivity|].
  rewrite user_field_step_cases.
  destruct (is_user_field f); [|reflexivity].
  cbn [andb]. rewrite get_set. now destruct (String.eqb (field_key f) k).
Qed.

Lemma catalog_lookup_find fs k :
  PyDict.get k (_list_user_fields_rich fs)
  = option_map field_info
      (List.find (fun f => is_user_field f && String.eqb (field_key f) k) (rev fs)).
Proof.
  unfold _list_user_fields_rich. rewrite catalog_lookup_from.
  destruct (List.find _ (rev fs)); reflexivity.
Qed.

(** X5: last write wins: the catalogue entry under a key is the entry
    of the last field of the schema that is a user field with that
    normalised name, and there is none when no such field exists. *)
Theorem catalog_lookup_last (fs : list Field) (k : string) :
  PyDict.get k (_list_user_fields_rich fs)
  = option_map field_info
      (List.find (fun f => is_user_field f && String.eqb (field_key f) k) (rev fs)).
Proof. apply catalog_lookup_find. Qed.

(** X6: every catalogue entry comes from a field of the schema and is
    well formed: it sits under the normalised form of its trimmed
    name, its alias key is the normalised alias, the name is no system
    field name, the type no excluded type, and a length is kept for
    String fields only. *)
Theorem catalog_entries_well_formed (fs : list Field) (k : string) (info : FieldInfo) :
  PyDict.get k (_list_user_fields_rich fs) = Some info ->
  (exists fld, In fld fs /\ info = field_info fld)
  /\ fi_norm info = k
  /\ k = _norm_name (Some (fi_name info))
  /\ fi_alias_norm info = _norm_name (Some (fi_alias info))
  /\ PyStr.strip (fi_name info) = fi_name info
  /\ ~ In (PyStr.lower (fi_name info)) SYSTEM_FIELD_NAMES
  /\ ~ In (fi_type info) EXCLUDED_TYPES
  /\ (fi_type info <> "String" -> fi_length info = None).
Proof.
  rewrite catalog_lookup_find.
  destruct (List.find _ (rev fs)) as [fld|] eqn:E; [|discriminate].
  intros [= <-]. apply find_some in E. destruct E as [Hin Hp].
  apply andb_true_iff in Hp. destruct Hp as [Hu Hk].
  apply String.eqb_eq in Hk. unfold is_user_field in Hu.
  apply andb_true_iff in Hu. destruct Hu as [Hs Ht].
  apply negb_true_iff, mem_false in Hs. apply negb_true_iff, mem_false in Ht.
  split; [exists fld; split; [now apply in_rev|reflexivity]|].
  cbn [field_info fi_norm fi_name fi_alias fi_alias_norm fi_type fi_length].
  repeat split; try assumption; try reflexivity.
  - now rewrite <- Hk.
  - apply strip_idem.
  - intros Hne. apply String.eqb_neq in Hne. now rewrite Hne.
Qed.

Lemma catalog_entries_well_formed_witness :
  let fs := [field "OBJECTID" "" "OID" None; field " Notes_ " "Remarks" "String" (Some 50%Z)] in
  PyDict.get "notes" (_list_user_fields_rich fs)
  = Some (mkFieldInfo "Notes_" "Remarks" "String" (Some 50%Z) "notes" "remarks")
  /\ "notes" = _norm_name (Some "Notes_").
Proof.
  intros fs.
  pose proof (catalog_entries_well_formed fs "notes"
                (mkFieldInfo "Notes_" "Remarks" "String" (Some 50%Z) "notes" "remarks")
                eq_refl) as (_ & _ & H & _).
  split; [reflexivity|exact H].
Defined.

Lemma by_alias_last_from d : forall acc a,
  PyDict.get a (fold_left
                  (fun acc (kv : string * FieldInfo) =>
                     if PyStr.truthy (fi_alias_norm (snd kv))
                     then PyDict.set (fi_alias_norm (snd kv)) (fst kv) acc
                     else acc) d acc)
  = match List.find (fun kv : string * FieldInfo =>
                       PyStr.truthy (fi_alias_norm (snd kv))
                       && String.eqb (fi_alias_norm (snd kv)) a) (rev d) with
    | Some kv => Some (fst kv)
    | None => PyDict.get a acc
    end.
Proof.
  induction d as [|kv r IH]; intros acc a; [reflexivity|].
  cbn [fold_left rev]. rewrite IH, find_snoc.
  destruct (List.find _ (rev r)); [reflexivity|].
  destruct (PyStr.truthy (fi_alias_norm (snd kv))); [|reflexivity].
  cbn [andb]. rewrite get_set.
  now destruct (String.eqb (fi_alias_norm (snd kv)) a).
Qed.

(** X7: the alias index maps an alias key to the key of the last
    catalogue entry that carries it, and holds no empty alias key. *)
Theorem by_alias_last (d : PyDict.dict FieldInfo) (a : string) :
  PyDict.get a (by_alias d)
  = if PyStr.truthy a
    then option_map fst
           (List.find (fun kv : string * FieldInfo =>
                         String.eqb (fi_alias_norm (snd kv)) a) (rev d))
    else None.
Proof.
  unfold by_alias. rewrite by_alias_last_from. cbn [PyDict.get].
  induction (rev d) as [|kv r IH]; cbn [List.find].
  - now destruct (PyStr.truthy a).
  - destruct (String.eqb (fi_alias_norm (snd kv)) a) eqn:E.
    + apply String.eqb_eq in E. rewrite E.
      destruct (PyStr.truthy a); [reflexivity|]. cbn [andb].
      rewrite IH. reflexivity.
    + rewrite andb_false_r. exact IH.
Qed.

(* ===================================================================== *)
(** * Further properties: the field comparison *)
(* ===================================================================== *)

Lemma no_member_nil {A} (l : list A) : (forall x, ~ In x l) -> l = [].
Proof. destruct l as [|a r]; [reflexivity|]. intros H. destruct (H a). now left. Qed.

Lemma pair_mismatch_refl info : pair_mismatch info info = [].
Proof.
  unfold pair_mismatch. rewrite String.eqb_refl. cbn [negb].
  destruct (String.eqb (fi_type info) "String"); [|reflexivity].
  cbv zeta. now rewrite Z.eqb_refl.
Qed.

Lemma pair_mismatch_inv x si ti :
  In x (pair_mismatch si ti) ->
  (x = TypeMismatch (fi_name si) (fi_name ti) (fi_type si) (fi_type ti)
   /\ fi_type si <> fi_type ti)
  \/ (x = LengthMismatch (fi_name si) (fi_name ti)
            (or_zero (fi_length si)) (or_zero (fi_length ti))
      /\ fi_type si = fi_type ti /\ fi_type si = "String"
      /\ or_zero (fi_length si) <> or_zero (fi_length ti)).
Proof.
  unfold pair_mismatch.
  destruct (String.eqb (fi_type si) (fi_type ti)) eqn:Et; cbn [negb].
  - apply String.eqb_eq in Et.
    destruct (String.eqb (fi_type si) "String") eqn:Es; [|intros []].
    apply String.eqb_eq in Es. cbv zeta.
    destruct (Z.eqb _ _) eqn:El; cbn [negb]; [intros []|].
    apply Z.eqb_neq in El. intros [<-|[]]. right. auto.
  - apply String.eqb_neq in Et. intros [<-|[]]. left. auto.
Qed.

Lemma mismatch_fold_inv s t ta x l : forall acc,
  In x (fold_left (mismatch_step s t ta) l acc) ->
  In x acc
  \/ exists sk tk s_info t_info,
       In sk l /\ paired_target s t ta sk = Some tk
       /\ PyDict.get sk s = Some s_info /\ PyDict.get tk t = Some t_info
       /\ In x (pair_mismatch s_info t_info).
Proof.
  induction l as [|y r IH]; intros acc H; simpl in H; [now left|].
  apply IH in H. destruct H as [H|(sk & tk & si & ti & Hin & H)].
  - unfold mismatch_step in H.
    destruct (paired_target s t ta y) as [tk|] eqn:Ep; [|now left].
    destruct (PyDict.get y s) as [si|] eqn:Es; [|now left].
    destruct (PyDict.get tk t) as [ti|] eqn:Et; [|now left].
    apply in_app_or in H. destruct H as [H|H]; [now left|].
    right. exists y, tk, si, ti. simpl. auto.
  - right. exists sk, tk, si, ti. simpl. auto.
Qed.

(** X8: no spurious line: every recorded type or length mismatch
    comes from a matched source key and its partner, whose types
    differ, or agree on String with different lengths. *)
Theorem mismatches_come_from_matched_pairs
    (src_fields tgt_fields : list Field) (allowed : option (list string))
    (x : Mismatch) :
  let s := _list_user_fields_rich src_fields in
  let t := _list_user_fields_rich tgt_fields in
  In x (type_length_mismatches (snd (_compare_fields_core src_fields tgt_fields allowed))) ->
  exists sk tk s_info t_info,
    In sk (fst (match_fields s t))
    /\ paired_target s t (by_alias t) sk = Some tk
    /\ PyDict.get sk s = Some s_info /\ PyDict.get tk t = Some t_info
    /\ ((x = TypeMismatch (fi_name s_info) (fi_name t_info)
               (fi_type s_info) (fi_type t_info)
         /\ fi_type s_info <> fi_type t_info)
        \/ (x = LengthMismatch (fi_name s_info) (fi_name t_info)
                  (or_zero (fi_length s_info)) (or_zero (fi_length t_info))
            /\ fi_type s_info = fi_type t_info /\ fi_type s_info = "String"
            /\ or_zero (fi_length s_info) <> or_zero (fi_length t_info))).
Proof.
  intros s t. unfold _compare_fields_core. cbn [snd type_length_mismatches].
  intros H. apply mismatch_fold_inv in H.
  destruct H as [[]|(sk & tk & si & ti & Hin & Hp & Hs & Ht & Hx)].
  exists sk, tk, si, ti. repeat split; try assumption.
  now apply pair_mismatch_inv.
Qed.

Lemma mismatches_come_from_matched_pairs_witness :
  exists sk tk,
    paired_target (_list_user_fields_rich [field "Name" "" "String" (Some 50%Z)])
      (_list_user_fields_rich [field "name_" "" "String" (Some 100%Z)])
      (by_alias (_list_user_fields_rich [field "name_" "" "String" (Some 100%Z)]))
      sk = Some tk.
Proof.
  destruct (mismatches_come_from_matched_pairs
              [field "Name" "" "String" (Some 50%Z)]
              [field "name_" "" "String" (Some 100%Z)] None
              (LengthMismatch "Name" "name_" 50 100))
    as (sk & tk & _ & _ & _ & Hp & _); [simpl; auto|].
  exists sk, tk. exact Hp.
Defined.

(** The missing source keys and the extra target keys. *)
Lemma missing_keys_iff s t k :
  In k (PyStr.sorted (PySet.diff (PySet.of_list (PyDict.keys s)) (fst (match_fields s t))))
  <-> In k (PyDict.keys s) /\ ~ In k (fst (match_fields s t)).
Proof. now rewrite In_sorted, In_diff, In_of_list. Qed.

Lemma extra_keys_iff s t k :
  In k (PyStr.sorted (PySet.diff (PySet.of_list (PyDict.keys t)) (snd (match_fields s t))))
  <-> In k (PyDict.keys t) /\ ~ In k (snd (match_fields s t)).
Proof. now rewrite In_sorted, In_diff, In_of_list. Qed.

Lemma In_names_of s ks n :
  In n (names_of s ks)
  <-> exists k info, In k ks /\ PyDict.get k s = Some info /\ fi_name info = n.
Proof.
  unfold names_of. rewrite in_flat_map. split.
  - intros (k & Hk & Hn). destruct (PyDict.get k s) as [info|] eqn:E; [|destruct Hn].
    destruct Hn as [<-|[]]. eauto.
  - intros (k & info & Hk & Hg & <-). exists k. rewrite Hg. simpl. auto.
Qed.

(** X9: a name is reported in [missing_in_target] exactly when it is
    the name of a source entry whose key the target lacks and whose
    alias key is empty or carried by no target entry. *)
Theorem missing_in_target_iff
    (src_fields tgt_fields : list Field) (allowed : option (list string))
    (n : string) :
  let s := _list_user_fields_rich src_fields in
  let t := _list_user_fields_rich tgt_fields in
  In n (missing_in_target (snd (_compare_fields_core src_fields tgt_fields allowed)))
  <-> exists sk info,
        PyDict.get sk s = Some info /\ fi_name info = n
        /\ PyDict.contains sk t = false
        /\ (fi_alias_norm info = ""
            \/ PyDict.get (fi_alias_norm info) (by_alias t) = None).
Proof.
  intros s t. unfold _compare_fields_core. cbn [snd missing_in_target].
  fold s t. rewrite In_names_of. split.
  - intros (k & info & Hk & Hg & Hn). exists k, info.
    apply missing_keys_iff in Hk. destruct Hk as [Hk Hnm].
    rewrite (matched_src_iff s t k Hk) in Hnm.
    split; [exact Hg|]. split; [exact Hn|].
    destruct (PyDict.contains k t); [tauto|]. split; [reflexivity|].
    unfold alias_target in Hnm. rewrite Hg in Hnm.
    destruct (PyStr.truthy (fi_alias_norm info)) eqn:Et.
    + right. destruct (PyDict.get _ (by_alias t)); [|reflexivity].
      exfalso. apply Hnm. right. discriminate.
    + left. now destruct (fi_alias_norm info).
  - intros (k & info & Hg & Hn & Hc & Ha). exists k, info.
    split; [|auto]. apply missing_keys_iff.
    assert (Hk : In k (PyDict.keys s)) by (apply In_keys_get; eauto).
    split; [exact Hk|]. rewrite (matched_src_iff s t k Hk), Hc.
    intros [H|H]; [discriminate|]. apply H. unfold alias_target. rewrite Hg.
    destruct Ha as [->|Ha]; [reflexivity|].
    now destruct (PyStr.truthy (fi_alias_norm info)).
Qed.

(** Every matched source key is checked against its partner (the
    comparison loop, on one key). *)
Lemma matched_pairs_checked_core src_fields tgt_fields allowed sk :
  let s := _list_user_fields_rich src_fields in
  let t := _list_user_fields_rich tgt_fields in
  let r := _compare_fields_core src_fields tgt_fields allowed in
  In sk (fst (match_fields s t)) ->
  exists tk s_info t_info,
    paired_target s t (by_alias t) sk = Some tk
    /\ PyDict.get sk s = Some s_info /\ PyDict.get tk t = Some t_info
    /\ (fi_type s_info <> fi_type t_info ->
          In (TypeMismatch (fi_name s_info) (fi_name t_info)
                (fi_type s_info) (fi_type t_info))
             (type_length_mismatches (snd r)))
    /\ (fi_type s_info = fi_type t_info -> fi_type s_info = "String" ->
        or_zero (fi_length s_info) <> or_zero (fi_length t_info) ->
          In (LengthMismatch (fi_name s_info) (fi_name t_info)
                (or_zero (fi_length s_info)) (or_zero (fi_length t_info)))
             (type_length_mismatches (snd r))).
Proof.
  intros s t r Hm.
  destruct (matched_src_paired s t sk Hm) as (tk & si & ti & Hp & Hs & Ht).
  exists tk, si, ti. repeat split; try assumption.
  - intros Hty. unfold r, _compare_fields_core. cbn [snd type_length_mismatches].
    apply mismatch_fold_incl. right. exists sk, tk, si, ti.
    repeat split; try assumption.
    unfold pair_mismatch. apply String.eqb_neq in Hty. rewrite Hty. simpl. auto.
  - intros Hty Hstr Hlen. unfold r, _compare_fields_core.
    cbn [snd type_length_mismatches].
    apply mismatch_fold_incl. right. exists sk, tk, si, ti.
    repeat split; try assumption.
    unfold pair_mismatch. rewrite <- Hty, String.eqb_refl. cbn [negb].
    rewrite Hstr. cbn [String.eqb]. cbv zeta.
    apply Z.eqb_neq in Hlen. rewrite Hlen. simpl. auto.
Qed.

Lemma extras_not_allowed_iff src_fields tgt_fields allowed n :
  let s := _list_user_fields_rich src_fields in
  let t := _list_user_fields_rich tgt_fields in
  In n (extras_not_allowed (snd (_compare_fields_core src_fields tgt_fields allowed)))
  <-> exists tk info,
        PyDict.get tk t = Some info /\ ~ In tk (snd (match_fields s t))
        /\ n = fi_name info
        /\ ~ In (PyStr.lower (fi_name info)) (map PyStr.lower (or_empty_set allowed)).
Proof.
  intros s t. unfold _compare_fields_core. cbn [snd extras_not_allowed].
  rewrite (proj1 (extras_from _ _ _ _ _)). fold s t. simpl fst. split.
  - intros [[]|(tk & info & Hk & Hg & Hn & Hm)]. exists tk, info.
    apply extra_keys_iff in Hk. apply mem_false in Hm. tauto.
  - intros (tk & info & Hg & Hnm & Hn & Hm). right. exists tk, info.
    split; [|split; [exact Hg|split; [exact Hn|now apply mem_false]]].
    apply extra_keys_iff. split; [apply In_keys_get; eauto|exact Hnm].
Qed.

(** X10: the allow-list only decides where target-only fields are
    filed: the missing fields and the mismatches do not depend on it,
    and with a larger allow-list every disallowed extra was one
    before, so a comparison that passed still passes. *)
Theorem allow_list_monotone
    (src_fields tgt_fields : list Field) (allowed allowed' : option (list string)) :
  let r := _compare_fields_core src_fields tgt_fields allowed in
  let r' := _compare_fields_core src_fields tgt_fields allowed' in
  (forall x, In x (or_empty_set allowed) -> In x (or_empty_set allowed')) ->
  missing_in_target (snd r') = missing_in_target (snd r)
  /\ type_length_mismatches (snd r') = type_length_mismatches (snd r)
  /\ (forall n, In n (extras_not_allowed (snd r')) -> In n (extras_not_allowed (snd r)))
  /\ (fst r = true -> fst r' = true).
Proof.
  intros r r' Hincl.
  assert (Hex : forall n, In n (extras_not_allowed (snd r'))
                          -> In n (extras_not_allowed (snd r))).
  { intros n. unfold r, r'. rewrite !extras_not_allowed_iff.
    intros (tk & info & Hg & Hnm & Hn & Hm). exists tk, info.
    repeat split; try assumption. intros Hin. apply Hm.
    apply in_map_iff in Hin. destruct Hin as (a & Ha & Hin).
    apply in_map_iff. exists a. auto. }
  split; [reflexivity|]. split; [reflexivity|]. split; [exact Hex|].
  intros Hok. apply fields_ok_iff in Hok. destruct Hok as (H1 & H2 & H3).
  apply fields_ok_iff. repeat split; [exact H1| |exact H3].
  apply no_member_nil. intros n Hn. apply Hex in Hn. fold r in H2.
  rewrite H2 in Hn. destruct Hn.
Qed.

Lemma allow_list_monotone_witness :
  fst (_compare_fields_core
         [field "id" "" "Integer" None]
         [field "id" "" "Integer" None; field "Created_Date" "" "Date" None]
         (Some ["created_date"; "created_user"])) = true.
Proof.
  apply (allow_list_monotone
           [field "id" "" "Integer" None]
           [field "id" "" "Integer" None; field "Created_Date" "" "Date" None]
           (Some ["created_date"]) (Some ["created_date"; "created_user"])).
  - simpl. tauto.
  - reflexivity.
Defined.

(** X11: what a passed field comparison guarantees: every source
    entry has a partner in the target with the same type, and with the
    same length when the type is String; and every target entry is
    matched or is named in the allow-list. *)
Theorem fields_ok_sound
    (src_fields tgt_fields : list Field) (allowed : option (list string)) :
  let s := _list_user_fields_rich src_fields in
  let t := _list_user_fields_rich tgt_fields in
  fst (_compare_fields_core src_fields tgt_fields allowed) = true ->
  (forall sk s_info, PyDict.get sk s = Some s_info ->
     exists tk t_info,
       paired_target s t (by_alias t) sk = Some tk
       /\ PyDict.get tk t = Some t_info
       /\ fi_type s_info = fi_type t_info
       /\ (fi_type s_info = "String" ->
           or_zero (fi_length s_info) = or_zero (fi_length t_info)))
  /\ (forall tk t_info, PyDict.get tk t = Some t_info ->
        In tk (snd (match_fields s t))
        \/ In (PyStr.lower (fi_name t_info)) (map PyStr.lower (or_empty_set allowed))).
Proof.
  intros s t Hok. pose proof Hok as Hok'.
  apply fields_ok_iff in Hok'. destruct Hok' as (Hmiss & Hext & Hmis).
  split.
  - intros sk si Hs.
    assert (Hm : In sk (fst (match_fields s t))).
    { destruct (in_dec string_dec sk (fst (match_fields s t))) as [H|H]; [exact H|].
      exfalso.
      assert (Hn : In (fi_name si)
                     (missing_in_target
                        (snd (_compare_fields_core src_fields tgt_fields allowed)))).
      { unfold _compare_fields_core. cbn [snd missing_in_target]. fold s t.
        apply In_names_of. exists sk, si. split; [|auto].
        apply missing_keys_iff. split; [apply In_keys_get; eauto|exact H]. }
      rewrite Hmiss in Hn. destruct Hn. }
    destruct (matched_pairs_checked_core src_fields tgt_fields allowed sk Hm)
      as (tk & si' & ti & Hp & Hs' & Ht & Hty & Hlen).
    fold s in Hs'. rewrite Hs in Hs'. injection Hs' as <-.
    exists tk, ti. split; [exact Hp|]. split; [exact Ht|].
    assert (Ety : fi_type si = fi_type ti).
    { destruct (string_dec (fi_type si) (fi_type ti)) as [E|E]; [exact E|].
      apply Hty in E. rewrite Hmis in E. destruct E. }
    split; [exact Ety|]. intros Hstr.
    destruct (Z.eq_dec (or_zero (fi_length si)) (or_zero (fi_length ti))) as [E|E];
      [exact E|].
    apply (Hlen Ety Hstr) in E. rewrite Hmis in E. destruct E.
  - intros tk ti Ht.
    destruct (in_dec string_dec tk (snd (match_fields s t))) as [H|H]; [now left|].
    right.
    destruct (in_dec string_dec (PyStr.lower (fi_name ti))
                (map PyStr.lower (or_empty_set allowed))) as [Hin|Hin]; [exact Hin|].
    exfalso.
    assert (Hn : In (fi_name ti)
                   (extras_not_allowed
                      (snd (_compare_fields_core src_fields tgt_fields allowed)))).
    { apply extras_not_allowed_iff. exists tk, ti. auto. }
    rewrite Hext in Hn. destruct Hn.
Qed.

Lemma fields_ok_sound_witness :
  let s := _list_user_fields_rich [field "qty" "Quantity" "Integer" None] in
  let t := _list_user_fields_rich [field "amount_qty_" "Quantity" "Integer" None] in
  exists tk t_info,
    paired_target s t (by_alias t) "qty" = Some tk
    /\ PyDict.get tk t = Some t_info /\ fi_type t_info = "Integer".
Proof.
  intros s t.
  destruct (fields_ok_sound [field "qty" "Quantity" "Integer" None]
              [field "amount_qty_" "Quantity" "Integer" None] None eq_refl)
    as [H _].
  destruct (H "qty" (mkFieldInfo "qty" "Quantity" "Integer" None "qty" "quantity")
              eq_refl) as (tk & ti & Hp & Ht & Hty & _).
  exists tk, ti. split; [exact Hp|]. split; [exact Ht|]. now rewrite <- Hty.
Defined.

Lemma mismatch_fold_nil s t ta l :
  (forall sk, In sk l ->
     exists info, paired_target s t ta sk = Some sk
                  /\ PyDict.get sk s = Some info /\ PyDict.get sk t = Some info) ->
  fold_left (mismatch_step s t ta) l [] = [].
Proof.
  assert (G : forall acc, (forall sk, In sk l ->
     exists info, paired_target s t ta sk = Some sk
                  /\ PyDict.get sk s = Some info /\ PyDict.get sk t = Some info) ->
     fold_left (mismatch_step s t ta) l acc = acc).
  { induction l as [|y r IH]; intros acc H; [reflexivity|]. simpl.
    destruct (H y (or_introl eq_refl)) as (info & Hp & Hs & Ht).
    unfold mismatch_step at 2. rewrite Hp, Hs, Ht, pair_mismatch_refl, app_nil_r.
    apply IH. intros sk Hsk. apply H. now right. }
  apply G.
Qed.

(** A catalogue compared with itself: everything is matched by name
    and nothing is reported. *)
Lemma compare_fields_same fs allowed :
  _compare_fields_core fs fs allowed = (true, mkFieldDetails [] [] [] []).
Proof.
  unfold _compare_fields_core. set (s := _list_user_fields_rich fs).
  assert (Hsrc : forall k, In k (PyDict.keys s) -> In k (fst (match_fields s s))).
  { intros k Hk. apply (matched_src_iff s s k Hk). left. now apply contains_true. }
  assert (Htgt : forall k, In k (PyDict.keys s) -> In k (snd (match_fields s s))).
  { intros k Hk. apply matched_tgt_iff. left. split; [exact Hk|now apply contains_true]. }
  assert (E1 : PySet.diff (PySet.of_list (PyDict.keys s)) (fst (match_fields s s)) = []).
  { apply no_member_nil. intros k. rewrite In_diff, In_of_list. intros [Hk Hn]. auto. }
  assert (E2 : PySet.diff (PySet.of_list (PyDict.keys s)) (snd (match_fields s s)) = []).
  { apply no_member_nil. intros k. rewrite In_diff, In_of_list. intros [Hk Hn]. auto. }
  assert (E3 : fold_left (mismatch_step s s (by_alias s)) (fst (match_fields s s)) [] = []).
  { apply mismatch_fold_nil. intros sk Hm.
    pose proof (matched_src_keys s s sk Hm) as Hk.
    pose proof Hk as Hc. apply contains_true in Hc.
    apply In_keys_get in Hk. destruct Hk as [info Hg].
    exists info. unfold paired_target. rewrite Hc. auto. }
  rewrite E1, E2, E3. reflexivity.
Qed.

(** X12: a target with the source's fields and geometry type always
    passes the geometry and field checks with nothing to report, so
    the verdict is decided by the target's WKID alone; in particular a
    target created from the source passes the guard once it is in
    WGS84. *)
Theorem same_schema_passes (s t : FeatureClass) (allowed : option (list string)) :
  fields t = fields s -> shapeType t = shapeType s ->
  let d := compare_described s t allowed in
  geom_ok d = true /\ fields_ok d = true
  /\ field_details d = mkFieldDetails [] [] [] []
  /\ sr_ok d && geom_ok d && fields_ok d = wkid_eq_4326 (sr_wkid t).
Proof.
  intros Hf Hg. unfold compare_described, geom_type.
  cbn [geom_ok fields_ok field_details sr_ok].
  rewrite Hf, Hg, compare_fields_same, String.eqb_refl. cbn [fst snd].
  repeat split. now rewrite !andb_true_r.
Qed.

Lemma same_schema_passes_witness :
  let created := mkFC (shapeType ex_service) (Some (mkSR (Some 4326%Z)))
                   (fields ex_service) (fc_rows ex_service) in
  let d := compare_described (with_rows [] ex_service) created
             (Some ALLOWED_EXTRA_IN_TARGET) in
  sr_ok d && geom_ok d && fields_ok d = true.
Proof.
  intros created d.
  destruct (same_schema_passes (with_rows [] ex_service) created
              (Some ALLOWED_EXTRA_IN_TARGET) eq_refl eq_refl) as (_ & _ & _ & H).
  exact H.
Defined.

(* ===================================================================== *)
(** * Further properties: the guard as a reader of the catalogue *)
(* ===================================================================== *)

Lemma Describe_world w p :
  snd (arcpy_Describe p w) = with_clock (S (clock w)) w.
Proof.
  unfold arcpy_Describe, bind, engine_call, get_objects.
  destruct (faults w (clock w) (OpDescribe p)); [reflexivity|].
  cbn [objects with_clock]. now destruct (objects w !! p).
Qed.

Lemma schema_compare_details_world w src tgt allowed :
  snd (schema_compare_details src tgt allowed w) = with_clock (1 + clock w) w
  \/ snd (schema_compare_details src tgt allowed w) = with_clock (2 + clock w) w.
Proof.
  assert (G : forall r w2, schema_compare_details src tgt allowed w = (r, w2) ->
                w2 = with_clock (1 + clock w) w \/ w2 = with_clock (2 + clock w) w).
  { intros r w2. unfold schema_compare_details. unfold bind at 1.
    pose proof (Describe_world w src) as H1.
    destruct (arcpy_Describe src w) as [[d|e] w1]; cbn [snd] in H1; subst w1.
    - unfold bind.
      pose proof (Describe_world (with_clock (S (clock w)) w) tgt) as H2.
      destruct (arcpy_Describe tgt _) as [[d2|e] w3]; cbn [snd] in H2; subst w3;
        intros [= <- <-]; right; reflexivity.
    - intros [= <- <-]. now left. }
  destruct (schema_compare_details src tgt allowed w) as [r w2] eqn:E.
  cbn [snd]. exact (G r w2 eq_refl).
Qed.

(** X13: the guard only reads: under every schedule, the world after
    [schema_compare_details] or [schema_equal] is the world before with
    one or two more engine calls counted; catalogue, workspaces and
    print-out are untouched. *)
Theorem guard_is_read_only (w : World) (src tgt : string)
    (allowed : option (list string)) :
  (snd (schema_compare_details src tgt allowed w) = with_clock (1 + clock w) w
   \/ snd (schema_compare_details src tgt allowed w) = with_clock (2 + clock w) w)
  /\ snd (schema_equal src tgt allowed w)
     = snd (schema_compare_details src tgt allowed w).
Proof.
  split; [apply schema_compare_details_world|].
  unfold schema_equal, bind.
  now destruct (schema_compare_details src tgt allowed w) as [[d|e] w1].
Qed.

(** X14: no verdict without both objects: when the source snapshot or
    the target is not in the catalogue, [schema_equal] and
    [schema_compare_details] raise, under every schedule. *)
Theorem guard_raises_when_missing (w : World) (src tgt : string)
    (allowed : option (list string)) :
  objects w !! src = None \/ objects w !! tgt = None ->
  (exists e, fst (schema_equal src tgt allowed w) = Exc e)
  /\ (exists e, fst (schema_compare_details src tgt allowed w) = Exc e).
Proof.
  intros Hmiss. split.
  - destruct (schema_equal src tgt allowed w) as [[b|e] w1] eqn:E; [|eauto].
    apply schema_equal_val in E. destruct E as (s & t & Hs & Ht & _).
    destruct Hmiss; congruence.
  - destruct (schema_compare_details src tgt allowed w) as [[d|e] w1] eqn:E; [|eauto].
    apply schema_compare_details_val in E. destruct E as (s & t & Hs & Ht & _).
    destruct Hmiss; congruence.
Qed.

Lemma guard_raises_when_missing_witness :
  exists e,
    fst (schema_equal "url1" "nowhere" None (ex_world ex_target (fun _ _ => false)))
    = Exc e.
Proof.
  apply (guard_raises_when_missing (ex_world ex_target (fun _ _ => false))
           "url1" "nowhere" None).
  right. reflexivity.
Defined.

(* ===================================================================== *)
(** * Further properties: the helpers when the engine raises nothing *)
(* ===================================================================== *)

Section FaultlessRuns.

Lemma engine_step_refl w n : engine_step w (with_clock n w) (objects w).
Proof. repeat split; auto. Qed.

Lemma engine_step_trans w w1 w2 o1 o2 :
engine_step w w1 o1 -> engine_step w1 w2 o2 -> engine_step w w2 o2.
Proof.
intros (_ & F1 & O1 & E1 & W1) (H2 & F2 & O2 & E2 & W2).
repeat split; try congruence. auto.
Qed.

Lemma engine_step_faultless w w' o :
engine_step w w' o -> faultless w -> faultless w'.
Proof. intros (_ & F & _) H n op. rewrite F. apply H. Qed.

Lemma filter_incl_ws (p : string) ws q :
In q (filter (fun x => negb (String.eqb x p)) ws) -> In q ws.
Proof. intros H. apply filter_In in H. tauto. Qed.

Lemma exists_at_absent w p : exists_at w p = false -> objects w !! p = None.
Proof.
unfold exists_at. intros H. apply orb_false_iff in H. destruct H as [H _].
apply bool_decide_eq_false in H. now apply eq_None_not_Some.
Qed.

Lemma Exists_ok w p :
faultless w ->
arcpy_Exists p w = (Val (exists_at w p), with_clock (S (clock w)) w).
Proof.
intros Hf. unfold arcpy_Exists.
now rewrite (bind_val _ _ _ _ _ (engine_call_ok _ _ (Hf _ _))).
Qed.

Lemma Delete_ok w p :
faultless w -> exists_at w p = true ->
exists w', arcpy_Delete p w = (Val tt, w')
           /\ engine_step w w' (delete p (objects w)).
Proof.
intros Hf Hex. unfold arcpy_Delete.
rewrite (bind_val _ _ _ _ _ (engine_call_ok _ _ (Hf _ _))).
change (exists_at (with_clock (S (clock w)) w) p) with (exists_at w p).
rewrite Hex. eexists. split; [reflexivity|].
repeat split; auto. cbn [workspaces with_workspaces]. apply filter_incl_ws.
Qed.

Lemma delete_if_exists_ok w p :
faultless w ->
exists w', delete_if_exists p w = (Val tt, w')
           /\ engine_step w w' (delete p (objects w)).
Proof.
intros Hf. unfold delete_if_exists.
rewrite (bind_val _ _ _ _ _ (Exists_ok w p Hf)).
change (exists_at w p) with (exists_at (with_clock (S (clock w)) w) p).
destruct (exists_at (with_clock (S (clock w)) w) p) eqn:Ex.
- destruct (Delete_ok (with_clock (S (clock w)) w) p Hf Ex) as (w' & Hr & Hs).
  exists w'. split; [exact Hr|]. exact Hs.
- eexists. split; [reflexivity|].
  apply exists_at_absent in Ex. rename Ex into Ho.
  cbn [objects with_clock] in Ho.
  repeat split; auto. cbn [objects with_clock]. now rewrite delete_id.
Qed.

Lemma MakeFeatureLayer_ok w src name wc fc :
faultless w -> objects w !! src = Some fc -> objects w !! name = None ->
exists w', arcpy_MakeFeatureLayer src name wc w = (Val tt, w')
           /\ engine_step w w'
                (<[name := with_rows (select_rows wc (fc_rows fc)) fc]> (objects w)).
Proof.
intros Hf Hs Hn. unfold arcpy_MakeFeatureLayer. cbv zeta.
rewrite (bind_val _ _ _ _ _ (engine_call_ok _ _ (Hf _ _))).
unfold bind, get_objects. cbn [objects with_clock]. rewrite Hs.
rewrite create_object_run by exact Hn.
eexists. split; [reflexivity|]. repeat split; auto.
Qed.

Lemma Describe_ok w p fc :
faultless w -> objects w !! p = Some fc ->
arcpy_Describe p w = (Val fc, with_clock (S (clock w)) w).
Proof. intros Hf Ho. apply Describe_run; auto. Qed.

Lemma GetCount_ok w p fc :
faultless w -> objects w !! p = Some fc ->
arcpy_GetCount p w = (Val (length (fc_rows fc)), with_clock (S (clock w)) w).
Proof.
intros Hf Ho. unfold arcpy_GetCount. cbv zeta.
rewrite (bind_val _ _ _ _ _ (engine_call_ok _ _ (Hf _ _))).
unfold bind, get_objects. cbn [objects with_clock]. now rewrite Ho.
Qed.

Variable path_join : string -> string -> string.
Variable reproject : Row -> Row.

Lemma FeatureClassToFeatureClass_ok w src out_ws out_name wc fc :
faultless w -> objects w !! src = Some fc ->
objects w !! path_join out_ws out_name = None ->
exists w',
  arcpy_FeatureClassToFeatureClass path_join src out_ws out_name wc w = (Val tt, w')
  /\ engine_step w w'
       (<[path_join out_ws out_name := with_rows (select_rows wc (fc_rows fc)) fc]>
          (objects w)).
Proof.
intros Hf Hs Hn. unfold arcpy_FeatureClassToFeatureClass. cbv zeta.
rewrite (bind_val _ _ _ _ _ (engine_call_ok _ _ (Hf _ _))).
unfold bind, get_objects. cbn [objects with_clock]. rewrite Hs.
rewrite create_object_run by exact Hn.
eexists. split; [reflexivity|]. repeat split; auto.
Qed.

Lemma Project_ok w src out_path fc :
faultless w -> objects w !! src = Some fc -> objects w !! out_path = None ->
exists w', arcpy_Project reproject src out_path w = (Val tt, w')
           /\ engine_step w w' (<[out_path := projected reproject fc]> (objects w)).
Proof.
intros Hf Hs Hn. unfold arcpy_Project. cbv zeta.
rewrite (bind_val _ _ _ _ _ (engine_call_ok _ _ (Hf _ _))).
unfold bind, get_objects. cbn [objects with_clock]. rewrite Hs.
rewrite create_object_run by exact Hn.
eexists. split; [reflexivity|]. repeat split; auto.
Qed.

Lemma with_rows_same fc : with_rows (fc_rows fc) fc = fc.
Proof. now destruct fc. Qed.

(** The schema-only copy when nothing raises. *)
Lemma make_schema_only_source_ok w url svc :
faultless w -> objects w !! url = Some svc ->
url <> "tmp_schema_lyr" -> url <> path_join "in_memory" "src_schema_tmp" ->
path_join "in_memory" "src_schema_tmp" <> "tmp_schema_lyr" ->
exists w',
  make_schema_only_source path_join url w
  = (Val (path_join "in_memory" "src_schema_tmp"), w')
  /\ engine_step w w'
       (<[path_join "in_memory" "src_schema_tmp" := with_rows [] svc]>
          (delete "tmp_schema_lyr" (objects w))).
Proof.
intros Hf Hu Hn1 Hn2 Hn3. unfold make_schema_only_source. cbv zeta.
set (tmp := "tmp_schema_lyr") in *.
set (out_fc := path_join "in_memory" "src_schema_tmp") in *.
destruct (delete_if_exists_ok w tmp Hf) as (w1 & R1 & S1).
rewrite (bind_val _ _ _ _ _ R1).
pose proof (engine_step_faultless _ _ _ S1 Hf) as Hf1.
destruct (delete_if_exists_ok w1 out_fc Hf1) as (w2 & R2 & S2).
rewrite (bind_val _ _ _ _ _ R2).
pose proof (engine_step_faultless _ _ _ S2 Hf1) as Hf2.
pose proof (proj1 S1) as O1. pose proof (proj1 S2) as O2.
destruct (MakeFeatureLayer_ok w2 url tmp Where_1_eq_2 svc Hf2)
  as (w3 & R3 & S3).
{ rewrite O2, O1, !lookup_delete_ne by congruence. exact Hu. }
{ rewrite O2, O1, lookup_delete_ne by congruence. apply lookup_delete_eq. }
rewrite (bind_val _ _ _ _ _ R3).
pose proof (engine_step_faultless _ _ _ S3 Hf2) as Hf3.
pose proof (proj1 S3) as O3. cbn [select_rows] in O3, S3.
destruct (FeatureClassToFeatureClass_ok w3 tmp "in_memory" "src_schema_tmp"
            WhereNone (with_rows [] svc) Hf3) as (w4 & R4 & S4).
{ rewrite O3. apply lookup_insert_eq. }
{ fold out_fc. rewrite O3, lookup_insert_ne by congruence.
  rewrite O2. apply lookup_delete_eq. }
rewrite (bind_val _ _ _ _ _ R4).
pose proof (engine_step_faultless _ _ _ S4 Hf3) as Hf4.
pose proof (proj1 S4) as O4. fold out_fc in O4, S4. cbn [select_rows fc_rows with_rows] in O4, S4.
destruct (Delete_ok w4 tmp Hf4) as (w5 & R5 & S5).
{ apply (exists_at_Some w4 tmp (with_rows [] svc)).
  rewrite O4, lookup_insert_ne by congruence. rewrite O3. apply lookup_insert_eq. }
rewrite (bind_val _ _ _ _ _ R5). exists w5. split; [reflexivity|].
pose proof (engine_step_trans _ _ _ _ _ S1
             (engine_step_trans _ _ _ _ _ S2
                (engine_step_trans _ _ _ _ _ S3
                   (engine_step_trans _ _ _ _ _ S4 S5)))) as (O5 & Rest).
split; [|exact Rest]. rewrite O5, O4, O3, O2, O1.
apply map_eq. intros q.
destruct (decide (q = tmp)) as [->|Hq1].
{ rewrite lookup_delete_eq, lookup_insert_ne by congruence.
  now rewrite lookup_delete_eq. }
rewrite (lookup_delete_ne _ tmp q) by congruence.
destruct (decide (q = out_fc)) as [->|Hq2].
{ now rewrite !lookup_insert_eq. }
rewrite !lookup_insert_ne by congruence.
rewrite !lookup_delete_ne by congruence. reflexivity.
Qed.

Lemma export_rows_ok w url svc :
faultless w -> objects w !! url = Some svc ->
url <> path_join "in_memory" "src_rows" ->
exists w',
  export_rows path_join url w = (Val (path_join "in_memory" "src_rows"), w')
  /\ engine_step w w' (<[path_join "in_memory" "src_rows" := svc]> (objects w)).
Proof.
intros Hf Hu Hn. unfold export_rows, GLOBAL_WHERE. cbv zeta.
set (out_path := path_join "in_memory" "src_rows") in *.
destruct (delete_if_exists_ok w out_path Hf) as (w1 & R1 & S1).
rewrite (bind_val _ _ _ _ _ R1).
pose proof (engine_step_faultless _ _ _ S1 Hf) as Hf1.
pose proof (proj1 S1) as O1.
destruct (FeatureClassToFeatureClass_ok w1 url "in_memory" "src_rows"
            WhereNone svc Hf1) as (w2 & R2 & S2).
{ rewrite O1, lookup_delete_ne by congruence. exact Hu. }
{ fold out_path. rewrite O1. apply lookup_delete_eq. }
rewrite (bind_val _ _ _ _ _ R2). exists w2. split; [reflexivity|].
pose proof (engine_step_trans _ _ _ _ _ S1 S2) as (O2 & Rest).
split; [|exact Rest]. rewrite O2, O1. fold out_path.
cbn [select_rows]. now rewrite with_rows_same, insert_delete_eq.
Qed.

Lemma project_to_wgs_ok w in_fc d :
faultless w -> objects w !! in_fc = Some d ->
in_fc <> path_join "in_memory" "src_rows_wgs84" ->
exists w',
  (wkid_eq_4326 (sr_wkid d) = true
   /\ project_to_wgs path_join reproject in_fc w = (Val in_fc, w')
   /\ engine_step w w' (objects w))
  \/ (wkid_eq_4326 (sr_wkid d) = false
      /\ project_to_wgs path_join reproject in_fc w
         = (Val (path_join "in_memory" "src_rows_wgs84"), w')
      /\ engine_step w w'
           (<[path_join "in_memory" "src_rows_wgs84" := projected reproject d]>
              (objects w))).
Proof.
intros Hf Hd Hn. unfold project_to_wgs.
rewrite (bind_val _ _ _ _ _ (Describe_ok w in_fc d Hf Hd)).
destruct (wkid_eq_4326 (sr_wkid d)) eqn:Ew.
- eexists. left. split; [reflexivity|]. split; [reflexivity|].
  apply engine_step_refl.
- cbv zeta. set (out_path := path_join "in_memory" "src_rows_wgs84") in *.
  set (w0 := with_clock (S (clock w)) w).
  assert (Hf0 : faultless w0) by exact Hf.
  destruct (delete_if_exists_ok w0 out_path Hf0) as (w1 & R1 & S1).
  rewrite (bind_val _ _ _ _ _ R1).
  pose proof (engine_step_faultless _ _ _ S1 Hf0) as Hf1.
  pose proof (proj1 S1) as O1. cbn [objects w0 with_clock] in O1.
  destruct (Project_ok w1 in_fc out_path d Hf1) as (w2 & R2 & S2).
  { rewrite O1, lookup_delete_ne by congruence. exact Hd. }
  { rewrite O1. apply lookup_delete_eq. }
  rewrite (bind_val _ _ _ _ _ R2). exists w2. right.
  split; [reflexivity|]. split; [reflexivity|].
  pose proof (engine_step_trans _ _ _ _ _
                (engine_step_trans _ _ _ _ _ (engine_step_refl w (S (clock w))) S1)
                S2) as (O2 & Rest).
  split; [|exact Rest]. rewrite O2, O1. apply insert_delete_eq.
Qed.

Lemma create_new_table_with_rows_ok w container_ws out_name proj_rows_fc fc :
faultless w -> objects w !! proj_rows_fc = Some fc ->
proj_rows_fc <> path_join container_ws out_name ->
exists w',
  create_new_table_with_rows path_join container_ws out_name proj_rows_fc w
  = (Val (path_join container_ws out_name), w')
  /\ engine_step w w' (<[path_join container_ws out_name := fc]> (objects w)).
Proof.
intros Hf Hp Hn. unfold create_new_table_with_rows. cbv zeta.
set (out_path := path_join container_ws out_name) in *.
destruct (delete_if_exists_ok w out_path Hf) as (w1 & R1 & S1).
rewrite (bind_val _ _ _ _ _ R1).
pose proof (engine_step_faultless _ _ _ S1 Hf) as Hf1.
pose proof (proj1 S1) as O1.
destruct (FeatureClassToFeatureClass_ok w1 proj_rows_fc container_ws out_name
            WhereNone fc Hf1) as (w2 & R2 & S2).
{ rewrite O1, lookup_delete_ne by congruence. exact Hp. }
{ fold out_path. rewrite O1. apply lookup_delete_eq. }
rewrite (bind_val _ _ _ _ _ R2). exists w2. split; [reflexivity|].
pose proof (engine_step_trans _ _ _ _ _ S1 S2) as (O2 & Rest).
split; [|exact Rest]. rewrite O2, O1. fold out_path.
cbn [select_rows]. now rewrite with_rows_same, insert_delete_eq.
Qed.

End FaultlessRuns.

Section HelperProperties.

Variable path_join : string -> string -> string.
Variable reproject : Row -> Row.

(** X15: with an engine that raises nothing, [make_schema_only_source]
  leaves a zero-row copy of the source's schema at the scratch path,
  removes its temporary layer and changes nothing else; run again it
  returns the same path and leaves the same catalogue. *)
Theorem make_schema_only_source_snapshot (w : World) (url : string)
  (svc : FeatureClass) :
faultless w -> objects w !! url = Some svc ->
url <> "tmp_schema_lyr" -> url <> path_join "in_memory" "src_schema_tmp" ->
path_join "in_memory" "src_schema_tmp" <> "tmp_schema_lyr" ->
exists w1 w2,
  make_schema_only_source path_join url w
  = (Val (path_join "in_memory" "src_schema_tmp"), w1)
  /\ objects w1
     = <[path_join "in_memory" "src_schema_tmp" := with_rows [] svc]>
         (delete "tmp_schema_lyr" (objects w))
  /\ out w1 = out w
  /\ make_schema_only_source path_join url w1
     = (Val (path_join "in_memory" "src_schema_tmp"), w2)
  /\ objects w2 = objects w1.
Proof.
intros Hf Hu Hn1 Hn2 Hn3.
destruct (make_schema_only_source_ok path_join w url svc Hf Hu Hn1 Hn2 Hn3)
  as (w1 & R1 & S1).
pose proof S1 as (O1 & _ & Ho & _).
assert (Hu1 : objects w1 !! url = Some svc).
{ rewrite O1, lookup_insert_ne, lookup_delete_ne by congruence. exact Hu. }
destruct (make_schema_only_source_ok path_join w1 url svc
            (engine_step_faultless _ _ _ S1 Hf) Hu1 Hn1 Hn2 Hn3)
  as (w2 & R2 & O2 & _).
exists w1, w2. repeat split; try assumption.
rewrite O2, O1. apply map_eq. intros q.
destruct (decide (q = path_join "in_memory" "src_schema_tmp")) as [->|Hq].
{ now rewrite !lookup_insert_eq. }
rewrite !lookup_insert_ne by congruence.
destruct (decide (q = "tmp_schema_lyr")) as [->|Hq'].
{ now rewrite !lookup_delete_eq. }
repeat first [ rewrite lookup_delete_ne by congruence
             | rewrite lookup_insert_ne by congruence ].
reflexivity.
Qed.


Lemma FeatureClassToFeatureClass_missing w src out_ws out_name wc :
faultless w -> objects w !! src = None ->
exists e,
  arcpy_FeatureClassToFeatureClass path_join src out_ws out_name wc w
  = (Exc e, with_clock (S (clock w)) w).
Proof.
intros Hf Hs. unfold arcpy_FeatureClassToFeatureClass. cbv zeta.
rewrite (bind_val _ _ _ _ _ (engine_call_ok _ _ (Hf _ _))).
unfold bind, get_objects. cbn [objects with_clock]. rewrite Hs.
eexists. reflexivity.
Qed.

(** X16: with an engine that raises nothing, [export_rows] replaces
  whatever is at its scratch path by a copy of the source with all
  its rows and changes nothing else; when the source does not exist
  it raises, having removed the stale scratch copy. *)
Theorem export_rows_copies_all (w : World) (url : string) :
faultless w -> url <> path_join "in_memory" "src_rows" ->
match objects w !! url with
| Some svc =>
    exists w',
      export_rows path_join url w = (Val (path_join "in_memory" "src_rows"), w')
      /\ objects w' = <[path_join "in_memory" "src_rows" := svc]> (objects w)
      /\ out w' = out w
| None =>
    exists e w',
      export_rows path_join url w = (Exc e, w')
      /\ objects w' = delete (path_join "in_memory" "src_rows") (objects w)
      /\ out w' = out w
end.
Proof.
intros Hf Hn. destruct (objects w !! url) as [svc|] eqn:Hu.
- destruct (export_rows_ok path_join w url svc Hf Hu Hn) as (w' & R & O & _ & Ho & _).
  exists w'. auto.
- unfold export_rows, GLOBAL_WHERE. cbv zeta.
  destruct (delete_if_exists_ok w (path_join "in_memory" "src_rows") Hf)
    as (w1 & R1 & S1).
  rewrite (bind_val _ _ _ _ _ R1). pose proof S1 as (O1 & _ & Ho1 & _).
  destruct (FeatureClassToFeatureClass_missing w1 url "in_memory" "src_rows"
              WhereNone (engine_step_faultless _ _ _ S1 Hf)) as (e & R2).
  { rewrite O1, lookup_delete_ne by congruence. exact Hu. }
  rewrite (bind_exc _ _ _ _ _ R2). exists e. eexists.
  split; [reflexivity|]. cbn [objects out with_clock]. auto.
Qed.


Lemma Project_val w src out_path w1 :
arcpy_Project reproject src out_path w = (Val tt, w1) ->
exists fc, objects w !! src = Some fc
           /\ objects w !! out_path = None
           /\ objects w1 = <[out_path := projected reproject fc]> (objects w).
Proof.
intros H. unfold arcpy_Project in H. cbv zeta in H.
apply after_engine_call in H. destruct H as [(e & [=] & _)|H].
unfold bind, get_objects in H. cbn [objects with_clock] in H.
destruct (objects w !! src) as [fc|] eqn:Hs; [|discriminate].
unfold create_object, bind, get_objects in H. cbn [objects with_clock] in H.
destruct (objects w !! out_path) eqn:Ho; [discriminate|].
injection H as <-. exists fc. auto.
Qed.

(** X17: under every schedule, whatever [project_to_wgs] returns is in
  WGS84: the returned path holds a feature class with WKID 4326 and
  the input's fields, geometry type and number of rows; it is the
  input itself when that was in WGS84 already, the scratch path
  otherwise. *)
Theorem project_to_wgs_result (w : World) (in_fc p : string) (w' : World) :
project_to_wgs path_join reproject in_fc w = (Val p, w') ->
exists d fc,
  objects w !! in_fc = Some d
  /\ objects w' !! p = Some fc
  /\ sr_wkid fc = Some 4326%Z
  /\ fields fc = fields d /\ shapeType fc = shapeType d
  /\ length (fc_rows fc) = length (fc_rows d)
  /\ (p = in_fc \/ p = path_join "in_memory" "src_rows_wgs84").
Proof.
unfold project_to_wgs. unfold bind at 1.
pose proof (Describe_world w in_fc) as Hw.
destruct (arcpy_Describe in_fc w) as [[d|e] w0] eqn:E0; [|discriminate].
cbn [snd] in Hw. subst w0. apply Describe_val in E0.
destruct (wkid_eq_4326 (sr_wkid d)) eqn:Ew.
- intros [= <- <-]. exists d, d. repeat split; auto.
  unfold wkid_eq_4326 in Ew. destruct (sr_wkid d) as [n|]; [|discriminate].
  apply Z.eqb_eq in Ew. now subst n.
- cbv zeta. set (out_path := path_join "in_memory" "src_rows_wgs84").
  unfold bind at 1.
  pose proof (touches_delete_if_exists [out_path] out_path (or_introl eq_refl)
                (with_clock (S (clock w)) w)) as (_ & _ & Q1).
  destruct (delete_if_exists out_path _) as [[[]|e] w1] eqn:E1; [|discriminate].
  pose proof (delete_if_exists_spec _ _ _ _ E1) as S1. cbn [snd] in Q1.
  unfold bind.
  destruct (arcpy_Project reproject in_fc out_path w1) as [[[]|e] w2] eqn:E2;
    [|discriminate].
  intros [= <- <-]. apply Project_val in E2.
  destruct E2 as (fc & Hs & _ & O2).
  assert (Hne : in_fc <> out_path) by (intros ->; congruence).
  rewrite Q1 in Hs by (simpl; intuition congruence).
  cbn [objects with_clock] in Hs. rewrite E0 in Hs. injection Hs as <-.
  exists d, (projected reproject d). rewrite O2, lookup_insert_eq.
  repeat split; auto. cbn [projected fc_rows]. now rewrite List.length_map.
Qed.


(** X18: with an engine that raises nothing,
  [create_new_table_with_rows] puts a copy of the projected rows at
  the join of container and name, replacing what was there, and
  changes nothing else. *)
Theorem create_new_table_replaces (w : World)
  (container_ws out_name proj_rows_fc : string) (fc : FeatureClass) :
faultless w -> objects w !! proj_rows_fc = Some fc ->
proj_rows_fc <> path_join container_ws out_name ->
exists w',
  create_new_table_with_rows path_join container_ws out_name proj_rows_fc w
  = (Val (path_join container_ws out_name), w')
  /\ objects w' = <[path_join container_ws out_name := fc]> (objects w)
  /\ out w' = out w.
Proof.
intros Hf Hp Hn.
destruct (create_new_table_with_rows_ok path_join w container_ws out_name
            proj_rows_fc fc Hf Hp Hn) as (w' & R & O & _ & Ho & _).
exists w'. auto.
Qed.


End HelperProperties.

Lemma make_schema_only_source_snapshot_witness :
  exists w1,
    make_schema_only_source ex_join "url1" (ex_world ex_target (fun _ _ => false))
    = (Val (ex_join "in_memory" "src_schema_tmp"), w1)
    /\ objects w1 !! ex_join "in_memory" "src_schema_tmp"
       = Some (with_rows [] ex_service).
Proof.
  destruct (make_schema_only_source_snapshot ex_join
              (ex_world ex_target (fun _ _ => false)) "url1" ex_service)
    as (w1 & w2 & R1 & O1 & _);
    [intros n op; reflexivity|reflexivity|discriminate|discriminate|discriminate|].
  exists w1. split; [exact R1|]. rewrite O1. apply lookup_insert_eq.
Defined.

Lemma export_rows_copies_all_witness :
  exists w',
    export_rows ex_join "url1" (ex_world ex_target (fun _ _ => false))
    = (Val (ex_join "in_memory" "src_rows"), w')
    /\ objects w' !! ex_join "in_memory" "src_rows" = Some ex_service.
Proof.
  pose proof (export_rows_copies_all ex_join
                (ex_world ex_target (fun _ _ => false)) "url1"
                ltac:(intros n op; reflexivity) ltac:(discriminate)) as H.
  change (objects (ex_world ex_target (fun _ _ => false)) !! "url1")
    with (Some ex_service) in H.
  destruct H as (w' & R & O & _). exists w'. split; [exact R|].
  rewrite O. apply lookup_insert_eq.
Defined.

Lemma project_to_wgs_result_witness :
  exists fc w',
    objects w' !! ex_join "in_memory" "src_rows_wgs84" = Some fc
    /\ sr_wkid fc = Some 4326%Z /\ length (fc_rows fc) = 2%nat.
Proof.
  destruct (project_to_wgs ex_join (fun r => r) "url1"
              (ex_world ex_target (fun _ _ => false))) as [[p|e] w'] eqn:E;
    [|vm_compute in E; discriminate E].
  destruct (project_to_wgs_result _ _ _ _ _ _ E)
    as (d & fc & Hd & Hfc & Hsr & _ & _ & Hlen & _).
  assert (Hp : p = ex_join "in_memory" "src_rows_wgs84").
  { vm_compute in E. now injection E as <- _. }
  injection Hd as <-. subst p. exists fc, w'. auto.
Defined.

Lemma create_new_table_replaces_witness :
  exists w',
    create_new_table_with_rows ex_join ex_sde "A" "url1"
      (ex_world ex_target (fun _ _ => false))
    = (Val (ex_join ex_sde "A"), w')
    /\ objects w' !! ex_join ex_sde "A" = Some ex_service.
Proof.
  destruct (create_new_table_replaces ex_join (ex_world ex_target (fun _ _ => false))
              ex_sde "A" "url1" ex_service)
    as (w' & R & O & _); [intros n op; reflexivity|reflexivity|discriminate|].
  exists w'. split; [exact R|]. rewrite O. apply lookup_insert_eq.
Defined.

(* ===================================================================== *)
(** * Further properties: truncate then append under every schedule *)
(* ===================================================================== *)

Lemma TruncateTable_cases w p r w1 :
  arcpy_TruncateTable p w = (r, w1) ->
  (r = Val tt
   /\ exists fc, objects w !! p = Some fc
                 /\ objects w1 = <[p := with_rows [] fc]> (objects w))
  \/ ((exists e, r = Exc e) /\ objects w1 = objects w).
Proof.
  intros H. unfold arcpy_TruncateTable in H. cbv zeta in H.
  unfold bind, engine_call, get_objects in H.
  destruct (faults w (clock w) (OpTruncateTable p)).
  - injection H as <- <-. right. split; [eauto|reflexivity].
  - cbn [objects with_clock] in H. destruct (objects w !! p) as [fc|] eqn:Ho.
    + injection H as <- <-. left. split; [reflexivity|]. exists fc. auto.
    + injection H as <- <-. right. split; [eauto|reflexivity].
Qed.

Lemma UpdateCursor_cases w p r w1 :
  arcpy_UpdateCursor p w = (r, w1) ->
  objects w1 = objects w
  /\ forall rows, r = Val rows ->
       exists fc, objects w !! p = Some fc /\ rows = fc_rows fc.
Proof.
  intros H. unfold arcpy_UpdateCursor in H. cbv zeta in H.
  unfold bind, engine_call, get_objects in H.
  destruct (faults w (clock w) (OpUpdateCursor p)).
  - injection H as <- <-. split; [reflexivity|discriminate].
  - cbn [objects with_clock] in H. destruct (objects w !! p) as [fc|] eqn:Ho.
    + injection H as <- <-. split; [reflexivity|]. intros rows [= <-]. eauto.
    + injection H as <- <-. split; [reflexivity|discriminate].
Qed.

Lemma deleteRow_cases w p r0 r w1 :
  cursor_deleteRow p r0 w = (r, w1) ->
  (r = Val tt
   /\ exists fc, objects w !! p = Some fc
                 /\ objects w1
                    = <[p := with_rows
                               (filter (fun r' => negb (Z.eqb (row_oid r') (row_oid r0)))
                                  (fc_rows fc)) fc]> (objects w))
  \/ ((exists e, r = Exc e) /\ objects w1 = objects w).
Proof.
  intros H. unfold cursor_deleteRow in H. cbv zeta in H.
  unfold bind, engine_call, get_objects in H.
  destruct (faults w (clock w) (OpDeleteRow p)).
  - injection H as <- <-. right. split; [eauto|reflexivity].
  - cbn [objects with_clock] in H. destruct (objects w !! p) as [fc|] eqn:Ho.
    + injection H as <- <-. left. split; [reflexivity|]. exists fc. auto.
    + injection H as <- <-. right. split; [eauto|reflexivity].
Qed.

Lemma Append_cases w src tgt r w1 :
  arcpy_Append src tgt w = (r, w1) ->
  (r = Val tt
   /\ exists s t, objects w !! src = Some s /\ objects w !! tgt = Some t
                  /\ objects w1
                     = <[tgt := with_rows (fc_rows t ++ fc_rows s) t]> (objects w))
  \/ ((exists e, r = Exc e) /\ objects w1 = objects w).
Proof.
  intros H. unfold arcpy_Append in H. cbv zeta in H.
  unfold bind, engine_call, get_objects in H.
  destruct (faults w (clock w) (OpAppend src tgt)).
  - injection H as <- <-. right. split; [eauto|reflexivity].
  - cbn [objects with_clock] in H.
    destruct (objects w !! src) as [s|] eqn:Hs;
      [destruct (objects w !! tgt) as [t|] eqn:Ht|];
      injection H as <- <-; [left|right|right]; try (split; [eauto|reflexivity]).
    split; [reflexivity|]. exists s, t. auto.
Qed.

(** The cursor loop under any schedule: the table keeps a part of its
    rows, and when the loop completes, exactly those the cursor did
    not visit. *)
Lemma delete_rows_outcome tgt cur : forall w t0 r w1,
  objects w !! tgt = Some t0 ->
  for_each cur (cursor_deleteRow tgt) w = (r, w1) ->
  exists rows',
    objects w1 = <[tgt := with_rows rows' t0]> (objects w)
    /\ (forall x, In x rows' -> In x (fc_rows t0))
    /\ (r = Val tt -> rows' = delete_all cur (fc_rows t0)).
Proof.
  induction cur as [|c rest IH]; intros w t0 r w1 Ht H.
  - injection H as <- <-. exists (fc_rows t0).
    rewrite with_rows_same, insert_id by exact Ht. auto.
  - cbn [for_each] in H. unfold bind in H.
    destruct (cursor_deleteRow tgt c w) as [[[]|e] w0] eqn:E.
    + apply deleteRow_cases in E.
      destruct E as [(_ & fc & Hfc & O0)|((e & [=]) & _)].
      rewrite Ht in Hfc. injection Hfc as <-.
      set (t1 := with_rows _ t0) in O0.
      destruct (IH w0 t1 r w1) as (rows' & O1 & Hin & Hv); [|exact H|].
      { rewrite O0. apply lookup_insert_eq. }
      exists rows'. split; [|split].
      * rewrite O1, O0. now rewrite insert_insert_eq.
      * intros x Hx. apply Hin in Hx. subst t1. cbn [fc_rows with_rows] in Hx.
        apply filter_In in Hx. tauto.
      * exact Hv.
    + injection H as <- <-. apply deleteRow_cases in E.
      destruct E as [([=] & _)|(_ & O0)].
      exists (fc_rows t0). rewrite with_rows_same, O0, insert_id by exact Ht.
      split; [reflexivity|]. split; [auto|discriminate].
Qed.

(** X19: under every schedule, [truncate_then_append] touches the
    target only; when it returns the target holds exactly the source
    rows, and when it raises the target holds a part of its old rows,
    never a mixture of old and new rows. *)
Theorem truncate_then_append_outcome (w : World) (src_fc tgt_fc : string)
    (r : Result unit) (w' : World) :
  src_fc <> tgt_fc ->
  truncate_then_append src_fc tgt_fc w = (r, w') ->
  (forall q, q <> tgt_fc -> objects w' !! q = objects w !! q)
  /\ match r with
     | Val _ =>
         exists s t,
           objects w !! src_fc = Some s /\ objects w !! tgt_fc = Some t
           /\ objects w' !! tgt_fc = Some (with_rows (fc_rows s) t)
     | Exc _ =>
         match objects w !! tgt_fc with
         | Some t =>
             exists rows',
               objects w' !! tgt_fc = Some (with_rows rows' t)
               /\ forall x, In x rows' -> In x (fc_rows t)
         | None => objects w' !! tgt_fc = None
         end
     end.
Proof.
  intros Hne H. unfold truncate_then_append in H. unfold bind in H.
  (* the state after the try statement: the target holds a part of its rows,
     none of them if the statement completed *)
  assert (G : forall r0 w0,
             try_except (arcpy_TruncateTable tgt_fc)
               (fun _ => delete_rows_by_cursor tgt_fc) w = (r0, w0) ->
             (exists e, r0 = Exc e) /\ objects w !! tgt_fc = None /\ objects w0 = objects w
             \/ exists t rows',
                  objects w !! tgt_fc = Some t
                  /\ objects w0 = <[tgt_fc := with_rows rows' t]> (objects w)
                  /\ (forall x, In x rows' -> In x (fc_rows t))
                  /\ (r0 = Val tt -> rows' = [])).
  { intros r0 w0 H0. unfold try_except in H0.
    destruct (arcpy_TruncateTable tgt_fc w) as [[[]|e] wt] eqn:Et.
    - injection H0 as <- <-. apply TruncateTable_cases in Et.
      destruct Et as [(_ & fc & Hfc & Ot)|((e & [=]) & _)].
      right. exists fc, []. repeat split; auto. intros x [].
    - apply TruncateTable_cases in Et. destruct Et as [([=] & _)|(_ & Ot)].
      unfold delete_rows_by_cursor, bind in H0.
      destruct (arcpy_UpdateCursor tgt_fc wt) as [[cur|e'] wc] eqn:Ec.
      + apply UpdateCursor_cases in Ec. destruct Ec as [Oc Hcur].
        destruct (Hcur cur eq_refl) as (fc & Hfc & ->).
        rewrite Ot in Hfc.
        destruct (delete_rows_outcome tgt_fc (fc_rows fc) wc fc r0 w0)
          as (rows' & O0 & Hin & Hv); [now rewrite Oc, Ot|exact H0|].
        right. exists fc, rows'. rewrite O0, Oc, Ot. repeat split; auto.
        intros Hr. rewrite (Hv Hr). apply delete_all_self.
      + injection H0 as <- <-. apply UpdateCursor_cases in Ec. destruct Ec as [Oc _].
        destruct (objects w !! tgt_fc) as [t|] eqn:Ht.
        * right. exists t, (fc_rows t). rewrite with_rows_same, Oc, Ot.
          rewrite insert_id by exact Ht. repeat split; auto. discriminate.
        * left. split; [eauto|]. split; [reflexivity|]. now rewrite Oc, Ot. }
  destruct (try_except _ _ w) as [r0 w0] eqn:E0.
  destruct (G r0 w0 eq_refl) as [((e & ->) & Hnone & O0)|(t & rows' & Ht & O0 & Hin & Hv)].
  - injection H as <- <-. rewrite O0, Hnone. auto.
  - rewrite Ht. destruct r0 as [[]|e].
    + rewrite (Hv eq_refl) in O0.
      destruct (arcpy_Append src_fc tgt_fc w0) as [ra wa] eqn:Ea.
      injection H as <- <-. apply Append_cases in Ea.
      destruct Ea as [(-> & s & t' & Hs & Ht' & Oa)|((e & ->) & Oa)].
      * rewrite O0, lookup_insert_ne in Hs by congruence.
        rewrite O0, lookup_insert_eq in Ht'. injection Ht' as <-.
        split.
        { intros q Hq. rewrite Oa, O0, !lookup_insert_ne by congruence. reflexivity. }
        exists s, t. repeat split; auto.
        rewrite Oa. cbn [fc_rows with_rows app]. apply lookup_insert_eq.
      * split.
        { intros q Hq. rewrite Oa, O0, lookup_insert_ne by congruence. reflexivity. }
        exists []. rewrite Oa, O0, lookup_insert_eq. split; [reflexivity|intros x []].
    + injection H as <- <-. split.
      { intros q Hq. rewrite O0, lookup_insert_ne by congruence. reflexivity. }
      exists rows'. rewrite O0, lookup_insert_eq. auto.
Qed.

Lemma truncate_then_append_outcome_witness :
  exists w',
    objects w' !! ex_join ex_sde "A" = Some (with_rows [] ex_target)
    /\ objects w' !! "url1" = Some ex_service.
Proof.
  destruct (truncate_then_append "url1" (ex_join ex_sde "A")
              (ex_world ex_target ex_append_fails)) as [[[]|e] w'] eqn:E;
    [vm_compute in E; discriminate E|].
  assert (Hne : "url1" <> ex_join ex_sde "A") by discriminate.
  destruct (truncate_then_append_outcome _ _ _ _ _ Hne E) as [Hq Ht].
  exists w'. split.
  - vm_compute in E. injection E as _ <-. vm_compute. reflexivity.
  - rewrite Hq by discriminate. reflexivity.
Defined.

(* ===================================================================== *)
(** * Further properties: the start of a run *)
(* ===================================================================== *)

Section RunStart.

Variable path_join : string -> string -> string.
Variable reproject : Row -> Row.
Variable script_dir : string.
Variable ALLOWED_EXTRA : list string.


(** [open_sde] never touches catalogue or print-out, and returns only
  when something exists at the connection file. *)
Lemma open_sde_world w r w' :
open_sde path_join script_dir SDE_FILENAME w = (r, w') ->
objects w' = objects w /\ out w' = out w.
Proof.
unfold open_sde. cbv zeta.
unfold bind at 1, arcpy_Exists, bind at 1, engine_call.
destruct (faults w (clock w) _); [intros [= <- <-]; auto|].
match goal with |- context [negb ?b] => destruct b end; cbn [negb];
  [|intros [= <- <-]; auto].
unfold bind, arcpy_ListFeatureClasses, engine_call.
cbn [faults clock with_clock with_env_workspace].
destruct (faults w (S (clock w)) OpListFeatureClasses); intros [= <- <-]; auto.
Qed.

Lemma open_sde_run_inv w p w' :
open_sde path_join script_dir SDE_FILENAME w = (Val p, w') ->
objects w' = objects w /\ out w' = out w
/\ exists_at w (path_join script_dir SDE_FILENAME) = true.
Proof.
intros H. pose proof (open_sde_world _ _ _ H) as [Ho Hout].
split; [exact Ho|]. split; [exact Hout|].
unfold open_sde in H. cbv zeta in H.
unfold bind at 1, arcpy_Exists, bind at 1, engine_call in H.
destruct (faults w (clock w) _); [discriminate|].
change (exists_at (with_clock (S (clock w)) w) (path_join script_dir SDE_FILENAME))
  with (exists_at w (path_join script_dir SDE_FILENAME)) in H.
destruct (exists_at w (path_join script_dir SDE_FILENAME)); [reflexivity|discriminate].
Qed.


(** X21: configuration and workspace errors are fatal before any pair:
  when conf.py holds no mapping or an empty one, or nothing exists at
  the connection file, [main] raises under every schedule, having
  changed no catalogue object and printed nothing. *)
Theorem main_stops_before_any_pair (conf : option (PyDict.dict string)) (w : World) :
conf = None \/ conf = Some []
\/ exists_at w (path_join script_dir SDE_FILENAME) = false ->
exists e w',
  main path_join reproject script_dir ALLOWED_EXTRA conf w = (Exc e, w')
  /\ objects w' = objects w /\ out w' = out w.
Proof.
intros H. unfold main.
destruct conf as [[|kv rest]|].
- eexists _, _. split; [reflexivity|]. auto.
- destruct H as [H|[H|H]]; [discriminate H|discriminate H|].
  unfold load_conf. unfold bind at 1, ret. unfold bind at 1.
  destruct (open_sde path_join script_dir SDE_FILENAME w) as [[p|e] w1] eqn:E.
  + apply open_sde_run_inv in E. destruct E as (_ & _ & Hex). congruence.
  + apply open_sde_world in E. exists e, w1. tauto.
- eexists _, _. split; [reflexivity|]. auto.
Qed.

End RunStart.


Lemma main_stops_before_any_pair_witness :
  exists e w',
    main ex_join (fun r => r) "C:\elsewhere" ALLOWED_EXTRA_IN_TARGET
      (Some SERVICE_TO_TARGET) (ex_world ex_target (fun _ _ => false)) = (Exc e, w')
    /\ out w' = [].
Proof.
  destruct (main_stops_before_any_pair ex_join (fun r => r) "C:\elsewhere"
              ALLOWED_EXTRA_IN_TARGET (Some SERVICE_TO_TARGET)
              (ex_world ex_target (fun _ _ => false)))
    as (e & w' & R & _ & Ho); [right; right; reflexivity|].
  exists e, w'. split; [exact R|exact Ho].
Defined.

(* ===================================================================== *)
(** * Further properties: what one pair can change *)
(* ===================================================================== *)

Section PairFrame.

Ltac touches_put p :=
apply touches_bind; [apply touches_engine_call|];
intros _ w; cbv beta iota zeta delta [bind get_objects put_objects raise ret];
repeat match goal with
       | |- context [match objects w !! ?k with _ => _ end] =>
           destruct (objects w !! k)
       end;
cbn [snd objects out faults with_objects];
repeat split; auto;
intros q Hq; apply lookup_insert_ne; intros ->; apply Hq; simpl; auto.

Lemma touches_TruncateTable ps p : In p ps -> touches ps (arcpy_TruncateTable p).
Proof.
intros Hp. apply (touches_weaken [p]); [now intros q [<-|[]]|].
unfold arcpy_TruncateTable. cbv zeta. touches_put p.
Qed.

Lemma touches_Append ps src tgt : In tgt ps -> touches ps (arcpy_Append src tgt).
Proof.
intros Hp. apply (touches_weaken [tgt]); [now intros q [<-|[]]|].
unfold arcpy_Append. cbv zeta. touches_put tgt.
Qed.

Lemma touches_deleteRow ps p r : In p ps -> touches ps (cursor_deleteRow p r).
Proof.
intros Hp. apply (touches_weaken [p]); [now intros q [<-|[]]|].
unfold cursor_deleteRow. cbv zeta. touches_put p.
Qed.

Lemma touches_UpdateCursor ps p : touches ps (arcpy_UpdateCursor p).
Proof.
apply (touches_weaken []); [now intros q []|].
unfold arcpy_UpdateCursor. cbv zeta.
apply touches_bind; [apply touches_engine_call|].
intros _ w. cbv beta iota zeta delta [bind get_objects raise ret].
destruct (objects w !! p); simpl; auto.
Qed.

Lemma touches_truncate_then_append ps src tgt :
In tgt ps -> touches ps (truncate_then_append src tgt).
Proof.
intros Hp. unfold truncate_then_append, delete_rows_by_cursor.
apply touches_bind; [|intros _; now apply touches_Append].
apply touches_try_except; [now apply touches_TruncateTable|].
intros _. apply touches_bind; [apply touches_UpdateCursor|].
intros cur. apply touches_for_each. intros r _. now apply touches_deleteRow.
Qed.

Variable path_join : string -> string -> string.
Variable reproject : Row -> Row.
Variable ALLOWED_EXTRA : list string.

Lemma touches_Project ps src out_path :
In out_path ps -> touches ps (arcpy_Project reproject src out_path).
Proof.
intros Hp. unfold arcpy_Project. cbv zeta.
apply touches_bind; [apply touches_engine_call|].
intros _ w. cbv beta iota delta [bind get_objects].
destruct (objects w !! src); [|simpl; auto].
now apply touches_create_object.
Qed.

Lemma touches_export_rows ps url :
In (path_join "in_memory" "src_rows") ps -> touches ps (export_rows path_join url).
Proof.
intros Hp. unfold export_rows. cbv zeta.
apply touches_bind; [now apply touches_delete_if_exists|]. intros _.
apply touches_bind; [now apply touches_FeatureClassToFeatureClass|]. intros _.
apply touches_ret.
Qed.

Lemma touches_project_to_wgs ps in_fc :
In (path_join "in_memory" "src_rows_wgs84") ps ->
touches ps (project_to_wgs path_join reproject in_fc).
Proof.
intros Hp. unfold project_to_wgs.
apply touches_bind; [apply touches_Describe|]. intros d.
destruct (wkid_eq_4326 (sr_wkid d)); [apply touches_ret|]. cbv zeta.
apply touches_bind; [now apply touches_delete_if_exists|]. intros _.
apply touches_bind; [now apply touches_Project|]. intros _.
apply touches_ret.
Qed.

Lemma touches_create_new_table_with_rows ps cw name rows :
In (path_join cw name) ps ->
touches ps (create_new_table_with_rows path_join cw name rows).
Proof.
intros Hp. unfold create_new_table_with_rows. cbv zeta.
apply touches_bind; [now apply touches_delete_if_exists|]. intros _.
apply touches_bind; [now apply touches_FeatureClassToFeatureClass|]. intros _.
apply touches_ret.
Qed.


Lemma split_target_join sde_ws target_str :
snd (split_target path_join sde_ws target_str)
= path_join (fst (fst (split_target path_join sde_ws target_str)))
    (snd (fst (split_target path_join sde_ws target_str))).
Proof.
unfold split_target.
now destruct (PyStr.split_dot (PyStr.strip target_str)) as [[ds fc]|].
Qed.

(** The paths the helpers return. *)
Lemma bind_val_inv {S A B} (c : M S A) (k : A -> M S B) s b s' :
bind c k s = (Val b, s') ->
exists a s1, c s = (Val a, s1) /\ k a s1 = (Val b, s').
Proof.
unfold bind. destruct (c s) as [[a|e] s1]; [eauto|discriminate].
Qed.

Lemma make_schema_only_source_returns url w p w' :
make_schema_only_source path_join url w = (Val p, w') ->
p = path_join "in_memory" "src_schema_tmp".
Proof.
unfold make_schema_only_source. cbv zeta. intros H.
repeat (apply bind_val_inv in H; destruct H as (? & ? & _ & H)).
now injection H as <- _.
Qed.

Lemma export_rows_returns url w p w' :
export_rows path_join url w = (Val p, w') ->
p = path_join "in_memory" "src_rows".
Proof.
unfold export_rows. cbv zeta. intros H.
repeat (apply bind_val_inv in H; destruct H as (? & ? & _ & H)).
now injection H as <- _.
Qed.

Lemma project_to_wgs_returns in_fc w p w' :
project_to_wgs path_join reproject in_fc w = (Val p, w') ->
p = in_fc \/ p = path_join "in_memory" "src_rows_wgs84".
Proof.
unfold project_to_wgs. intros H.
apply bind_val_inv in H. destruct H as (d & w1 & _ & H).
destruct (wkid_eq_4326 (sr_wkid d)).
- injection H as <- _. now left.
- cbv zeta in H.
  repeat (apply bind_val_inv in H; destruct H as (? & ? & _ & H)).
  injection H as <- _. now right.
Qed.

Section Combinators.

Variable ps : list string.

Lemma fk_conseq {A} (c : M Frame A) (Q R : A -> Prop) :
frame_keeps ps c Q -> (forall a, Q a -> R a) -> frame_keeps ps c R.
Proof.
intros H HQ fr Hl. destruct (H fr Hl) as (H1 & H2 & H3). auto.
Qed.

Lemma fk_ret {A} (a : A) (Q : A -> Prop) : Q a -> frame_keeps ps (ret a) Q.
Proof. intros HQ fr Hl. cbn. repeat split; auto. now intros ? [= <-]. Qed.

Lemma fk_bind {A B} (c : M Frame A) (k : A -> M Frame B) Q R :
frame_keeps ps c Q -> (forall a, Q a -> frame_keeps ps (k a) R) ->
frame_keeps ps (bind c k) R.
Proof.
intros Hc Hk fr Hl. unfold bind. destruct (Hc fr Hl) as (H1 & H2 & H3).
destruct (c fr) as [[a|e] fr1]; cbn [fst snd] in *.
- destruct (Hk a (H3 a eq_refl) fr1 H1) as (K1 & K2 & K3).
  split; [exact K1|]. split; [|exact K3].
  intros q Hq. rewrite K2 by exact Hq. now apply H2.
- split; [exact H1|]. split; [exact H2|discriminate].
Qed.

Lemma fk_try_except {A} (c : M Frame A) (h : Exn -> M Frame A) Q :
frame_keeps ps c Q -> (forall e, frame_keeps ps (h e) Q) ->
frame_keeps ps (try_except c h) Q.
Proof.
intros Hc Hh fr Hl. unfold try_except. destruct (Hc fr Hl) as (H1 & H2 & H3).
destruct (c fr) as [[a|e] fr1]; cbn [fst snd] in *.
- split; [exact H1|]. split; [exact H2|exact H3].
- destruct (Hh e fr1 H1) as (K1 & K2 & K3).
  split; [exact K1|]. split; [|exact K3].
  intros q Hq. rewrite K2 by exact Hq. now apply H2.
Qed.

Lemma fk_try_finally {A} (c : M Frame A) (fin : M Frame unit) Q R :
frame_keeps ps c Q -> frame_keeps ps fin R ->
frame_keeps ps (try_finally c fin) (fun _ => True).
Proof.
intros Hc Hf fr Hl. unfold try_finally. destruct (Hc fr Hl) as (H1 & H2 & _).
destruct (c fr) as [r fr1]; cbn [fst snd] in *.
destruct (Hf fr1 H1) as (K1 & K2 & _).
destruct (fin fr1) as [[[]|e] fr2]; cbn [fst snd] in *;
  (split; [exact K1|]; split; [|auto];
   intros q Hq; rewrite K2 by exact Hq; now apply H2).
Qed.

Lemma fk_lift {A} (c : M World A) (Q : A -> Prop) :
touches ps c -> (forall w a w', c w = (Val a, w') -> Q a) ->
frame_keeps ps (lift c) Q.
Proof.
intros Ht HQ fr Hl. unfold lift. destruct (Ht (fr_world fr)) as (_ & _ & Hq).
destruct (c (fr_world fr)) as [r w1] eqn:E. cbn [fst snd fr_world] in *.
split; [exact Hl|]. split; [exact Hq|].
intros a ->. eapply HQ. exact E.
Qed.

Lemma fk_lift_any {A} (c : M World A) :
touches ps c -> frame_keeps ps (lift c) (fun _ => True).
Proof. intros Ht. apply fk_lift; auto. Qed.

Lemma fk_print e : frame_keeps ps (lift (print e)) (fun _ => True).
Proof. intros fr Hl. cbn. repeat split; auto. Qed.

Lemma fk_set_src_schema p :
In p ps -> frame_keeps ps (set_src_schema p) (fun _ => True).
Proof.
intros Hp fr Hl. cbn. repeat split; auto.
intros q [[= <-]|Hq]; [exact Hp|]. apply Hl. simpl in *. tauto.
Qed.

Lemma fk_set_rows_native p :
In p ps -> frame_keeps ps (set_rows_native p) (fun _ => True).
Proof.
intros Hp fr Hl. cbn. repeat split; auto.
intros q [Hq|[[= <-]|Hq]]; [|exact Hp|]; apply Hl; simpl in *; tauto.
Qed.

Lemma fk_set_rows_wgs p :
In p ps -> frame_keeps ps (set_rows_wgs p) (fun _ => True).
Proof.
intros Hp fr Hl. cbn. repeat split; auto.
intros q [Hq|[Hq|[[= <-]|[]]]]; [| |exact Hp]; apply Hl; simpl in *; tauto.
Qed.

End Combinators.

(** The whole [try] block of a pair, every branch. *)
Lemma fk_process_pair_try ps url cw bn bp :
In bp ps -> In (path_join cw bn) ps -> In "tmp_schema_lyr" ps ->
(forall q, In q (scratch_paths path_join) -> In q ps) ->
frame_keeps ps
  (process_pair_try path_join reproject ALLOWED_EXTRA url cw bn bp)
  (fun _ => True).
Proof.
intros Hbp Hcb Htmp Hsc.
assert (H1 : In (path_join "in_memory" "src_schema_tmp") ps)
  by (apply Hsc; simpl; auto).
assert (H2 : In (path_join "in_memory" "src_rows") ps)
  by (apply Hsc; simpl; auto).
assert (H3 : In (path_join "in_memory" "src_rows_wgs84") ps)
  by (apply Hsc; simpl; auto).
assert (Kmk : frame_keeps ps (lift (make_schema_only_source path_join url))
                (fun p => In p ps)).
{ apply fk_lift; [now apply touches_make_schema_only_source|].
  intros w p w' E. now rewrite (make_schema_only_source_returns _ _ _ _ E). }
assert (Kex : frame_keeps ps (lift (export_rows path_join url)) (fun p => In p ps)).
{ apply fk_lift; [now apply touches_export_rows|].
  intros w p w' E. now rewrite (export_rows_returns _ _ _ _ E). }
assert (Kpr : forall rn, In rn ps ->
                frame_keeps ps (lift (project_to_wgs path_join reproject rn))
                  (fun p => In p ps)).
{ intros rn Hrn. apply fk_lift; [now apply touches_project_to_wgs|].
  intros w p w' E. destruct (project_to_wgs_returns _ _ _ _ E) as [->| ->]; auto. }
assert (Kcount : forall (p : string) (e1 : nat -> Event) (h : M World unit),
                   touches ps h \/ (exists e, h = print e) ->
                   frame_keeps ps
                     (lift (try_except
                              (cnt <- arcpy_GetCount p;; print (e1 cnt))%py
                              (fun _ => h)))
                     (fun _ => True)).
{ intros p e1 h Hh fr Hl. unfold lift, try_except, bind.
  destruct (touches_GetCount ps p (fr_world fr)) as (_ & _ & Hq).
  destruct (arcpy_GetCount p (fr_world fr)) as [[n|e] w1]; cbn [snd] in Hq.
  - cbn. repeat split; auto.
  - destruct Hh as [Hh|(e0 & ->)].
    + destruct (Hh w1) as (_ & _ & Hq'). destruct (h w1) as [r w2].
      cbn [fst snd fr_world] in *. repeat split; auto.
      intros q Hn. rewrite Hq' by exact Hn. now apply Hq.
    + cbn. repeat split; auto. }
unfold process_pair_try.
eapply fk_bind; [exact Kmk|]. intros p Hp.
eapply fk_bind; [now apply fk_set_src_schema|]. intros _ _.
eapply fk_bind; [apply fk_lift_any, touches_Exists|]. intros ex _.
destruct (negb ex).
- eapply fk_bind; [apply fk_print|]. intros _ _.
  eapply fk_bind; [exact Kex|]. intros rn Hrn.
  eapply fk_bind; [now apply fk_set_rows_native|]. intros _ _.
  eapply fk_bind; [now apply Kpr|]. intros rw Hrw.
  eapply fk_bind; [now apply fk_set_rows_wgs|]. intros _ _.
  eapply fk_bind;
    [apply fk_lift_any; now apply touches_create_new_table_with_rows|].
  intros created _. apply Kcount. right. eauto.
- eapply fk_bind; [exact Kmk|]. intros p' Hp'.
  eapply fk_bind; [now apply fk_set_src_schema|]. intros _ _.
  eapply fk_bind; [apply fk_lift_any, touches_schema_equal|]. intros same _.
  destruct (negb same).
  + eapply fk_bind; [apply fk_lift_any, touches_schema_compare_details|].
    intros det _. apply fk_print.
  + eapply fk_bind; [exact Kex|]. intros rn Hrn.
    eapply fk_bind; [now apply fk_set_rows_native|]. intros _ _.
    eapply fk_bind; [now apply Kpr|]. intros rw Hrw.
    eapply fk_bind; [now apply fk_set_rows_wgs|]. intros _ _.
    eapply fk_bind; [apply fk_print|]. intros _ _.
    eapply fk_bind;
      [apply fk_lift_any; now apply touches_truncate_then_append|].
    intros _ _. apply (Kcount bp (fun cnt => PrintSyncComplete cnt bp)).
    left. apply touches_ret.
Qed.

Lemma fk_process_pair_finally ps :
(forall q, In q (scratch_paths path_join) -> In q ps) ->
frame_keeps ps (process_pair_finally path_join) (fun _ => True).
Proof.
intros Hsc fr Hl. unfold process_pair_finally, bind, get_frame, lift.
set (l := [src_schema fr; _; _; _; _; _]).
assert (Hin : forall q, In (Some q) l -> In q ps).
{ intros q Hq. subst l.
  destruct Hq as [Hq|[Hq|[Hq|Hq]]]; [apply Hl; simpl; auto ..|].
  apply Hsc. unfold scratch_paths. simpl in Hq. simpl. intuition congruence. }
destruct (touches_cleanup l ps Hin (fr_world fr)) as (_ & _ & Hq).
destruct (for_each l cleanup_one (fr_world fr)) as [r w1].
cbn [fst snd fr_world] in *. repeat split; auto.
Qed.

(** X22: under every schedule, [process_pair] changes no catalogue
  object other than its own target, the temporary layer and the
  three scratch feature classes: the other targets of the batch and
  the sources are left exactly as they were. *)
Theorem process_pair_changes_only_its_target
  (service_url target_str sde_ws : string) (w : World) (q : string) :
~ In q (snd (split_target path_join sde_ws target_str)
          :: "tmp_schema_lyr" :: scratch_paths path_join) ->
objects (snd (process_pair path_join reproject ALLOWED_EXTRA
                service_url target_str sde_ws w)) !! q
= objects w !! q.
Proof.
rewrite process_pair_unfold.
pose proof (split_target_join sde_ws target_str) as Hj.
destruct (split_target path_join sde_ws target_str) as [[cw bn] bp].
cbn [snd fst] in *. intros Hq.
set (ps := bp :: "tmp_schema_lyr" :: scratch_paths path_join) in *.
assert (Hsc : forall p, In p (scratch_paths path_join) -> In p ps)
  by (intros p Hp; right; right; exact Hp).
pose proof (fk_try_finally ps _ _ _ (fun _ => True)
              (fk_try_except ps _ _ _
                 (fk_process_pair_try ps service_url cw bn bp
                    (or_introl eq_refl) ltac:(rewrite <- Hj; now left)
                    (or_intror (or_introl eq_refl)) Hsc)
                 (fun e => fk_bind ps _ _ _ _ (fk_print ps (PrintFailed e))
                             (fun _ _ => fk_print ps PrintMessages)))
              (fk_process_pair_finally ps Hsc)
              (pair_start w service_url bp)) as (_ & Hk & _).
{ intros p. simpl. intuition discriminate. }
destruct (try_finally _ _ (pair_start w service_url bp)) as [r fr].
cbn [snd] in *. now apply Hk.
Qed.

End PairFrame.

Lemma process_pair_changes_only_its_target_witness :
  objects (snd (process_pair ex_join (fun r => r) ALLOWED_EXTRA_IN_TARGET
                  "url2" "B" ex_sde (ex_world ex_target ex_append_fails)))
    !! ex_join ex_sde "A"
  = Some ex_target.
Proof.
  rewrite (process_pair_changes_only_its_target ex_join (fun r => r)
             ALLOWED_EXTRA_IN_TARGET "url2" "B" ex_sde).
  - reflexivity.
  - simpl. intuition discriminate.
Defined.

(* ===================================================================== *)
(** * Further properties: one pair from end to end, no engine failure *)
(* ===================================================================== *)

Section PairEndToEnd.

Lemma reach_refl w : reach w w (objects w) [].
Proof. unfold reach. rewrite app_nil_r. auto. Qed.

Lemma reach_step w w1 w2 o1 o2 l :
reach w w1 o1 l -> engine_step w1 w2 o2 -> reach w w2 o2 l.
Proof.
intros (_ & F1 & O1 & W1) (H2 & F2 & O2 & _ & W2).
unfold reach. rewrite F2, O2. auto 6.
Qed.

Lemma reach_clock w w1 o l n : reach w w1 o l -> reach w (with_clock n w1) o l.
Proof. intros (H1 & F1 & O1 & W1). unfold reach. cbn. auto. Qed.

Lemma reach_print w w1 o l e :
reach w w1 o l -> reach w (with_out (out w1 ++ [e]) w1) o (l ++ [e]).
Proof.
intros (H1 & F1 & O1 & W1). unfold reach. cbn. rewrite O1, app_assoc. auto.
Qed.

Lemma reach_faultless w w1 o l : reach w w1 o l -> faultless w -> faultless w1.
Proof. intros (_ & F1 & _) FL n op. rewrite F1. apply FL. Qed.

Lemma reach_absent w w1 o l p :
reach w w1 o l -> o !! p = None -> exists_at w p = false -> exists_at w1 p = false.
Proof.
intros (H1 & _ & _ & W1) Ho Hex. unfold exists_at in *.
apply orb_false_iff in Hex. destruct Hex as [_ Hm].
apply orb_false_iff. split.
- apply bool_decide_eq_false. rewrite H1, Ho. now intros [x Hx].
- apply mem_false. intros Hin. apply mem_false in Hm. auto.
Qed.

Lemma set_src_schema_bind {B} p (k : unit -> M Frame B) W ss rn rw :
bind (set_src_schema p) k
  {| fr_world := W; src_schema := ss; rows_native := rn; rows_wgs := rw |}
= k tt {| fr_world := W; src_schema := Some p; rows_native := rn; rows_wgs := rw |}.
Proof. reflexivity. Qed.

Lemma set_rows_native_bind {B} p (k : unit -> M Frame B) W ss rn rw :
bind (set_rows_native p) k
  {| fr_world := W; src_schema := ss; rows_native := rn; rows_wgs := rw |}
= k tt {| fr_world := W; src_schema := ss; rows_native := Some p; rows_wgs := rw |}.
Proof. reflexivity. Qed.

Lemma set_rows_wgs_bind {B} p (k : unit -> M Frame B) W ss rn rw :
bind (set_rows_wgs p) k
  {| fr_world := W; src_schema := ss; rows_native := rn; rows_wgs := rw |}
= k tt {| fr_world := W; src_schema := ss; rows_native := rn; rows_wgs := Some p |}.
Proof. reflexivity. Qed.

Lemma print_bind {B} e (k : unit -> M Frame B) W ss rn rw :
bind (lift (print e)) k
  {| fr_world := W; src_schema := ss; rows_native := rn; rows_wgs := rw |}
= k tt {| fr_world := with_out (out W ++ [e]) W; src_schema := ss;
          rows_native := rn; rows_wgs := rw |}.
Proof. reflexivity. Qed.

Lemma schema_equal_ok w src tgt allowed s t :
faultless w -> objects w !! src = Some s -> objects w !! tgt = Some t ->
schema_equal src tgt allowed w
= (Val (schema_passes s t allowed), with_clock (S (S (clock w))) w).
Proof.
intros FL Hs Ht. unfold schema_equal, bind.
now rewrite (schema_compare_details_run w src tgt allowed s t Hs Ht (FL _ _) (FL _ _)).
Qed.

Lemma truncate_then_append_ok w src tgt s t :
faultless w -> objects w !! src = Some s -> objects w !! tgt = Some t ->
src <> tgt ->
exists w', truncate_then_append src tgt w = (Val tt, w')
           /\ engine_step w w' (<[tgt := with_rows (fc_rows s) t]> (objects w)).
Proof.
intros FL Hs Ht Hne. unfold truncate_then_append, bind, try_except.
rewrite (TruncateTable_run w tgt t Ht (FL _ _)).
set (w1 := with_objects _ _).
assert (Hs1 : objects w1 !! src = Some s)
  by (subst w1; cbn; now rewrite lookup_insert_ne by congruence).
assert (Ht1 : objects w1 !! tgt = Some (with_rows [] t))
  by (subst w1; cbn; now rewrite lookup_insert_eq).
rewrite (Append_run w1 src tgt s _ Hs1 Ht1 (FL _ _)).
eexists. split; [reflexivity|]. subst w1. unfold engine_step. cbn.
rewrite insert_insert_eq. repeat split; auto.
Qed.

Lemma staged_rows reproject svc :
length (fc_rows (staged reproject svc)) = length (fc_rows svc).
Proof.
unfold staged. destruct (wkid_eq_4326 (sr_wkid svc)); [reflexivity|].
cbn. apply length_map.
Qed.

Variable path_join : string -> string -> string.
Variable reproject : Row -> Row.
Variable ALLOWED_EXTRA : list string.

Local Abbreviation s1 := (path_join "in_memory" "src_schema_tmp").
Local Abbreviation s2 := (path_join "in_memory" "src_rows").
Local Abbreviation s3 := (path_join "in_memory" "src_rows_wgs84").

Lemma paths_apart_ne url bp :
paths_apart path_join url bp ->
(url <> bp /\ url <> "tmp_schema_lyr" /\ url <> s1 /\ url <> s2 /\ url <> s3)
/\ (bp <> "tmp_schema_lyr" /\ bp <> s1 /\ bp <> s2 /\ bp <> s3)
/\ ("tmp_schema_lyr" <> s1 /\ "tmp_schema_lyr" <> s2 /\ "tmp_schema_lyr" <> s3)
/\ (s1 <> s2 /\ s1 <> s3 /\ s2 <> s3).
Proof.
unfold paths_apart, scratch_paths. intros H.
repeat match goal with
       | H : NoDup (_ :: _) |- _ =>
           apply List.NoDup_cons_iff in H; destruct H as [? H]
       end.
cbn [In] in *. repeat split; intros E; rewrite ?E in *; tauto.
Qed.

(** The locals stay within the scratch paths, and the target is none
  of them. *)
Lemma pair_finish url tgt sde_ws w fr' :
let bp := snd (split_target path_join sde_ws tgt) in
process_pair_try path_join reproject ALLOWED_EXTRA url
  (fst (fst (split_target path_join sde_ws tgt)))
  (snd (fst (split_target path_join sde_ws tgt))) bp (pair_start w url bp)
= (Val tt, fr') ->
locals_within (scratch_paths path_join) fr' ->
~ In bp (scratch_paths path_join) ->
exists w',
  process_pair path_join reproject ALLOWED_EXTRA url tgt sde_ws w = (Val tt, w')
  /\ objects w' !! bp = objects (fr_world fr') !! bp
  /\ out w' = out (fr_world fr').
Proof.
intros bp. subst bp. rewrite process_pair_unfold.
destruct (split_target path_join sde_ws tgt) as [[cw bn] bp]. cbn [fst snd].
intros E Hl Hn. unfold try_finally, try_except. rewrite E.
destruct (process_pair_finally_run path_join fr') as (fr2 & Ef & Ho).
destruct (fk_process_pair_finally path_join (scratch_paths path_join)
            (fun q H => H) fr' Hl) as (_ & Hk & _).
rewrite Ef in *. cbn [snd] in Hk.
eexists. split; [reflexivity|]. split; [now apply Hk|exact Ho].
Qed.

Ltac lk :=
repeat first [ rewrite lookup_insert_eq
             | rewrite lookup_insert_ne by congruence
             | rewrite lookup_delete_ne by congruence
             | rewrite lookup_delete_eq ].

Lemma try_create url cw bn W svc :
let bp := path_join cw bn in
faultless W -> paths_apart path_join url bp ->
objects W !! url = Some svc -> exists_at W bp = false ->
exists fr',
  process_pair_try path_join reproject ALLOWED_EXTRA url cw bn bp
    {| fr_world := W; src_schema := None; rows_native := None; rows_wgs := None |}
  = (Val tt, fr')
  /\ objects (fr_world fr') !! bp = Some (staged reproject svc)
  /\ out (fr_world fr')
     = out W ++ [PrintCreating; PrintCreated bp (length (fc_rows svc))]
  /\ locals_within (scratch_paths path_join) fr'.
Proof.
intros bp0 FL PA Hurl Hex. subst bp0.
destruct (paths_apart_ne _ _ PA)
  as ((U1 & U2 & U3 & U4 & U5) & (B1 & B2 & B3 & B4) & (T1 & T2 & T3) & (P1 & P2 & P3)).
assert (Hbp0 : objects W !! (path_join cw bn) = None).
{ unfold exists_at in Hex. apply orb_false_iff in Hex. destruct Hex as [Hex _].
  apply bool_decide_eq_false in Hex. now apply eq_None_not_Some. }
unfold process_pair_try.
(* schema-only staging *)
destruct (make_schema_only_source_ok path_join W url svc FL Hurl U2 U3
            ltac:(congruence)) as (w1 & E1 & S1).
rewrite (lift_bind_val_at _ _ _ _ _ _ _ _ E1), set_src_schema_bind.
pose proof (reach_step _ _ _ _ _ _ (reach_refl W) S1) as R1.
pose proof (reach_faultless _ _ _ _ R1 FL) as FL1.
assert (Hex1 : exists_at w1 (path_join cw bn) = false).
{ eapply reach_absent; [exact R1| |exact Hex]. now lk. }
rewrite (lift_bind_val_at _ _ _ _ _ _ _ _ (Exists_ok w1 (path_join cw bn) FL1)), Hex1.
cbn [negb]. rewrite print_bind.
apply (reach_clock _ _ _ _ (S (clock w1))) in R1.
apply (reach_print _ _ _ _ PrintCreating) in R1.
match type of R1 with reach _ ?w _ _ => set (w2 := w) in * end.
pose proof (reach_faultless _ _ _ _ R1 FL) as FL2.
(* export *)
assert (Hu2 : objects w2 !! url = Some svc)
  by (rewrite (proj1 R1); now lk).
destruct (export_rows_ok path_join w2 url svc FL2 Hu2 U4) as (w3 & E3 & S3).
rewrite (lift_bind_val_at _ _ _ _ _ _ _ _ E3), set_rows_native_bind.
pose proof (reach_step _ _ _ _ _ _ R1 S3) as R3. rewrite (proj1 R1) in R3.
pose proof (reach_faultless _ _ _ _ R3 FL) as FL3.
(* projection *)
assert (Hs3 : objects w3 !! s2 = Some svc)
  by (rewrite (proj1 R3); now lk).
destruct (project_to_wgs_ok path_join reproject w3 s2 svc FL3 Hs3 P3)
  as (w4 & [(Hw & E4 & S4)|(Hw & E4 & S4)]);
  rewrite (lift_bind_val_at _ _ _ _ _ _ _ _ E4), set_rows_wgs_bind;
  pose proof (reach_step _ _ _ _ _ _ R3 S4) as R4; rewrite (proj1 R3) in R4;
  pose proof (reach_faultless _ _ _ _ R4 FL) as FL4.
- assert (Hs4 : objects w4 !! s2 = Some svc) by (rewrite (proj1 R4); now lk).
  destruct (create_new_table_with_rows_ok path_join w4 cw bn s2 svc FL4 Hs4
              ltac:(congruence)) as (w5 & E5 & S5).
  rewrite (lift_bind_val_at _ _ _ _ _ _ _ _ E5).
  pose proof (reach_step _ _ _ _ _ _ R4 S5) as R5. rewrite (proj1 R4) in R5.
  pose proof (reach_faultless _ _ _ _ R5 FL) as FL5.
  assert (Hb5 : objects w5 !! (path_join cw bn) = Some svc)
    by (rewrite (proj1 R5); now lk).
  unfold lift, try_except, bind at 1. cbn [fr_world].
  rewrite (GetCount_ok w5 (path_join cw bn) svc FL5 Hb5). unfold print.
  eexists. split; [reflexivity|]. cbn [fr_world out objects with_out with_clock].
  split; [|split].
  + rewrite Hb5. unfold staged. now rewrite Hw.
  + destruct R5 as (_ & _ & -> & _). now rewrite <- app_assoc.
  + intros q. unfold scratch_paths. cbn. intuition congruence.
- assert (Hs4 : objects w4 !! s3 = Some (projected reproject svc))
    by (rewrite (proj1 R4); now lk).
  destruct (create_new_table_with_rows_ok path_join w4 cw bn s3 _ FL4 Hs4
              ltac:(congruence)) as (w5 & E5 & S5).
  rewrite (lift_bind_val_at _ _ _ _ _ _ _ _ E5).
  pose proof (reach_step _ _ _ _ _ _ R4 S5) as R5. rewrite (proj1 R4) in R5.
  pose proof (reach_faultless _ _ _ _ R5 FL) as FL5.
  assert (Hb5 : objects w5 !! (path_join cw bn) = Some (projected reproject svc))
    by (rewrite (proj1 R5); now lk).
  unfold lift, try_except, bind at 1. cbn [fr_world].
  rewrite (GetCount_ok w5 (path_join cw bn) _ FL5 Hb5). unfold print.
  eexists. split; [reflexivity|]. cbn [fr_world out objects with_out with_clock].
  split; [|split].
  + rewrite Hb5. unfold staged. now rewrite Hw.
  + destruct R5 as (_ & _ & -> & _). cbn [projected fc_rows].
    rewrite length_map. now rewrite <- app_assoc.
  + intros q. unfold scratch_paths. cbn. intuition congruence.
Qed.

Lemma try_sync url cw bn W svc tfc :
faultless W -> paths_apart path_join url (path_join cw bn) ->
objects W !! url = Some svc -> objects W !! path_join cw bn = Some tfc ->
schema_passes (with_rows [] svc) tfc (Some ALLOWED_EXTRA) = true ->
exists fr',
  process_pair_try path_join reproject ALLOWED_EXTRA url cw bn (path_join cw bn)
    {| fr_world := W; src_schema := None; rows_native := None; rows_wgs := None |}
  = (Val tt, fr')
  /\ objects (fr_world fr') !! path_join cw bn
     = Some (with_rows (fc_rows (staged reproject svc)) tfc)
  /\ out (fr_world fr')
     = out W ++ [PrintSchemaMatches;
                 PrintSyncComplete (length (fc_rows svc)) (path_join cw bn)]
  /\ locals_within (scratch_paths path_join) fr'.
Proof.
intros FL PA Hurl Htgt Hpass.
destruct (paths_apart_ne _ _ PA)
  as ((U1 & U2 & U3 & U4 & U5) & (B1 & B2 & B3 & B4) & (T1 & T2 & T3) & (P1 & P2 & P3)).
unfold process_pair_try.
(* schema-only staging, before and after the existence test *)
destruct (make_schema_only_source_ok path_join W url svc FL Hurl U2 U3
            ltac:(congruence)) as (w1 & E1 & S1).
rewrite (lift_bind_val_at _ _ _ _ _ _ _ _ E1), set_src_schema_bind.
pose proof (reach_step _ _ _ _ _ _ (reach_refl W) S1) as R1.
pose proof (reach_faultless _ _ _ _ R1 FL) as FL1.
assert (Hb1 : objects w1 !! path_join cw bn = Some tfc)
  by (rewrite (proj1 R1); now lk).
rewrite (lift_bind_val_at _ _ _ _ _ _ _ _ (Exists_ok w1 _ FL1)),
  (exists_at_Some w1 _ tfc Hb1).
cbn [negb].
apply (reach_clock _ _ _ _ (S (clock w1))) in R1.
match type of R1 with reach _ ?w _ _ => set (w1c := w) in * end.
pose proof (reach_faultless _ _ _ _ R1 FL) as FL1c.
assert (Hu1 : objects w1c !! url = Some svc) by (rewrite (proj1 R1); now lk).
destruct (make_schema_only_source_ok path_join w1c url svc FL1c Hu1 U2 U3
            ltac:(congruence)) as (w2 & E2 & S2).
rewrite (lift_bind_val_at _ _ _ _ _ _ _ _ E2), set_src_schema_bind.
pose proof (reach_step _ _ _ _ _ _ R1 S2) as R2. rewrite (proj1 R1) in R2.
pose proof (reach_faultless _ _ _ _ R2 FL) as FL2.
(* the guard *)
assert (Hs2 : objects w2 !! s1 = Some (with_rows [] svc))
  by (rewrite (proj1 R2); now lk).
assert (Hb2 : objects w2 !! path_join cw bn = Some tfc)
  by (rewrite (proj1 R2); now lk).
rewrite (lift_bind_val_at _ _ _ _ _ _ _ _
           (schema_equal_ok w2 _ _ (Some ALLOWED_EXTRA) _ _ FL2 Hs2 Hb2)), Hpass.
cbn [negb].
apply (reach_clock _ _ _ _ (S (S (clock w2)))) in R2.
match type of R2 with reach _ ?w _ _ => set (w2c := w) in * end.
pose proof (reach_faultless _ _ _ _ R2 FL) as FL2c.
(* export *)
assert (Hu2 : objects w2c !! url = Some svc) by (rewrite (proj1 R2); now lk).
destruct (export_rows_ok path_join w2c url svc FL2c Hu2 U4) as (w3 & E3 & S3).
rewrite (lift_bind_val_at _ _ _ _ _ _ _ _ E3), set_rows_native_bind.
pose proof (reach_step _ _ _ _ _ _ R2 S3) as R3. rewrite (proj1 R2) in R3.
pose proof (reach_faultless _ _ _ _ R3 FL) as FL3.
(* projection *)
assert (Hs3 : objects w3 !! s2 = Some svc) by (rewrite (proj1 R3); now lk).
assert (Hstaged : exists rw w4 o4,
           project_to_wgs path_join reproject s2 w3 = (Val rw, w4)
           /\ reach W w4 o4 []
           /\ o4 !! rw = Some (staged reproject svc)
           /\ o4 !! path_join cw bn = Some tfc
           /\ rw <> path_join cw bn
           /\ In rw (scratch_paths path_join)).
{ destruct (project_to_wgs_ok path_join reproject w3 s2 svc FL3 Hs3 P3)
    as (w4 & [(Hw & E4 & S4)|(Hw & E4 & S4)]);
    pose proof (reach_step _ _ _ _ _ _ R3 S4) as R4; rewrite (proj1 R3) in R4;
    unfold staged; rewrite Hw; do 3 eexists;
    (split; [exact E4|]); (split; [exact R4|]);
    (split; [now lk|]); (split; [now lk|]);
    (split; [congruence|]); unfold scratch_paths; simpl; auto. }
destruct Hstaged as (rw & w4 & o4 & E4 & R4 & Hrw & Hb4 & Hne & Hin).
rewrite (lift_bind_val_at _ _ _ _ _ _ _ _ E4), set_rows_wgs_bind, print_bind.
apply (reach_print _ _ _ _ PrintSchemaMatches) in R4.
match type of R4 with reach _ ?w _ _ => set (w4p := w) in * end.
pose proof (reach_faultless _ _ _ _ R4 FL) as FL4.
(* load *)
assert (Hrw4 : objects w4p !! rw = Some (staged reproject svc))
  by (now rewrite (proj1 R4)).
assert (Hb4p : objects w4p !! path_join cw bn = Some tfc)
  by (now rewrite (proj1 R4)).
destruct (truncate_then_append_ok w4p rw _ _ _ FL4 Hrw4 Hb4p Hne) as (w5 & E5 & S5).
rewrite (lift_bind_val_at _ _ _ _ _ _ _ _ E5).
pose proof (reach_step _ _ _ _ _ _ R4 S5) as R5. rewrite (proj1 R4) in R5.
pose proof (reach_faultless _ _ _ _ R5 FL) as FL5.
assert (Hb5 : objects w5 !! path_join cw bn
              = Some (with_rows (fc_rows (staged reproject svc)) tfc))
  by (rewrite (proj1 R5); now lk).
unfold lift, try_except, bind at 1. cbn [fr_world].
rewrite (GetCount_ok w5 _ _ FL5 Hb5). unfold print.
eexists. split; [reflexivity|]. cbn [fr_world out objects with_out with_clock].
split; [|split].
- exact Hb5.
- destruct R5 as (_ & _ & -> & _). cbn [with_rows fc_rows].
  rewrite staged_rows. now rewrite <- app_assoc.
- intros q. unfold scratch_paths in *. cbn in *. intuition congruence.
Qed.

(** X23: when no engine call fails and the target does not exist yet,
  [process_pair] creates it from the service: the new target holds
  the schema and rows of the service, reprojected to WGS84 unless
  the service is in WGS84 already, and the run prints the banner,
  the creation notice and the count of the rows loaded. *)
Theorem process_pair_creates_missing_target
  (service_url target_str sde_ws : string) (w : World) (svc : FeatureClass) :
let bp := snd (split_target path_join sde_ws target_str) in
faultless w ->
paths_apart path_join service_url bp ->
objects w !! service_url = Some svc ->
exists_at w bp = false ->
exists w',
  process_pair path_join reproject ALLOWED_EXTRA service_url target_str sde_ws w
  = (Val tt, w')
  /\ objects w' !! bp = Some (staged reproject svc)
  /\ out w' = out w ++ [PrintBanner; PrintSource service_url; PrintTarget bp;
                        PrintCreating;
                        PrintCreated bp (length (fc_rows svc))].
Proof.
intros bp FL PA Hurl Hex. subst bp.
pose proof (pair_finish service_url target_str sde_ws w) as Hfin.
pose proof (split_target_join path_join sde_ws target_str) as Hj.
destruct (split_target path_join sde_ws target_str) as [[cw bn] bp].
cbn [fst snd] in *. subst bp.
destruct (try_create service_url cw bn (fr_world (pair_start w service_url (path_join cw bn)))
            svc FL PA Hurl Hex) as (fr' & E & Hb & Ho & Hl).
destruct (Hfin fr' E Hl) as (w' & Er & Hb' & Ho').
{ destruct (paths_apart_ne _ _ PA) as (_ & (_ & B2 & B3 & B4) & _).
  unfold scratch_paths. simpl. intuition congruence. }
exists w'. split; [exact Er|]. split; [now rewrite Hb'|].
rewrite Ho', Ho. cbn [pair_start fr_world out with_out].
now rewrite <- app_assoc.
Qed.

(** X24: when no engine call fails and the target exists with a schema
  the guard accepts, [process_pair] replaces the rows of the target
  by the rows of the service, reprojected to WGS84 unless the
  service is in WGS84 already; shape type, spatial reference and
  fields of the target stay as they were, and the run prints the
  banner, the schema notice and the count of the rows loaded. *)
Theorem process_pair_syncs_matching_target
  (service_url target_str sde_ws : string) (w : World) (svc tfc : FeatureClass) :
let bp := snd (split_target path_join sde_ws target_str) in
faultless w ->
paths_apart path_join service_url bp ->
objects w !! service_url = Some svc ->
objects w !! bp = Some tfc ->
schema_passes (with_rows [] svc) tfc (Some ALLOWED_EXTRA) = true ->
exists w',
  process_pair path_join reproject ALLOWED_EXTRA service_url target_str sde_ws w
  = (Val tt, w')
  /\ objects w' !! bp = Some (with_rows (fc_rows (staged reproject svc)) tfc)
  /\ out w' = out w ++ [PrintBanner; PrintSource service_url; PrintTarget bp;
                        PrintSchemaMatches;
                        PrintSyncComplete (length (fc_rows svc)) bp].
Proof.
intros bp FL PA Hurl Htgt Hpass. subst bp.
pose proof (pair_finish service_url target_str sde_ws w) as Hfin.
pose proof (split_target_join path_join sde_ws target_str) as Hj.
destruct (split_target path_join sde_ws target_str) as [[cw bn] bp].
cbn [fst snd] in *. subst bp.
destruct (try_sync service_url cw bn (fr_world (pair_start w service_url (path_join cw bn)))
            svc tfc FL PA Hurl Htgt Hpass) as (fr' & E & Hb & Ho & Hl).
destruct (Hfin fr' E Hl) as (w' & Er & Hb' & Ho').
{ destruct (paths_apart_ne _ _ PA) as (_ & (_ & B2 & B3 & B4) & _).
  unfold scratch_paths. simpl. intuition congruence. }
exists w'. split; [exact Er|]. split; [now rewrite Hb'|].
rewrite Ho', Ho. cbn [pair_start fr_world out with_out].
now rewrite <- app_assoc.
Qed.

End PairEndToEnd.

Lemma process_pair_creates_missing_target_witness :
  exists w',
    process_pair ex_join (fun r => r) ALLOWED_EXTRA_IN_TARGET "url1" "B" ex_sde
      (ex_world ex_target (fun _ _ => false))
    = (Val tt, w')
    /\ objects w' !! ex_join ex_sde "B" = Some (staged (fun r => r) ex_service).
Proof.
  assert (FL : faultless (ex_world ex_target (fun _ _ => false)))
    by (intros n op; reflexivity).
  assert (PA : paths_apart ex_join "url1"
                 (snd (split_target ex_join ex_sde "B"))).
  { unfold paths_apart. vm_compute.
    repeat (constructor; [simpl; intuition discriminate|]). constructor. }
  assert (Hu : objects (ex_world ex_target (fun _ _ => false)) !! "url1"
               = Some ex_service) by (vm_compute; reflexivity).
  assert (Hx : exists_at (ex_world ex_target (fun _ _ => false))
                 (snd (split_target ex_join ex_sde "B")) = false)
    by (vm_compute; reflexivity).
  destruct (process_pair_creates_missing_target ex_join (fun r => r)
              ALLOWED_EXTRA_IN_TARGET "url1" "B" ex_sde _ ex_service FL PA Hu Hx)
    as (w' & E & Hb & _).
  exists w'. split; [exact E|exact Hb].
Defined.

Lemma process_pair_syncs_matching_target_witness :
  exists w',
    process_pair ex_join (fun r => r) ALLOWED_EXTRA_IN_TARGET "url1" "A" ex_sde
      (ex_world ex_target (fun _ _ => false))
    = (Val tt, w')
    /\ objects w' !! ex_join ex_sde "A"
       = Some (with_rows (fc_rows (staged (fun r => r) ex_service)) ex_target).
Proof.
  assert (FL : faultless (ex_world ex_target (fun _ _ => false)))
    by (intros n op; reflexivity).
  assert (PA : paths_apart ex_join "url1"
                 (snd (split_target ex_join ex_sde "A"))).
  { unfold paths_apart. vm_compute.
    repeat (constructor; [simpl; intuition discriminate|]). constructor. }
  assert (Hu : objects (ex_world ex_target (fun _ _ => false)) !! "url1"
               = Some ex_service) by (vm_compute; reflexivity).
  assert (Ht : objects (ex_world ex_target (fun _ _ => false))
                 !! snd (split_target ex_join ex_sde "A") = Some ex_target)
    by (vm_compute; reflexivity).
  assert (Hp : schema_passes (with_rows [] ex_service) ex_target
                 (Some ALLOWED_EXTRA_IN_TARGET) = true)
    by (vm_compute; reflexivity).
  destruct (process_pair_syncs_matching_target ex_join (fun r => r)
              ALLOWED_EXTRA_IN_TARGET "url1" "A" ex_sde _ ex_service ex_target
              FL PA Hu Ht Hp)
    as (w' & E & Hb & _).
  exists w'. split; [exact E|exact Hb].
Defined.

(* ===================================================================== *)
(** * Further properties: the vertices of a geometry *)
(* ===================================================================== *)

Section VertexFacts.

Variable coord : Type.
Variable coord_eqb : coord -> coord -> bool.

Local Abbreviation close_ring' := (close_ring coord coord_eqb).
Local Abbreviation flush_ring' := (flush_ring coord coord_eqb).
Local Abbreviation point_step' := (point_step coord coord_eqb).
Local Abbreviation part_step' := (part_step coord coord_eqb).

Lemma close_ring_keep ring : close_ring' false ring = ring.
Proof. reflexivity. Qed.

Lemma close_ring_nonempty d ring : ring <> [] -> close_ring' d ring <> [].
Proof.
intros Hne. unfold close_ring.
destruct (d && (1 <? length ring)%nat && ends_meet coord coord_eqb ring) eqn:E;
  [|exact Hne].
destruct ring as [|a [|b r]]; [easy| |easy].
now rewrite !andb_true_iff in E.
Qed.

Lemma close_ring_single d (v : Vertex coord) : close_ring' d [v] = [v].
Proof. unfold close_ring. cbn. now rewrite andb_false_r. Qed.

Lemma flush_ring_nonempty d parts ring :
Forall (fun p => p <> []) parts ->
Forall (fun p => p <> []) (flush_ring' d parts ring).
Proof.
intros H. destruct ring as [|v r]; [exact H|]. cbn [flush_ring].
apply Forall_app. split; [exact H|].
constructor; [now apply close_ring_nonempty|constructor].
Qed.

Lemma point_fold_nonempty d iz hz part : forall st,
Forall (fun p => p <> []) (fst st) ->
Forall (fun p => p <> []) (fst (fold_left (point_step' d iz hz) part st)).
Proof.
induction part as [|pt r IH]; intros st H; [exact H|].
cbn [fold_left]. apply IH. destruct pt as [p|]; [exact H|].
cbn [point_step]. destruct (snd st) as [|v ring] eqn:E; [exact H|].
cbn [fst]. now apply flush_ring_nonempty.
Qed.

Lemma parts_fold_nonempty d iz hz parts : forall acc,
Forall (fun p => p <> []) acc ->
Forall (fun p => p <> []) (fold_left (part_step' d iz hz) parts acc).
Proof.
induction parts as [|part r IH]; intros acc H; [exact H|].
cbn [fold_left]. apply IH. unfold part_step.
apply flush_ring_nonempty. now apply point_fold_nonempty.
Qed.

(** X25: [vertices_by_part] never returns an empty part, whatever the
  separators in the geometry and whatever the flags. *)
Theorem vertices_by_part_no_empty_part
  (geom : option (Geometry coord)) (drop_closing_duplicate include_z : bool) :
Forall (fun part => part <> [])
  (vertices_by_part coord coord_eqb geom drop_closing_duplicate include_z).
Proof.
destruct geom as [g|]; [|constructor]. cbn [vertices_by_part].
destruct (String.eqb (PyStr.lower (g_type g)) "point").
- destruct (g_firstPoint g); repeat constructor. easy.
- apply parts_fold_nonempty. constructor.
Qed.

Lemma flush_ring_concat parts ring :
concat (flush_ring' false parts ring) = concat parts ++ ring.
Proof.
destruct ring as [|v r]; cbn [flush_ring]; [now rewrite app_nil_r|].
rewrite concat_app. cbn [concat]. now rewrite app_nil_r.
Qed.

Lemma point_fold_concat iz hz part : forall st,
concat (fst (fold_left (point_step' false iz hz) part st))
  ++ snd (fold_left (point_step' false iz hz) part st)
= concat (fst st) ++ snd st ++ part_vertices iz hz part.
Proof.
induction part as [|pt r IH]; intros st; cbn [fold_left].
- cbn. now rewrite app_nil_r.
- rewrite IH. destruct pt as [p|]; cbn [point_step part_vertices flat_map fst snd].
  + now rewrite <- !app_assoc.
  + destruct (snd st) as [|v ring] eqn:E; [now rewrite E|].
    cbn [fst snd]. rewrite flush_ring_concat. now rewrite <- !app_assoc.
Qed.

Lemma parts_fold_concat iz hz parts : forall acc,
concat (fold_left (part_step' false iz hz) parts acc)
= concat acc ++ flat_map (part_vertices iz hz) parts.
Proof.
induction parts as [|part r IH]; intros acc; cbn [fold_left flat_map].
- now rewrite app_nil_r.
- rewrite IH. unfold part_step. rewrite flush_ring_concat, point_fold_concat.
  cbn [fst snd]. cbn [app]. now rewrite <- app_assoc.
Qed.

(** X26: with [drop_closing_duplicate=False] a polyline or polygon
  loses no vertex: the returned parts, put end to end, are the
  vertices of its points in their order, separators left out. *)
Theorem vertices_by_part_keeps_every_vertex
  (g : Geometry coord) (include_z : bool) :
PyStr.lower (g_type g) <> "point" ->
concat (vertices_by_part coord coord_eqb (Some g) false include_z)
= flat_map (part_vertices include_z (g_hasZ g)) (g_parts g).
Proof.
intros Hp. cbn [vertices_by_part].
apply String.eqb_neq in Hp. rewrite Hp.
now rewrite parts_fold_concat.
Qed.

Lemma flush_ring_drop parts ring :
flush_ring' true (map (close_ring' true) parts) ring
= map (close_ring' true) (flush_ring' false parts ring).
Proof.
destruct ring as [|v r]; cbn [flush_ring]; [reflexivity|].
rewrite map_app. reflexivity.
Qed.

Lemma point_fold_drop iz hz part : forall st,
fold_left (point_step' true iz hz) part (map (close_ring' true) (fst st), snd st)
= (map (close_ring' true) (fst (fold_left (point_step' false iz hz) part st)),
   snd (fold_left (point_step' false iz hz) part st)).
Proof.
induction part as [|pt r IH]; intros st; cbn [fold_left]; [reflexivity|].
rewrite <- IH. f_equal. destruct st as [ps ring].
destruct pt as [p|]; cbn [point_step fst snd]; [reflexivity|].
destruct ring as [|v ring]; [reflexivity|].
now rewrite flush_ring_drop.
Qed.

Lemma parts_fold_drop iz hz parts : forall acc,
fold_left (part_step' true iz hz) parts (map (close_ring' true) acc)
= map (close_ring' true) (fold_left (part_step' false iz hz) parts acc).
Proof.
induction parts as [|part r IH]; intros acc; cbn [fold_left]; [reflexivity|].
rewrite <- IH. f_equal. unfold part_step.
pose proof (point_fold_drop iz hz part (acc, [])) as H. cbn [fst snd] in H.
rewrite H. cbn [fst snd]. apply flush_ring_drop.
Qed.

(** X27: [drop_closing_duplicate] changes no part but by its closing
  vertex: the result with the flag is the result without it, each
  part stripped of its last vertex when that repeats the first one
  and the part has more than one vertex. The parts are cut at the
  same places, so their number is the same. *)
Theorem vertices_by_part_drop_is_partwise
  (geom : option (Geometry coord)) (include_z : bool) :
vertices_by_part coord coord_eqb geom true include_z
= map (close_ring coord coord_eqb true)
    (vertices_by_part coord coord_eqb geom false include_z).
Proof.
destruct geom as [g|]; [|reflexivity]. cbn [vertices_by_part].
destruct (String.eqb (PyStr.lower (g_type g)) "point").
- destruct (g_firstPoint g); [|reflexivity].
  cbn [map]. now rewrite close_ring_single.
- apply (parts_fold_drop include_z (g_hasZ g) (g_parts g) []).
Qed.

End VertexFacts.

Lemma vertices_by_part_keeps_every_vertex_witness :
  concat (vertices_by_part Z Z.eqb
            (Some (mkGeometry "Polygon" None false
                     [[Some (mkPoint 0 0 0); Some (mkPoint 1 0 0);
                       Some (mkPoint 0 0 0); None; Some (mkPoint 5 5 0)]]%Z))
            false false)
  = [V2 0 0; V2 1 0; V2 0 0; V2 5 5]%Z.
Proof.
  rewrite (vertices_by_part_keeps_every_vertex Z Z.eqb).
  - reflexivity.
  - vm_compute. discriminate.
Defined.
